(** * Crash recovery and page materialization: a shallow embedding

    Two parts of the repository are embedded here.

    - [Repl]: [src/mongo/db/repl/replication_recovery.cpp], the
      replication-log recovery orchestrator ([recoverFromOplog],
      [recoverFromOplogUpTo], the oplog truncator and the replay loop).
    - [BtRead]: [src/btree/bt_read.c], the page read path and the
      instantiation of lookaside records ([__wt_cache_read],
      [__las_page_instantiate], [__wt_las_remove_block]).

    Stateful code is written in a state-and-abort monad; every definition
    carries the name of the function it embeds. *)

From Stdlib Require Import ZArith List Bool Lia.
From stdpp Require Import base list gmap sets sorting.

Local Open Scope Z_scope.
#[local] Set Warnings "-clear-no-such-hyp".

(* ===================================================================== *)
(** * Part I: replication recovery                                        *)
(* ===================================================================== *)

Module Repl.

(** ** Data model *)

(** A [Timestamp] is compared as one unsigned 64-bit value (seconds in the
    high word, increment in the low word); [Timestamp()] is the null
    timestamp 0. *)
Definition Timestamp : Type := Z.
Definition Timestamp_null : Timestamp := 0.
Definition ts_isNull (t : Timestamp) : bool := t =? 0.

(** [OpTime]: a timestamp and a term.  [OpTime::isNull] looks at the
    timestamp only; the default [OpTime()] has the uninitialised term -1. *)
Record OpTime : Type := mkOpTime { getTimestamp : Timestamp; getTerm : Z }.
Definition OpTime_null : OpTime := mkOpTime Timestamp_null (-1).
Definition ot_isNull (o : OpTime) : bool := ts_isNull (getTimestamp o).

(** [RecordId]: a signed 64-bit representation, [RecordId()] is null (0). *)
Definition RecordId : Type := Z.
Definition RecordId_null : RecordId := 0.
Definition rid_isNull (r : RecordId) : bool := r =? 0.

(** An oplog document, as the recovery code reads it: the record id under
    which the record store keeps it, the value of [entry["ts"].timestamp()]
    and the term that [OpTime::parseFromOplogEntry] reads with it. *)
Record OplogEntry : Type := mkEntry
  { e_id : RecordId; e_ts : Timestamp; e_term : Z }.
Definition getOpTime (e : OplogEntry) : OpTime := mkOpTime (e_ts e) (e_term e).

(** Calls to collaborators outside the file, in the order they are made. *)
Inductive Event : Type :=
| EvSetOldestTimestamp (t : Timestamp)
| EvSetInitialDataTimestamp (t : Timestamp)
| EvSetAppliedThrough (o : OpTime)
| EvSetOplogTruncateAfterPoint (t : Timestamp)
| EvCappedTruncateAfter (r : RecordId) (inclusive : bool)
| EvApplyOplogBatch (batch : list OplogEntry)
| EvWaitUntilDurable
| EvWaitUntilUnjournaledWritesDurable
| EvReconstructPreparedTransactions.

(** The consistency markers, the storage engine's view and the oplog
    collection ([None]: the collection does not exist; otherwise its
    records in record-store order, oldest first). *)
Record State : Type := mkState
  { initialSyncFlag : bool;
    appliedThrough : OpTime;
    minValid : OpTime;
    oplogTruncateAfterPoint : Timestamp;
    oplog : option (list OplogEntry);
    supportsRecoveryTimestamp : bool;
    recoveryTimestamp : option Timestamp;
    inReplicationRecovery : bool;
    readOnly : bool;
    trace : list Event }.

Definition set_appliedThrough (o : OpTime) (s : State) : State :=
  mkState (initialSyncFlag s) o (minValid s) (oplogTruncateAfterPoint s)
          (oplog s) (supportsRecoveryTimestamp s) (recoveryTimestamp s)
          (inReplicationRecovery s) (readOnly s) (trace s).
Definition set_oplogTruncateAfterPoint (t : Timestamp) (s : State) : State :=
  mkState (initialSyncFlag s) (appliedThrough s) (minValid s) t
          (oplog s) (supportsRecoveryTimestamp s) (recoveryTimestamp s)
          (inReplicationRecovery s) (readOnly s) (trace s).
Definition set_oplog (l : option (list OplogEntry)) (s : State) : State :=
  mkState (initialSyncFlag s) (appliedThrough s) (minValid s)
          (oplogTruncateAfterPoint s) l (supportsRecoveryTimestamp s)
          (recoveryTimestamp s) (inReplicationRecovery s) (readOnly s) (trace s).
Definition set_inReplicationRecovery (b : bool) (s : State) : State :=
  mkState (initialSyncFlag s) (appliedThrough s) (minValid s)
          (oplogTruncateAfterPoint s) (oplog s) (supportsRecoveryTimestamp s)
          (recoveryTimestamp s) b (readOnly s) (trace s).
Definition set_readOnly (b : bool) (s : State) : State :=
  mkState (initialSyncFlag s) (appliedThrough s) (minValid s)
          (oplogTruncateAfterPoint s) (oplog s) (supportsRecoveryTimestamp s)
          (recoveryTimestamp s) (inReplicationRecovery s) b (trace s).
Definition add_event (ev : Event) (s : State) : State :=
  mkState (initialSyncFlag s) (appliedThrough s) (minValid s)
          (oplogTruncateAfterPoint s) (oplog s) (supportsRecoveryTimestamp s)
          (recoveryTimestamp s) (inReplicationRecovery s) (readOnly s)
          (trace s ++ [ev]).

(** ** The monad: state, fatal aborts and exceptions *)

(** A fatal site ends the process on the spot: [fassertFailedNoTrace] with
    its code, a failed [invariant], or [std::terminate]. *)
Inductive FatalSite : Type :=
| Fassert (code : Z)
| InvariantFailure
| Terminate.

(** Exceptions thrown by [uassert]/[uasserted]/[uassertStatusOK]. *)
Inductive ErrorCode : Type :=
| InitialSyncActive
| BadValue
| ApplierFailure.

Inductive Outcome (A : Type) : Type :=
| Ret (a : A) (s : State)
| Fatal (f : FatalSite) (s : State)
| Throw (e : ErrorCode) (s : State).
Arguments Ret {A} a s.
Arguments Fatal {A} f s.
Arguments Throw {A} e s.

Definition M (A : Type) : Type := State -> Outcome A.

#[global] Instance M_ret : MRet M := fun A a s => Ret a s.
#[global] Instance M_bind : MBind M := fun A B k m s =>
  match m s with
  | Ret a s' => k a s'
  | Fatal f s' => Fatal f s'
  | Throw e s' => Throw e s'
  end.

Definition gets {A} (f : State -> A) : M A := fun s => Ret (f s) s.
Definition modify (f : State -> State) : M unit := fun s => Ret tt (f s).
Definition emit (ev : Event) : M unit := modify (add_event ev).
Definition fassertFailedNoTrace {A} (code : Z) : M A := fun s => Fatal (Fassert code) s.
Definition invariant (b : bool) : M unit :=
  fun s => if b then Ret tt s else Fatal InvariantFailure s.
Definition uasserted {A} (e : ErrorCode) : M A := fun s => Throw e s.
Definition uassert (e : ErrorCode) (b : bool) : M unit :=
  fun s => if b then Ret tt s else Throw e s.

(** The final state of a run, whatever way it ended. *)
Definition final_state {A} (o : Outcome A) : State :=
  match o with Ret _ s | Fatal _ s | Throw _ s => s end.

(** ** Consistency markers and storage interface *)

Definition getInitialSyncFlag : M bool := gets initialSyncFlag.
Definition getAppliedThrough : M OpTime := gets appliedThrough.
Definition getOplogTruncateAfterPoint : M Timestamp := gets oplogTruncateAfterPoint.

Definition setAppliedThrough (o : OpTime) : M unit :=
  modify (set_appliedThrough o);; emit (EvSetAppliedThrough o).
Definition setOplogTruncateAfterPoint (t : Timestamp) : M unit :=
  modify (set_oplogTruncateAfterPoint t);; emit (EvSetOplogTruncateAfterPoint t).

Definition setOldestTimestamp (t : Timestamp) : M unit := emit (EvSetOldestTimestamp t).
Definition setInitialDataTimestamp (t : Timestamp) : M unit :=
  emit (EvSetInitialDataTimestamp t).
Definition waitUntilDurable : M unit := emit EvWaitUntilDurable.
Definition waitUntilUnjournaledWritesDurable : M unit :=
  emit EvWaitUntilUnjournaledWritesDurable.
Definition reconstructPreparedTransactions : M unit :=
  emit EvReconstructPreparedTransactions.

(** Modelled from the spec: [Collection::cappedTruncateAfter] is not in the
    source tree; the log store "supports capped-truncate-after a record id
    (inclusive)": the record with that id and every record after it in
    store order go away (the record itself stays when not inclusive). *)
Fixpoint truncate_after (log : list OplogEntry) (r : RecordId) (inclusive : bool)
  : list OplogEntry :=
  match log with
  | [] => []
  | e :: l =>
      if e_id e =? r then (if inclusive then [] else [e])
      else e :: truncate_after l r inclusive
  end.

Definition cappedTruncateAfter (r : RecordId) (inclusive : bool) : M unit :=
  modify (fun s => set_oplog (option_map (fun l => truncate_after l r inclusive) (oplog s)) s);;
  emit (EvCappedTruncateAfter r inclusive).

(** ** [_getTopOfOplog] *)

Inductive Status : Type := CollectionIsEmpty | NamespaceNotFound.

(** A backward collection scan limited to one document. *)
Definition _getTopOfOplog (s : State) : Status + OpTime :=
  match oplog s with
  | None => inl NamespaceNotFound
  | Some log =>
      match rev log with
      | [] => inl CollectionIsEmpty
      | top :: _ => inr (getOpTime top)
      end
  end.

(** ** [_truncateOplogTo] *)

(** The loop over the reverse cursor: [cursor] is what
    [oplogReverseCursor->next()] still has to yield (newest first), [count]
    the entries seen so far, [previousRecordId] the id of the entry
    examined before.  The variable [topOfOplog] of the source only feeds
    log messages. *)
Fixpoint truncate_scan (truncateTimestamp : Timestamp) (cursor : list OplogEntry)
  (count : nat) (previousRecordId : RecordId) : M unit :=
  match cursor with
  | [] => fassertFailedNoTrace 40296
  | next :: rest =>
      let id := e_id next in
      let count := S count in
      if e_ts next <=? truncateTimestamp then
        if negb (Nat.eqb count 1) then
          invariant (negb (rid_isNull previousRecordId));;
          cappedTruncateAfter previousRecordId true
        else mret tt
      else truncate_scan truncateTimestamp rest count id
  end.

Definition _truncateOplogTo (truncateTimestamp : Timestamp) : M unit :=
  log ← gets oplog;
  match log with
  | None => fassertFailedNoTrace 34418
  | Some l => truncate_scan truncateTimestamp (rev l) 0%nat RecordId_null
  end.

(** ** [_truncateOplogIfNeededAndThenClearOplogTruncateAfterPoint] *)

Definition _truncateOplogIfNeededAndThenClearOplogTruncateAfterPoint
  (stableTimestamp : option Timestamp) : M unit :=
  truncatePoint ← getOplogTruncateAfterPoint;
  if ts_isNull truncatePoint then mret tt
  else
    truncatePoint ←
      match stableTimestamp with
      | Some stable =>
          if negb (ts_isNull stable) && (truncatePoint <=? stable) then
            log ← gets oplog;
            invariant (bool_decide (is_Some log));;
            mret stable
          else mret truncatePoint
      | None => mret truncatePoint
      end;
    _truncateOplogTo truncatePoint;;
    setOplogTruncateAfterPoint Timestamp_null;;
    waitUntilDurable.

(** ** The oplog applier (external collaborator) *)

(** Modelled from the spec: the batching applier is not in the source tree.
    "Applier (external): next_batch(limits) -> Vec<Entry>;
    apply(batch) -> OpTime".  [batch_size buffer] is the number of entries
    the batcher pops from the head of the buffer under its byte and entry
    limits, [batch_ok] and [apply_ok] are the statuses of the two calls. *)
Class OplogApplier : Type := mkApplier
  { batch_ok : list OplogEntry -> bool;
    batch_size : list OplogEntry -> nat;
    apply_ok : list OplogEntry -> bool }.

Section Replay.
Context {applier : OplogApplier}.

(** [getNextApplierBatch] pops its batch through [OplogBufferLocalOplog]'s
    [peek]/[tryPop]; a failed status is [fassert(50763, ...)]. *)
Definition getNextApplierBatch (buffer : list OplogEntry)
  : M (list OplogEntry * list OplogEntry) :=
  if batch_ok buffer
  then mret (take (batch_size buffer) buffer, drop (batch_size buffer) buffer)
  else fassertFailedNoTrace 50763.

(** [uassertStatusOK(oplogApplier.applyOplogBatch(...))]: the batch is
    applied and the optime of its last entry comes back. *)
Definition applyOplogBatch (batch : list OplogEntry) : M OpTime :=
  if apply_ok batch
  then emit (EvApplyOplogBatch batch);;
       mret (getOpTime (List.last batch (mkEntry 0 0 (-1))))
  else uasserted ApplierFailure.

(** ** [OplogBufferLocalOplog::startup] *)

(** The query [{ts: {$gte: start, $lte: end}}] over the oplog in natural
    order; a missing collection gives an empty cursor. *)
Definition oplog_query (start : Timestamp) (endPoint : option Timestamp)
  (log : option (list OplogEntry)) : list OplogEntry :=
  List.filter
    (fun e => (start <=? e_ts e) &&
              match endPoint with Some e' => e_ts e <=? e' | None => true end)
    (default [] log).

(** Returns the cursor after the first document has been taken off it. *)
Definition startup (oplogApplicationStartPoint : Timestamp)
  (oplogApplicationEndPoint : option Timestamp) : M (list OplogEntry) :=
  log ← gets oplog;
  match oplog_query oplogApplicationStartPoint oplogApplicationEndPoint log with
  | [] => fassertFailedNoTrace 40293
  | first :: cursor =>
      let firstTimestampFound := getTimestamp (getOpTime first) in
      if negb (firstTimestampFound =? oplogApplicationStartPoint)
      then fassertFailedNoTrace 40292
      else mret cursor
  end.

(** ** [_applyOplogOperations] *)

(** The [while] loop.  Every round with a batch takes at least one entry
    off the buffer, so [S (length buffer)] rounds are enough; [fuel] only
    makes the recursion structural. *)
Fixpoint apply_batches (fuel : nat) (buffer : list OplogEntry)
  (applyThroughOpTime : OpTime) : M (OpTime * list OplogEntry) :=
  '(batch, buffer') ← getNextApplierBatch buffer;
  match batch with
  | [] => mret (applyThroughOpTime, buffer')
  | _ :: _ =>
      match fuel with
      | O => mret (applyThroughOpTime, buffer')
      | S fuel' =>
          applyThroughOpTime ← applyOplogBatch batch;
          apply_batches fuel' buffer' applyThroughOpTime
      end
  end.

Definition _applyOplogOperations (startPoint endPoint : Timestamp) : M Timestamp :=
  oplogBuffer ← startup startPoint (Some endPoint);
  '(applyThroughOpTime, oplogBuffer) ←
     apply_batches (length oplogBuffer) oplogBuffer OpTime_null;
  invariant (bool_decide (oplogBuffer = []));;
  if ot_isNull applyThroughOpTime then mret Timestamp_null
  else
    setAppliedThrough applyThroughOpTime;;
    mret (getTimestamp applyThroughOpTime).

(** ** [_applyToEndOfOplog] *)

Definition _applyToEndOfOplog (oplogApplicationStartPoint topOfOplog : Timestamp)
  : M unit :=
  invariant (negb (ts_isNull oplogApplicationStartPoint));;
  invariant (negb (ts_isNull topOfOplog));;
  if oplogApplicationStartPoint =? topOfOplog then mret tt
  else if oplogApplicationStartPoint >? topOfOplog then fassertFailedNoTrace 40313
  else
    appliedUpTo ← _applyOplogOperations oplogApplicationStartPoint topOfOplog;
    invariant (negb (ts_isNull appliedUpTo));;
    invariant (appliedUpTo =? topOfOplog).

(** ** [_recoverFromStableTimestamp] and [_recoverFromUnstableCheckpoint] *)

Definition _recoverFromStableTimestamp (stableTimestamp : Timestamp)
  (appliedThrough topOfOplog : OpTime) : M unit :=
  invariant (negb (ts_isNull stableTimestamp));;
  invariant (negb (ot_isNull topOfOplog));;
  _ ← getOplogTruncateAfterPoint;
  _applyToEndOfOplog stableTimestamp (getTimestamp topOfOplog).

Definition _recoverFromUnstableCheckpoint (appliedThrough topOfOplog : OpTime)
  : M unit :=
  invariant (negb (ot_isNull topOfOplog));;
  (if ot_isNull appliedThrough then mret tt
   else
     setOldestTimestamp (getTimestamp appliedThrough);;
     _applyToEndOfOplog (getTimestamp appliedThrough) (getTimestamp topOfOplog));;
  setInitialDataTimestamp (getTimestamp topOfOplog);;
  setAppliedThrough topOfOplog;;
  waitUntilUnjournaledWritesDurable.

(** ** [recoverFromOplogPrecursor] *)

Definition recoverFromOplogPrecursor : M (option Timestamp) :=
  supports ← gets supportsRecoveryTimestamp;
  if negb supports then fassertFailedNoTrace 50805
  else
    recoveryTS ← gets recoveryTimestamp;
    match recoveryTS with
    | Some t => if ts_isNull t then fassertFailedNoTrace 50806 else mret recoveryTS
    | None => mret recoveryTS
    end.

(** ** [recoverFromOplogUpTo] *)

Definition recoverFromOplogUpTo (endPoint : Timestamp) : M unit :=
  flag ← getInitialSyncFlag;
  uassert InitialSyncActive (negb flag);;
  recoveryTS ← recoverFromOplogPrecursor;
  match recoveryTS with
  | None => fassertFailedNoTrace 31399
  | Some _ =>
      _truncateOplogIfNeededAndThenClearOplogTruncateAfterPoint recoveryTS;;
      at_ ← getAppliedThrough;
      let startPoint := getTimestamp at_ in
      if ts_isNull startPoint then mret tt
      else
        invariant (negb (ts_isNull endPoint));;
        if startPoint =? endPoint then mret tt
        else if startPoint >? endPoint then uasserted BadValue
        else
          appliedUpTo ← _applyOplogOperations startPoint endPoint;
          (if ts_isNull appliedUpTo then mret tt
           else invariant (appliedUpTo <=? endPoint));;
          reconstructPreparedTransactions
  end.

(** ** [recoverFromOplog] *)

(** [ON_BLOCK_EXIT]: the guard runs when the block is left by a return or
    by an exception; a fatal site ends the process before any destructor. *)
Definition on_block_exit {A} (guard : M unit) (body : M A) : M A := fun s =>
  match body s with
  | Ret a s' =>
      match guard s' with
      | Ret _ s'' => Ret a s''
      | Fatal f s'' => Fatal f s''
      | Throw e s'' => Throw e s''
      end
  | Fatal f s' => Fatal f s'
  | Throw e s' =>
      match guard s' with
      | Ret _ s'' => Throw e s''
      | Fatal f s'' => Fatal f s''
      | Throw _ s'' => Fatal Terminate s''
      end
  end.

(** The function-try-block: [catch (...)] logs and calls [std::terminate]. *)
Definition catch_all_terminate {A} (body : M A) : M A := fun s =>
  match body s with
  | Throw _ s' => Fatal Terminate s'
  | o => o
  end.

Definition recoverFromOplog (stableTimestamp : option Timestamp) : M unit :=
  catch_all_terminate (
    (flag ← getInitialSyncFlag;
     if (flag : bool) then mret tt
     else
      modify (set_inReplicationRecovery true);;
      on_block_exit
        ((inRecovery ← gets inReplicationRecovery;
          invariant inRecovery;;
          modify (set_inReplicationRecovery false)) : M unit)
        ((supportsRecoveryTimestamp ← gets supportsRecoveryTimestamp;
          stableTimestamp ←
            (if bool_decide (stableTimestamp = None) && supportsRecoveryTimestamp
             then gets recoveryTimestamp
             else mret stableTimestamp);
          appliedThrough ← getAppliedThrough;
          invariant
            (match stableTimestamp with
             | None => true
             | Some stable =>
                 ts_isNull stable || ot_isNull appliedThrough ||
                 (stable =? getTimestamp appliedThrough)
             end);;
          _truncateOplogIfNeededAndThenClearOplogTruncateAfterPoint stableTimestamp;;
          topOfOplogSW ← gets _getTopOfOplog;
          match topOfOplogSW with
          | inl _ => mret tt
          | inr topOfOplog =>
              match stableTimestamp with
              | Some stable =>
                  invariant supportsRecoveryTimestamp;;
                  _recoverFromStableTimestamp stable appliedThrough topOfOplog
              | None => _recoverFromUnstableCheckpoint appliedThrough topOfOplog
              end
          end) : M unit)) : M unit).

(** ** [_assertNoRecoveryNeededOnUnstableCheckpoint] *)

(** [OpTime]'s comparison operators are declared in [optime.h], outside
    the source tree; the two this function uses are parameters. *)
Context (optime_ne optime_gt : OpTime -> OpTime -> bool).

Definition _assertNoRecoveryNeededOnUnstableCheckpoint : M unit :=
  supports ← gets supportsRecoveryTimestamp;
  invariant supports;;
  recoveryTS ← gets recoveryTimestamp;
  invariant (bool_decide (recoveryTS = None));;
  flag ← getInitialSyncFlag;
  (if (flag : bool) then fassertFailedNoTrace 31362 else mret tt);;
  truncateAfterPoint ← getOplogTruncateAfterPoint;
  (if negb (ts_isNull truncateAfterPoint) then fassertFailedNoTrace 31363 else mret tt);;
  topOfOplogSW ← gets _getTopOfOplog;
  match topOfOplogSW with
  | inl _ => fassertFailedNoTrace 31364
  | inr topOfOplog =>
      appliedThrough ← getAppliedThrough;
      (if negb (ot_isNull appliedThrough) && optime_ne appliedThrough topOfOplog
       then fassertFailedNoTrace 31365 else mret tt);;
      minValid ← gets minValid;
      if optime_gt minValid topOfOplog then fassertFailedNoTrace 31366 else mret tt
  end.

(** ** [recoverFromOplogAsStandalone] *)

(** [gTakeUnstableCheckpointOnShutdown] is a server parameter.
    [acquireOplogCollectionForLogging] only fills the cached pointer to the
    oplog collection, which is no part of the state kept here. *)
Definition recoverFromOplogAsStandalone (gTakeUnstableCheckpointOnShutdown : bool)
  : M unit :=
  recoveryTS ← recoverFromOplogPrecursor;
  (match recoveryTS with
   | Some _ => recoverFromOplog None
   | None =>
       if gTakeUnstableCheckpointOnShutdown
       then _assertNoRecoveryNeededOnUnstableCheckpoint
       else fassertFailedNoTrace 31229
   end);;
  reconstructPreparedTransactions;;
  modify (set_readOnly true).

End Replay.

End Repl.

(* ===================================================================== *)
(** * Part II: page read and lookaside instantiation                      *)
(* ===================================================================== *)

Module BtRead.

(** ** Data model *)

#[global] Instance byte_eq_dec : EqDecision Byte.byte := Byte.byte_eq_dec.
Definition bytes : Type := list Byte.byte.

(** Return codes.  The numeric values come from the public API header,
    which is not in the source tree; the code only compares against them. *)
Definition WT_DUPLICATE_KEY : Z := -31801.
Definition WT_NOTFOUND : Z := -31803.
Definition WT_PANIC : Z := -31804.
Definition EINVAL : Z := 22.

Definition WT_RECNO_OOB : Z := 0.
Definition WT_UPDATE_DELETED_VALUE : Z := 4294967295.
Definition WT_PAGE_LAS_UPDATE : Z := 16.

Inductive ref_state : Type :=
| WT_REF_DISK | WT_REF_DELETED | WT_REF_LOCKED | WT_REF_MEM | WT_REF_READING
| WT_REF_SPLIT.
#[global] Instance ref_state_eq_dec : EqDecision ref_state.
Proof. solve_decision. Defined.

Inductive page_type : Type :=
| WT_PAGE_INVALID | WT_PAGE_BLOCK_MANAGER | WT_PAGE_COL_FIX | WT_PAGE_COL_INT
| WT_PAGE_COL_VAR | WT_PAGE_OVFL | WT_PAGE_ROW_INT | WT_PAGE_ROW_LEAF.

(** A lookaside record: the key
    [(btree id, block address, txnid, counter, user key)] and the value
    [(update txnid, update size, update value)]. *)
Record las_entry : Type := mkLas
  { las_id : Z; las_addr : bytes; las_txnid : Z; las_counter : Z; las_key : bytes;
    upd_txnid : Z; upd_size : Z; las_value : bytes }.

(** A [WT_UPDATE]; [upd_handle] names its allocation.  A chain (the [next]
    pointers from a head) is the list of its records, head first. *)
Record WT_UPDATE : Type := mkUpd
  { upd_handle : nat; txnid : Z; upd_data : option bytes }.

(** The key a chain is attached under: a record number on column-store
    pages, the key bytes on row-store pages. *)
Inductive ukey : Type := Recno (r : Z) | RowKey (k : bytes).
#[global] Instance ukey_eq_dec : EqDecision ukey.
Proof. solve_decision. Defined.

Record WT_PAGE : Type := mkPage
  { pg_handle : nat;
    pg_type : page_type;
    pg_dsk : option nat;
    pg_updates : list (ukey * list WT_UPDATE);
    memory_footprint : Z;
    pg_dirty : bool }.

Record WT_REF : Type := mkRef
  { state : ref_state; ref_addr : option bytes; ref_page : option WT_PAGE }.

Record WT_PAGE_HEADER : Type := mkHeader { dsk_type : page_type; dsk_flags : Z }.

(** The session and what it reaches: the return codes still to come from
    fallible calls ([faults], 0 or none left: success), the live heap
    allocations, the lookaside table, and the page reference at hand. *)
Record World : Type := mkWorld
  { faults : list Z;
    live : gset nat;
    next_handle : nat;
    las_table : list las_entry;
    btree_id : Z;
    ref : WT_REF }.

Definition set_faults (f : list Z) (w : World) : World :=
  mkWorld f (live w) (next_handle w) (las_table w) (btree_id w) (ref w).
Definition set_heap (l : gset nat) (n : nat) (w : World) : World :=
  mkWorld (faults w) l n (las_table w) (btree_id w) (ref w).
Definition set_las_table (t : list las_entry) (w : World) : World :=
  mkWorld (faults w) (live w) (next_handle w) t (btree_id w) (ref w).
Definition set_ref (r : WT_REF) (w : World) : World :=
  mkWorld (faults w) (live w) (next_handle w) (las_table w) (btree_id w) r.

Definition set_state (st : ref_state) (r : WT_REF) : WT_REF :=
  mkRef st (ref_addr r) (ref_page r).
Definition set_page (p : option WT_PAGE) (r : WT_REF) : WT_REF :=
  mkRef (state r) (ref_addr r) p.

(** What lies outside the file: the visibility oracle, the lookaside
    cursor's positioning, the integer unpacker, the block reader. *)
Class Env : Type := mkEnv
  { __wt_txn_visible_all : Z -> bool;
    search_near : list las_entry -> Z * bytes * Z * Z * bytes -> Z * Z * nat;
    __wt_vunpack_uint : bytes -> option Z;
    WT_UPDATE_MEMSIZE : option bytes -> Z;
    __wt_las_is_written : bool;
    block_image : bytes -> WT_PAGE_HEADER;
    block_mapped : bytes -> bool;
    btree_leaf_type : page_type }.

(** ** The monad: a state and C return codes *)

Inductive Res (A : Type) : Type := Ok (a : A) | Err (ret : Z).
Arguments Ok {A} a.
Arguments Err {A} ret.

Definition M (St A : Type) : Type := St -> Res A * St.

#[global] Instance M_ret St : MRet (M St) := fun A a s => (Ok a, s).
#[global] Instance M_bind St : MBind (M St) := fun A B k m s =>
  match m s with
  | (Ok a, s') => k a s'
  | (Err r, s') => (Err r, s')
  end.

(** [WT_ERR(call)] with a non-zero code: jump to the [err] label. *)
Definition throw {St A} (r : Z) : M St A := fun s => (Err r, s).
Definition gets {St A} (f : St -> A) : M St A := fun s => (Ok (f s), s).
Definition modify {St} (f : St -> St) : M St unit := fun s => (Ok tt, f s).

(** The code a function returns. *)
Definition ret_of {A} (r : Res A) : Z := match r with Ok _ => 0 | Err c => c end.
Definition of_ret (r : Z) : Res unit := if r =? 0 then Ok tt else Err r.

(** A function's locals next to the world. *)
Record Frame (L : Type) : Type := mkFrame { world : World; locals : L }.
Arguments mkFrame {L} world locals.
Arguments world {L} f.
Arguments locals {L} f.

Definition liftW {L A} (m : M World A) : M (Frame L) A := fun f =>
  let '(r, w) := m (world f) in (r, mkFrame w (locals f)).
Definition getL {L A} (g : L -> A) : M (Frame L) A := gets (fun f => g (locals f)).
Definition modL {L} (g : L -> L) : M (Frame L) unit :=
  modify (fun f => mkFrame (world f) (g (locals f))).

(** ** Primitives of the session *)

(** A call whose return code is checked: the next code of [faults]. *)
Definition fallible_ret : M World Z := fun w =>
  (Ok (hd 0 (faults w)), set_faults (tl (faults w)) w).
Definition fallible : M World unit :=
  c ← fallible_ret; if c =? 0 then mret tt else throw c.

Definition heap_alloc : M World nat := fun w =>
  (Ok (next_handle w),
   set_heap ({[next_handle w]} ∪ live w) (S (next_handle w)) w).
Definition heap_free (h : nat) : M World unit :=
  modify (fun w => set_heap (live w ∖ {[h]}) (next_handle w) w).

Definition __wt_free (u : WT_UPDATE) : M World unit := heap_free (upd_handle u).

Fixpoint __wt_free_update_list (chain : list WT_UPDATE) : M World unit :=
  match chain with
  | [] => mret tt
  | u :: next => __wt_free u;; __wt_free_update_list next
  end.

Definition __wt_scr_alloc : M World unit := fallible.

(** [__wt_update_alloc]: a fresh record holding the value, or the deleted
    marker when there is none. *)
Definition __wt_update_alloc (value : option bytes) : M World WT_UPDATE :=
  fallible;;
  h ← heap_alloc;
  mret (mkUpd h 0 value).

(** ** The lookaside cursor *)

Definition cursor_get_key : M World unit := fallible.
Definition cursor_get_value : M World unit := fallible.

(** [cursor->next]: [rest] is what lies after the current record. *)
Definition cursor_next (rest : list las_entry) : M World Z :=
  c ← fallible_ret;
  if c =? 0 then mret (match rest with [] => WT_NOTFOUND | _ :: _ => 0 end)
  else mret c.

(** [cursor->remove] at position [pos] of the table; the cursor stays
    where it is, so that [next] moves to the record that followed. *)
Definition cursor_remove (pos : nat) : M World unit :=
  fallible;;
  modify (fun w => set_las_table (delete pos (las_table w)) w).

Definition memcmp_eq (a b : bytes) (n : nat) : bool :=
  bool_decide (take n a = take n b).

(** The test that ends a block-prefix scan (the same in both scans). *)
Definition prefix_mismatch (e : las_entry) (id : Z) (addr : bytes) : bool :=
  negb (las_id e =? id) ||
  negb (Nat.eqb (length (las_addr e)) (length addr)) ||
  negb (memcmp_eq (las_addr e) addr (length addr)).

(** [WT_ERR_NOTFOUND_OK]. *)
Definition WT_ERR_NOTFOUND_OK {St} (ret : Z) : M St unit :=
  if ret =? WT_NOTFOUND then mret tt
  else if ret =? 0 then mret tt else throw ret.

(** [WT_TRET(call)]: keep the first error, except that a panic wins. *)
Definition WT_TRET (ret : Z) (r : Z) : Z :=
  if negb (r =? 0) &&
     ((r =? WT_PANIC) || (ret =? 0) || (ret =? WT_DUPLICATE_KEY) || (ret =? WT_NOTFOUND))
  then r else ret.

(** ** [__wt_las_remove_block] *)

Section WithEnv.
Context {env : Env}.

(** [search_near] and the step forward when it lands before the key:
    returns the code and the records from the cursor's position on. *)
Definition las_position (id : Z) (addr : bytes) : M World (Z * nat) :=
  tbl ← gets las_table;
  let '(ret, exact, pos) := search_near tbl (id, addr, 0, 0, []) in
  if (ret =? 0) && (exact <? 0) then
    ret ← cursor_next (drop (S pos) tbl);
    mret (ret, S pos)
  else mret (ret, pos).

Fixpoint remove_block_scan (cur : list las_entry) (pos : nat)
  (btree_id : Z) (addr : bytes) : M World Z :=
  match cur with
  | [] => throw EINVAL
  | e :: rest =>
      cursor_get_key;;
      if prefix_mismatch e btree_id addr then mret 0
      else
        cursor_remove pos;;
        ret ← cursor_next rest;
        if ret =? 0 then remove_block_scan rest pos btree_id addr else mret ret
  end.

Definition __wt_las_remove_block (btree_id : Z) (addr : bytes) : M World unit :=
  fun w =>
    let '(r, w) :=
      (__wt_scr_alloc;;
       __wt_scr_alloc;;
       '(ret, pos) ← las_position btree_id addr;
       ret ← (if ret =? 0
              then tbl ← gets las_table; remove_block_scan (drop pos tbl) pos btree_id addr
              else mret ret);
       WT_ERR_NOTFOUND_OK ret) w in
    (* err: the scratch buffers go back to the session *)
    (of_ret (ret_of r), w).

(** ** The page under the reference *)

Definition page_attach (k : ukey) (chain : list WT_UPDATE) (p : WT_PAGE) : WT_PAGE :=
  mkPage (pg_handle p) (pg_type p) (pg_dsk p) (pg_updates p ++ [(k, chain)])
         (memory_footprint p) true.
Definition page_inmem_incr (n : Z) (p : WT_PAGE) : WT_PAGE :=
  mkPage (pg_handle p) (pg_type p) (pg_dsk p) (pg_updates p)
         (memory_footprint p + n) (pg_dirty p).
Definition page_modify_clear (p : WT_PAGE) : WT_PAGE :=
  mkPage (pg_handle p) (pg_type p) (pg_dsk p) (pg_updates p)
         (memory_footprint p) false.

Definition on_page (f : WT_PAGE -> WT_PAGE) : M World unit :=
  modify (fun w => set_ref (set_page (f <$> ref_page (ref w)) (ref w)) w).

(** [page->type]; a reference without a page has no legal type. *)
Definition get_page_type : M World page_type :=
  gets (fun w => from_option pg_type WT_PAGE_INVALID (ref_page (ref w))).

(** Modelled from the spec: [__wt_col_search], [__wt_col_modify],
    [__wt_row_search] and [__wt_row_modify] are not in the source tree;
    a flush goes "into the page by searching for the entry and attaching
    the chain head".  Either call may fail, and then nothing is attached. *)
Definition __col_instantiate (recno : Z) (upd : list WT_UPDATE) : M World unit :=
  fallible;;
  fallible;;
  on_page (page_attach (Recno recno) upd).

Definition __row_instantiate (key : bytes) (upd : list WT_UPDATE) : M World unit :=
  fallible;;
  fallible;;
  on_page (page_attach (RowKey key) upd).

(** ** [__las_page_instantiate] *)

(** The locals that outlive a jump to [err].  [first_upd] is the chain
    under construction, head first ([[]] is the NULL pointer); [last_upd]
    always points at its last record, so linking behind [last_upd] is an
    append.  [upd] is the record allocated and not yet linked. *)
Record las_locals : Type := mkLocals
  { cursor : bool;
    first_upd : list WT_UPDATE;
    upd : option WT_UPDATE;
    total_incr : Z;
    current_recno : Z;
    current_key : bytes }.

Definition set_cursor (b : bool) (l : las_locals) : las_locals :=
  mkLocals b (first_upd l) (upd l) (total_incr l) (current_recno l) (current_key l).
Definition set_first_upd (c : list WT_UPDATE) (l : las_locals) : las_locals :=
  mkLocals (cursor l) c (upd l) (total_incr l) (current_recno l) (current_key l).
Definition set_upd (u : option WT_UPDATE) (l : las_locals) : las_locals :=
  mkLocals (cursor l) (first_upd l) u (total_incr l) (current_recno l) (current_key l).
Definition set_total_incr (n : Z) (l : las_locals) : las_locals :=
  mkLocals (cursor l) (first_upd l) (upd l) n (current_recno l) (current_key l).
Definition set_current_recno (r : Z) (l : las_locals) : las_locals :=
  mkLocals (cursor l) (first_upd l) (upd l) (total_incr l) r (current_key l).
Definition set_current_key (k : bytes) (l : las_locals) : las_locals :=
  mkLocals (cursor l) (first_upd l) (upd l) (total_incr l) (current_recno l) k.

Definition las_locals_init : las_locals :=
  mkLocals false [] None 0 WT_RECNO_OOB [].

Definition MF : Type -> Type := M (Frame las_locals).

Definition __wt_las_cursor : MF unit :=
  liftW fallible;; modL (set_cursor true).

(** [__wt_las_cursor_close] returns at once when the cursor is NULL. *)
Definition __wt_las_cursor_close : MF Z :=
  c ← getL cursor;
  if (c : bool) then modL (set_cursor false);; liftW fallible_ret
  else mret 0.

(** Lines 173-180: allocate the update and stamp it. *)
Definition las_alloc_update (e : las_entry) : MF WT_UPDATE :=
  liftW cursor_get_value;;
  u ← liftW (__wt_update_alloc
               (if upd_size e =? WT_UPDATE_DELETED_VALUE then None
                else Some (las_value e)));
  modL (set_upd (Some u));;
  n ← getL total_incr;
  modL (set_total_incr (n + WT_UPDATE_MEMSIZE (upd_data u)));;
  let u := mkUpd (upd_handle u) (upd_txnid e) (upd_data u) in
  modL (set_upd (Some u));;
  mret u.

(** Lines 182-212: the [switch] on the page type. *)
Definition las_switch_key (e : las_entry) : MF unit :=
  t ← liftW get_page_type;
  match t with
  | WT_PAGE_COL_FIX | WT_PAGE_COL_VAR =>
      match __wt_vunpack_uint (las_key e) with
      | None => throw EINVAL
      | Some recno =>
          cur ← getL current_recno;
          if cur =? recno then mret tt
          else
            fu ← getL first_upd;
            (if bool_decide (fu = []) then mret tt
             else liftW (__col_instantiate cur fu);; modL (set_first_upd []));;
            modL (set_current_recno recno)
      end
  | WT_PAGE_ROW_LEAF =>
      ck ← getL current_key;
      if Nat.eqb (length ck) (length (las_key e)) &&
         memcmp_eq ck (las_key e) (length (las_key e))
      then mret tt
      else
        fu ← getL first_upd;
        (if bool_decide (fu = []) then mret tt
         else liftW (__row_instantiate ck fu);; modL (set_first_upd []));;
        liftW fallible;;
        modL (set_current_key (las_key e))
  | _ => throw WT_PANIC
  end.

(** Lines 214-221: append the latest update to the list. *)
Definition las_append (u : WT_UPDATE) : MF unit :=
  fu ← getL first_upd;
  modL (set_first_upd (fu ++ [u]));;
  modL (set_upd None).

(** Lines 153-222: the [for] loop, entered with the cursor on the head of
    [cur]; it yields the code the loop is left with. *)
Fixpoint las_instantiate_scan (cur : list las_entry) (read_id : Z) (addr : bytes)
  : MF Z :=
  match cur with
  | [] => throw EINVAL
  | e :: rest =>
      let next : MF Z :=
        ret ← liftW (cursor_next rest);
        if ret =? 0 then las_instantiate_scan rest read_id addr else mret ret in
      liftW cursor_get_key;;
      if prefix_mismatch e read_id addr then mret 0
      else if __wt_txn_visible_all (las_txnid e) then next
      else
        u ← las_alloc_update e;
        las_switch_key e;;
        las_append u;;
        next
  end.

(** Lines 225-240: insert the last set of updates, if any. *)
Definition las_flush_last : MF unit :=
  fu ← getL first_upd;
  if bool_decide (fu = []) then mret tt
  else
    t ← liftW get_page_type;
    match t with
    | WT_PAGE_COL_FIX | WT_PAGE_COL_VAR =>
        cur ← getL current_recno;
        liftW (__col_instantiate cur fu);;
        modL (set_first_upd [])
    | WT_PAGE_ROW_LEAF =>
        ck ← getL current_key;
        liftW (__row_instantiate ck fu);;
        modL (set_first_upd [])
    | _ => throw WT_PANIC
    end.

(** Lines 128-258: everything before the [err] label. *)
Definition las_instantiate_body (read_id : Z) (addr : bytes) : MF unit :=
  liftW __wt_scr_alloc;;
  liftW __wt_scr_alloc;;
  liftW __wt_scr_alloc;;
  liftW __wt_scr_alloc;;
  __wt_las_cursor;;
  '(ret, pos) ← liftW (las_position read_id addr);
  ret ← (if ret =? 0
         then tbl ← liftW (gets las_table);
              las_instantiate_scan (drop pos tbl) read_id addr
         else mret ret);
  WT_ERR_NOTFOUND_OK ret;;
  las_flush_last;;
  c ← __wt_las_cursor_close;
  (if c =? 0 then mret tt else throw c);;
  n ← getL total_incr;
  if n =? 0 then mret tt
  else
    liftW (on_page (page_inmem_incr n));;
    liftW (on_page page_modify_clear).

(** Lines 260-277: the [err] label, reached on every path. *)
Definition las_instantiate_cleanup (ret : Z) : MF Z :=
  c ← __wt_las_cursor_close;
  let ret := WT_TRET ret c in
  c ← liftW fallible_ret;
  let ret := WT_TRET ret c in
  u ← getL upd;
  (match u with Some u => liftW (__wt_free u) | None => mret tt end);;
  fu ← getL first_upd;
  (if bool_decide (fu = []) then mret tt else liftW (__wt_free_update_list fu));;
  mret ret.

Definition __las_page_instantiate (read_id : Z) (addr : bytes) : M World unit :=
  fun w =>
    let '(r, f) := las_instantiate_body read_id addr (mkFrame w las_locals_init) in
    let '(r', f') := las_instantiate_cleanup (ret_of r) f in
    (match r' with Ok ret => of_ret ret | Err c => Err c end, world f').

(** ** [__wt_cache_read] *)

Definition __wt_atomic_casv32 (old new : ref_state) : M World bool := fun w =>
  if bool_decide (state (ref w) = old)
  then (Ok true, set_ref (set_state new (ref w)) w)
  else (Ok false, w).

Definition WT_PUBLISH (st : ref_state) : M World unit :=
  modify (fun w => set_ref (set_state st (ref w)) w).

(** The item [tmp]: the image read and, when the block manager allocated
    it, the handle of the memory behind it. *)
Record WT_ITEM : Type := mkItem { data : option WT_PAGE_HEADER; mem : option nat }.

Definition MC : Type -> Type := M (Frame WT_ITEM).

Definition __wt_ref_info : M World (option bytes) :=
  fallible;; gets (fun w => ref_addr (ref w)).

(** Modelled from the spec: [__wt_btree_new_leaf_page] is not in the source
    tree; it "synthesize[s] an empty leaf page". *)
Definition __wt_btree_new_leaf_page : M World WT_PAGE :=
  fallible;;
  h ← heap_alloc;
  mret (mkPage h btree_leaf_type None [] 0 false).

(** Modelled from the spec: the block reader "yields either owned bytes or
    a mapped region".  It may fail before it has a buffer and after it has
    filled one. *)
Definition __wt_bt_read (addr : bytes) : MC unit :=
  liftW fallible;;
  (if block_mapped addr
   then modL (fun _ => mkItem (Some (block_image addr)) None)
   else
     h ← liftW heap_alloc;
     modL (fun _ => mkItem (Some (block_image addr)) (Some h)));;
  liftW fallible.

(** Modelled from the spec: [__wt_page_inmem] is not in the source tree.
    It builds the page around the image and hangs it on the reference;
    "on failure, the materializer owns the discard" of what it built, and
    the image stays with the caller. *)
Definition __wt_page_inmem : MC unit :=
  liftW fallible;;
  t ← getL id;
  h ← liftW heap_alloc;
  let p := mkPage h (from_option dsk_type WT_PAGE_INVALID (data t)) (mem t) [] 0 false in
  liftW (modify (fun w => set_ref (set_page (Some p) (ref w)) w)).

Definition __wt_delete_page_instantiate : M World unit := fallible.
Definition __wt_verbose : M World unit := fallible.

Definition page_handles (p : WT_PAGE) : list nat :=
  pg_handle p :: from_option (fun h => [h]) [] (pg_dsk p) ++
  map upd_handle (concat (map snd (pg_updates p))).

(** Modelled from the spec: [__wt_ref_out] is not in the source tree; it
    discards the page of the reference with all it owns, the disk image
    and the update chains ("freed when the page is discarded"). *)
Definition __wt_ref_out : M World unit := fun w =>
  match ref_page (ref w) with
  | None => (Ok tt, w)
  | Some p =>
      (Ok tt,
       set_ref (set_page None (ref w))
         (set_heap (live w ∖ list_to_set (page_handles p)) (next_handle w) w))
  end.

Definition __wt_buf_free : MC unit :=
  t ← getL id;
  (match mem t with Some h => liftW (heap_free h) | None => mret tt end);;
  modL (fun _ => mkItem None None).

Definition F_ISSET (flags mask : Z) : bool := negb (Z.land flags mask =? 0).

(** Lines 323-365: from the address lookup to the publication. *)
Definition cache_read_body (previous_state : ref_state) : MC unit :=
  addr ← liftW __wt_ref_info;
  match addr with
  | None =>
      page ← liftW __wt_btree_new_leaf_page;
      liftW (modify (fun w => set_ref (set_page (Some page) (ref w)) w))
  | Some addr =>
      __wt_bt_read addr;;
      __wt_page_inmem;;
      dsk ← getL data;
      modL (fun t => mkItem (data t) None);;
      (if bool_decide (previous_state = WT_REF_DELETED)
       then liftW __wt_delete_page_instantiate else mret tt);;
      if F_ISSET (from_option dsk_flags 0 dsk) WT_PAGE_LAS_UPDATE && __wt_las_is_written
      then
        id ← liftW (gets btree_id);
        liftW (__las_page_instantiate id addr)
      else mret tt
  end;;
  liftW __wt_verbose;;
  liftW (WT_PUBLISH WT_REF_MEM).

(** Lines 369-380: the [err] label. *)
Definition cache_read_err (previous_state : ref_state) : MC unit :=
  p ← liftW (gets (fun w => ref_page (ref w)));
  (if bool_decide (p = None) then mret tt else liftW __wt_ref_out);;
  liftW (WT_PUBLISH previous_state);;
  __wt_buf_free.

Definition __wt_cache_read : M World unit := fun w =>
  let tmp := mkItem None None in
  let '(won, w) :=
    match __wt_atomic_casv32 WT_REF_DISK WT_REF_READING w with
    | (Ok true, w) => (Some WT_REF_DISK, w)
    | (_, w) =>
        match __wt_atomic_casv32 WT_REF_DELETED WT_REF_LOCKED w with
        | (Ok true, w) => (Some WT_REF_DELETED, w)
        | (_, w) => (None, w)
        end
    end in
  match won with
  | None => (Ok tt, w)
  | Some previous_state =>
      match cache_read_body previous_state (mkFrame w tmp) with
      | (Ok _, f) => (Ok tt, world f)
      | (Err ret, f) =>
          let '(_, f) := cache_read_err previous_state f in
          (Err ret, world f)
      end
  end.

End WithEnv.

End BtRead.

(* ===================================================================== *)
(** * Part III: properties of replication recovery                        *)
(* ===================================================================== *)

Module ReplProofs.
Import Repl.

(** ** Well-formed oplogs *)

(** The record store hands out distinct, non-null record ids, and the
    oplog is ordered by [ts]. *)
Definition oplog_wf (log : list OplogEntry) : Prop :=
  Sorted Z.le (map e_ts log) ∧
  NoDup (map e_id log) ∧
  Forall (λ e, e_id e ≠ RecordId_null) log.

(** The entries applied by the batches of a trace, in order. *)
Definition applied_entries (tr : list Event) : list OplogEntry :=
  concat (omap (λ ev, match ev with EvApplyOplogBatch b => Some b | _ => None end) tr).

(** ** Sample states *)

Definition entry (n : Z) : OplogEntry := mkEntry n n 1.

Definition sample_state (at_ : OpTime) (trunc : Timestamp) (log : list OplogEntry)
  (stable : option Timestamp) : State :=
  mkState false at_ OpTime_null trunc (Some log) true stable false false [].

(** An applier that takes the whole buffer as one batch and succeeds. *)
Definition whole_buffer_applier : OplogApplier :=
  mkApplier (λ _, true) (λ b, length b) (λ _, true).

Lemma bind_unfold {A B} (m : M A) (k : A → M B) s :
  (m ≫= k) s =
  match m s with
  | Ret a s' => k a s'
  | Fatal f s' => Fatal f s'
  | Throw e s' => Throw e s'
  end.
Proof. reflexivity. Qed.

Lemma ret_unfold {A} (a : A) s : (mret a : M A) s = Ret a s.
Proof. reflexivity. Qed.

(** One step of symbolic execution of a monadic program. *)
Ltac run :=
  repeat first
    [ rewrite bind_unfold
    | rewrite ret_unfold
    | progress cbn [gets modify emit invariant fassertFailedNoTrace uassert
                    uasserted final_state negb andb orb] ].

(** ** The truncator *)

Lemma truncate_scan_none T s cursor count prev :
  Forall (λ e, T < e_ts e) cursor →
  truncate_scan T cursor count prev s = Fatal (Fassert 40296) s.
Proof.
  intros H. revert count prev.
  induction H as [|e l He _ IH]; intros count prev; simpl; [done|].
  destruct (Z.leb_spec (e_ts e) T); [lia|]. apply IH.
Qed.

Lemma last_cons_default {A} (a d : A) (l : list A) :
  List.last (a :: l) d = List.last l a.
Proof.
  revert a d. induction l as [|b l IH]; intros a d; [done|].
  change (List.last (a :: b :: l) d) with (List.last (b :: l) d).
  by rewrite (IH b d), (IH b a).
Qed.

Lemma truncate_scan_found T s c f rest count prev :
  Forall (λ e, T < e_ts e) c →
  e_ts f ≤ T →
  truncate_scan T (c ++ f :: rest) count prev s =
    if Nat.eqb (count + length c) 0 then Ret tt s
    else (invariant (negb (rid_isNull (List.last (map e_id c) prev)));;
          cappedTruncateAfter (List.last (map e_id c) prev) true) s.
Proof.
  intros Hc Hf. revert count prev.
  induction Hc as [|e l He _ IH]; intros count prev.
  - cbn [app truncate_scan length map List.last].
    destruct (Z.leb_spec (e_ts f) T); [|lia].
    rewrite Nat.add_0_r. by destruct count.
  - cbn [app truncate_scan].
    destruct (Z.leb_spec (e_ts e) T); [lia|].
    rewrite IH. cbn [length].
    replace (S count + length l)%nat with (S (count + length l)) by lia.
    replace (count + S (length l))%nat with (S (count + length l)) by lia.
    cbn [Nat.eqb map]. by rewrite last_cons_default.
Qed.

Lemma truncate_after_app kept p newer :
  e_id p ∉ map e_id kept →
  truncate_after (kept ++ p :: newer) (e_id p) true = kept.
Proof.
  induction kept as [|e kept IH]; intros Hnot; cbn [app truncate_after].
  - by rewrite Z.eqb_refl.
  - cbn [map] in Hnot. apply not_elem_of_cons in Hnot as [Hne Hnot].
    destruct (Z.eqb_spec (e_id e) (e_id p)); [congruence|].
    by rewrite IH.
Qed.

(** Splitting a log at its newest entry at or before [T]. *)
Lemma split_at_newest_le T (log : list OplogEntry) :
  (∃ e, e ∈ log ∧ e_ts e ≤ T) →
  ∃ older f newer,
    log = older ++ f :: newer ∧ e_ts f ≤ T ∧ Forall (λ e, T < e_ts e) newer.
Proof.
  induction log as [|a log IH]; intros (e & Hin & He).
  - by apply elem_of_nil in Hin.
  - destruct (decide (Exists (λ e', e_ts e' ≤ T) log)) as [Hex|Hno].
    + apply Exists_exists in Hex.
      destruct (IH Hex) as (older & f & newer & -> & Hf & Hn).
      by exists (a :: older), f, newer.
    + exists [], a, log. split; [done|].
      assert (Forall (λ e, T < e_ts e) log) as Hall.
      { apply Forall_forall. intros x Hx.
        destruct (Z.lt_ge_cases T (e_ts x)); [done|].
        exfalso. apply Hno, Exists_exists. exists x. split; [done|lia]. }
      split; [|done].
      apply elem_of_cons in Hin as [->|Hin]; [done|].
      exfalso. apply Hno, Exists_exists. by exists e.
Qed.

Lemma sorted_older_le (older newer : list OplogEntry) f x :
  Sorted Z.le (map e_ts (older ++ f :: newer)) →
  x ∈ older ++ [f] → e_ts x ≤ e_ts f.
Proof.
  intros Hs Hx.
  apply (Sorted_StronglySorted _) in Hs.
  rewrite map_app in Hs. cbn [map] in Hs.
  apply elem_of_app in Hx as [Hx|Hx].
  - apply StronglySorted_app_1_elem_of with (x1 := e_ts x) (x2 := e_ts f) in Hs;
      [done| |].
    + apply list_elem_of_fmap. by exists x.
    + apply elem_of_cons. by left.
  - apply list_elem_of_singleton in Hx as ->. lia.
Qed.

#[local] Instance oplog_wf_dec log : Decision (oplog_wf log).
Proof. unfold oplog_wf. apply _. Defined.

(** C3: on a well-formed log holding an entry at or before [T], the
    truncator returns.  The log splits into [kept ++ removed] with every
    entry of [kept] at or before [T] and every entry of [removed] after
    it; when the entry examined first (the newest) is at or before [T],
    [removed] is empty and the state is untouched; otherwise the one
    truncation made is inclusive of the oldest entry after [T] (the record
    examined before the hit) and leaves exactly [kept].  Every entry left
    is at or before the largest [ts <= T] of the log. *)
Theorem C3_truncateOplogTo_inclusive_of_previous T s log :
  oplog s = Some log →
  oplog_wf log →
  (∃ e, e ∈ log ∧ e_ts e ≤ T) →
  ∃ kept removed,
    log = kept ++ removed ∧
    Forall (λ e, e_ts e ≤ T) kept ∧
    Forall (λ e, T < e_ts e) removed ∧
    (∀ older top, log = older ++ [top] → e_ts top ≤ T → removed = []) ∧
    _truncateOplogTo T s =
      Ret tt (match removed with
              | [] => s
              | prev :: _ =>
                  add_event (EvCappedTruncateAfter (e_id prev) true)
                            (set_oplog (Some kept) s)
              end) ∧
    ∃ m, m ∈ log ∧ e_ts m ≤ T ∧
         (∀ x, x ∈ log → e_ts x ≤ T → e_ts x ≤ e_ts m) ∧
         (∀ e, e ∈ kept → e_ts e ≤ e_ts m).
Proof.
  intros Hlog (Hsorted & Hnodup & Hids) Hex.
  destruct (split_at_newest_le T log Hex) as (older & f & newer & -> & Hf & Hnewer).
  assert (∀ x, x ∈ older ++ [f] → e_ts x ≤ e_ts f) as Hle
    by (intros x; by apply sorted_older_le with (newer := newer)).
  exists (older ++ [f]), newer.
  split; [by rewrite <- app_assoc|].
  split; [apply Forall_forall; intros x Hx; specialize (Hle x Hx); lia|].
  split; [done|].
  split.
  { intros older' top Heq Htop. destruct newer as [|n newer _] using rev_ind; [done|].
    exfalso. rewrite app_comm_cons, app_assoc in Heq.
    apply app_inj_tail in Heq as [_ <-].
    rewrite Forall_forall in Hnewer.
    assert (T < e_ts n); [|lia].
    apply Hnewer, elem_of_app; right; by apply list_elem_of_singleton. }
  split.
  { unfold _truncateOplogTo. run. rewrite Hlog.
    rewrite rev_app_distr. cbn [rev]. rewrite <- app_assoc. cbn [app].
    rewrite truncate_scan_found; [|by apply Forall_rev|done].
    cbn [Nat.add]. rewrite length_rev.
    destruct newer as [|prev newer]; [done|].
    cbn [length Nat.eqb].
    assert (List.last (map e_id (rev (prev :: newer))) RecordId_null = e_id prev) as ->.
    { cbn [rev]. rewrite map_app. cbn [map]. apply last_last. }
    apply Forall_app in Hids as [_ Hids]. apply Forall_cons in Hids as [_ Hids].
    apply Forall_cons in Hids as [Hprev _].
    unfold rid_isNull. destruct (Z.eqb_spec (e_id prev) 0); [done|].
    unfold cappedTruncateAfter. run.
    rewrite Hlog. cbn [option_map].
    replace (older ++ f :: prev :: newer) with ((older ++ [f]) ++ prev :: newer)
      in * by (by rewrite <- app_assoc).
    rewrite truncate_after_app; [done|].
    rewrite map_app in Hnodup. apply NoDup_app in Hnodup as (_ & Hdisj & _).
    intros Hin. apply (Hdisj _ Hin). cbn [map]. apply elem_of_cons. by left. }
  exists f. split; [apply elem_of_app; right; apply elem_of_cons; by left|].
  split; [done|]. split; [|done].
  intros x Hx HxT. apply Hle.
  apply elem_of_app in Hx as [Hx|Hx]; [apply elem_of_app; by left|].
  apply elem_of_cons in Hx as [->|Hx]; [apply elem_of_app; right; by apply list_elem_of_singleton|].
  exfalso. eapply Forall_forall in Hnewer; [|done]. lia.
Qed.

Lemma C3_witness :
  ∃ kept removed,
    [entry 50; entry 60; entry 70; entry 80] = kept ++ removed ∧
    Forall (λ e, e_ts e ≤ 65) kept ∧
    Forall (λ e, 65 < e_ts e) removed ∧
    (∀ older top, [entry 50; entry 60; entry 70; entry 80] = older ++ [top] →
                  e_ts top ≤ 65 → removed = []) ∧
    _truncateOplogTo 65
      (sample_state OpTime_null 0 [entry 50; entry 60; entry 70; entry 80] None) =
      Ret tt (match removed with
              | [] => sample_state OpTime_null 0 [entry 50; entry 60; entry 70; entry 80] None
              | prev :: _ =>
                  add_event (EvCappedTruncateAfter (e_id prev) true)
                    (set_oplog (Some kept)
                       (sample_state OpTime_null 0
                          [entry 50; entry 60; entry 70; entry 80] None))
              end) ∧
    ∃ m, m ∈ [entry 50; entry 60; entry 70; entry 80] ∧ e_ts m ≤ 65 ∧
         (∀ x, x ∈ [entry 50; entry 60; entry 70; entry 80] → e_ts x ≤ 65 →
               e_ts x ≤ e_ts m) ∧
         (∀ e, e ∈ kept → e_ts e ≤ e_ts m).
Proof.
  apply (C3_truncateOplogTo_inclusive_of_previous 65
           (sample_state OpTime_null 0 [entry 50; entry 60; entry 70; entry 80] None)).
  - reflexivity.
  - apply (bool_decide_unpack _). vm_compute. reflexivity.
  - exists (entry 50). split; [apply elem_of_cons; by left|]. simpl. lia.
Defined.

(** C4 (as amended): when no entry of the log is at or before [T], the
    truncator removes nothing and does not complete: it ends the process
    at the fatal site 40296, the state as it found it. *)
Theorem C4_truncateOplogTo_no_bound_is_fatal T s log :
  oplog s = Some log →
  Forall (λ e, T < e_ts e) log →
  _truncateOplogTo T s = Fatal (Fassert 40296) s.
Proof.
  intros Hlog Hall. unfold _truncateOplogTo. run. rewrite Hlog.
  apply truncate_scan_none. by apply Forall_rev.
Qed.

Lemma C4_witness :
  _truncateOplogTo 5 (sample_state OpTime_null 0 [entry 10; entry 20] None) =
  Fatal (Fassert 40296) (sample_state OpTime_null 0 [entry 10; entry 20] None).
Proof.
  apply (C4_truncateOplogTo_no_bound_is_fatal 5 _ [entry 10; entry 20]).
  - reflexivity.
  - repeat constructor; simpl; lia.
Defined.

(** C4 as stated fails: with no entry at or before 5 in the log, the
    truncator does not complete. *)
Lemma C4_counterexample :
  Forall (λ e, 5 < e_ts e) [entry 10; entry 20] ∧
  ¬ ∃ s', _truncateOplogTo 5 (sample_state OpTime_null 0 [entry 10; entry 20] None)
          = Ret tt s' ∧ oplog s' = Some [entry 10; entry 20].
Proof.
  split; [repeat constructor; simpl; lia|].
  intros (s' & Hrun & _). vm_compute in Hrun. discriminate Hrun.
Qed.

(** ** The truncate-after point *)

(** C1 (as amended): with the truncate-after point set and a stable
    timestamp at hand, the log is truncated to the later of the two (the
    truncate-after point itself when the stable timestamp is earlier);
    then the point is cleared and the clear is flushed durably. *)
Theorem C1_truncates_at_later_of_point_and_stable stable s s1 :
  oplogTruncateAfterPoint s ≠ Timestamp_null →
  stable ≠ Timestamp_null →
  _truncateOplogTo (Z.max (oplogTruncateAfterPoint s) stable) s = Ret tt s1 →
  _truncateOplogIfNeededAndThenClearOplogTruncateAfterPoint (Some stable) s =
    Ret tt (add_event EvWaitUntilDurable
              (add_event (EvSetOplogTruncateAfterPoint Timestamp_null)
                 (set_oplogTruncateAfterPoint Timestamp_null s1))).
Proof.
  intros Hset Hstable Htrunc.
  unfold _truncateOplogIfNeededAndThenClearOplogTruncateAfterPoint,
    getOplogTruncateAfterPoint, ts_isNull.
  run.
  destruct (Z.eqb_spec (oplogTruncateAfterPoint s) 0) as [|_]; [done|].
  destruct (Z.eqb_spec stable 0) as [|_]; [done|]. cbn [negb andb].
  destruct (Z.leb_spec (oplogTruncateAfterPoint s) stable) as [Hle|Hlt].
  - rewrite Z.max_r in Htrunc by done.
    run.
    destruct (oplog s) as [log|] eqn:Hlog.
    + rewrite bool_decide_eq_true_2 by done. run.
      rewrite Htrunc. unfold setOplogTruncateAfterPoint, waitUntilDurable. by run.
    + exfalso. unfold _truncateOplogTo in Htrunc. revert Htrunc. run.
      by rewrite Hlog.
  - rewrite Z.max_l in Htrunc by lia.
    run. rewrite Htrunc.
    unfold setOplogTruncateAfterPoint, waitUntilDurable. by run.
Qed.

Lemma C1_witness :
  _truncateOplogIfNeededAndThenClearOplogTruncateAfterPoint (Some 60)
    (sample_state (mkOpTime 60 1) 80
       [entry 50; entry 60; entry 70; entry 80; entry 90] (Some 60)) =
  Ret tt
    (mkState false (mkOpTime 60 1) OpTime_null 0
       (Some [entry 50; entry 60; entry 70; entry 80]) true (Some 60) false false
       [EvCappedTruncateAfter 90 true; EvSetOplogTruncateAfterPoint 0;
        EvWaitUntilDurable]).
Proof.
  apply (C1_truncates_at_later_of_point_and_stable 60
           (sample_state (mkOpTime 60 1) 80
              [entry 50; entry 60; entry 70; entry 80; entry 90] (Some 60))
           (mkState false (mkOpTime 60 1) OpTime_null 80
              (Some [entry 50; entry 60; entry 70; entry 80]) true (Some 60)
              false false [EvCappedTruncateAfter 90 true])).
  - simpl. unfold Timestamp_null. lia.
  - unfold Timestamp_null. lia.
  - vm_compute. reflexivity.
Defined.

(** C1 as stated fails on the spec's own scenario: with the truncate-after
    point at 80 and the stable timestamp at 60, the entries 70 and 80
    survive, where a truncation to [min 80 60] would have removed them. *)
Lemma C1_counterexample :
  ∃ s_code s_min,
    _truncateOplogIfNeededAndThenClearOplogTruncateAfterPoint (Some 60)
      (sample_state (mkOpTime 60 1) 80
         [entry 50; entry 60; entry 70; entry 80; entry 90] (Some 60))
      = Ret tt s_code ∧
    _truncateOplogTo (Z.min 80 60)
      (sample_state (mkOpTime 60 1) 80
         [entry 50; entry 60; entry 70; entry 80; entry 90] (Some 60))
      = Ret tt s_min ∧
    oplog s_code = Some [entry 50; entry 60; entry 70; entry 80] ∧
    oplog s_min = Some [entry 50; entry 60] ∧
    oplog s_code ≠ oplog s_min.
Proof.
  eexists _, _.
  split; [vm_compute; reflexivity|].
  split; [vm_compute; reflexivity|].
  split; [reflexivity|]. split; [reflexivity|]. discriminate.
Qed.

(** ** Recovery from an unstable checkpoint *)

(** C2 (as amended): with a null [appliedThrough] the unstable-checkpoint
    path replays nothing and leaves the oldest timestamp alone, and then
    goes on: it sets the initial data timestamp to the top of the log,
    sets [appliedThrough] to the top of the log and forces the
    unjournaled-writes durability barrier, in that order. *)
Theorem C2_null_appliedThrough_skips_only_replay
  (applier : OplogApplier) (appliedThrough topOfOplog : OpTime) (s : State) :
  ot_isNull appliedThrough = true →
  ot_isNull topOfOplog = false →
  _recoverFromUnstableCheckpoint appliedThrough topOfOplog s =
    Ret tt
      (add_event EvWaitUntilUnjournaledWritesDurable
         (add_event (EvSetAppliedThrough topOfOplog)
            (set_appliedThrough topOfOplog
               (add_event (EvSetInitialDataTimestamp (getTimestamp topOfOplog)) s)))).
Proof.
  intros Hnull Htop. unfold _recoverFromUnstableCheckpoint.
  rewrite Hnull, Htop.
  unfold setInitialDataTimestamp, setAppliedThrough, waitUntilUnjournaledWritesDurable.
  by run.
Qed.

Lemma C2_witness :
  _recoverFromUnstableCheckpoint (applier := whole_buffer_applier)
    OpTime_null (mkOpTime 70 1)
    (sample_state OpTime_null 0 [entry 50; entry 70] None) =
  Ret tt
    (mkState false (mkOpTime 70 1) OpTime_null 0 (Some [entry 50; entry 70])
       true None false false
       [EvSetInitialDataTimestamp 70; EvSetAppliedThrough (mkOpTime 70 1);
        EvWaitUntilUnjournaledWritesDurable]).
Proof.
  apply (C2_null_appliedThrough_skips_only_replay whole_buffer_applier
           OpTime_null (mkOpTime 70 1)
           (sample_state OpTime_null 0 [entry 50; entry 70] None));
    reflexivity.
Defined.

(** C2 as stated fails: recovery without a stable timestamp, on a log
    whose top is at 70 and with a null [appliedThrough], does not return at
    once; the three later steps are all made. *)
Lemma C2_counterexample :
  ∃ s',
    recoverFromOplog (applier := whole_buffer_applier) None
      (sample_state OpTime_null 0 [entry 50; entry 70] None) = Ret tt s' ∧
    trace s' = [EvSetInitialDataTimestamp 70; EvSetAppliedThrough (mkOpTime 70 1);
                EvWaitUntilUnjournaledWritesDurable] ∧
    appliedThrough s' = mkOpTime 70 1 ∧
    trace s' ≠ trace (sample_state OpTime_null 0 [entry 50; entry 70] None).
Proof.
  eexists. split; [vm_compute; reflexivity|].
  split; [reflexivity|]. split; [reflexivity|]. discriminate.
Qed.

(** ** The recover-up-to entry point *)

(** C10: with the initial-sync flag set, [recoverFromOplogUpTo] throws
    [InitialSyncActive] before anything else; markers, log and trace are
    as they were. *)
Theorem C10_recoverFromOplogUpTo_initial_sync
  (applier : OplogApplier) (endPoint : Timestamp) (s : State) :
  initialSyncFlag s = true →
  recoverFromOplogUpTo endPoint s = Throw InitialSyncActive s.
Proof.
  intros Hflag. unfold recoverFromOplogUpTo, getInitialSyncFlag. run.
  by rewrite Hflag.
Qed.

Lemma C10_witness :
  recoverFromOplogUpTo (applier := whole_buffer_applier) 70
    (mkState true (mkOpTime 50 1) OpTime_null 60 (Some [entry 50; entry 70])
       true (Some 50) false false []) =
  Throw InitialSyncActive
    (mkState true (mkOpTime 50 1) OpTime_null 60 (Some [entry 50; entry 70])
       true (Some 50) false false []).
Proof.
  apply (C10_recoverFromOplogUpTo_initial_sync whole_buffer_applier 70).
  reflexivity.
Defined.

(** ** Replay *)

Lemma applied_entries_app tr1 tr2 :
  applied_entries (tr1 ++ tr2) = applied_entries tr1 ++ applied_entries tr2.
Proof. unfold applied_entries. by rewrite omap_app, concat_app. Qed.

Section ReplayProofs.
Context {applier : OplogApplier}.

(** The loop applies a prefix of the buffer, batch after batch, and hands
    back what it did not take. *)
Lemma apply_batches_prefix fuel buffer opt s :
  (length buffer ≤ fuel)%nat →
  ∃ n,
    applied_entries (trace (final_state (apply_batches fuel buffer opt s))) =
      applied_entries (trace s) ++ take n buffer ∧
    match apply_batches fuel buffer opt s with
    | Ret (_, buffer') _ => buffer' = drop n buffer
    | _ => True
    end.
Proof.
  revert buffer opt s.
  induction fuel as [|fuel IH]; intros buffer opt s Hfuel.
  - destruct buffer; [|simpl in Hfuel; lia].
    exists 0%nat. cbn [apply_batches]. unfold getNextApplierBatch.
    destruct (batch_ok []); run; rewrite ?take_nil, ?drop_nil; run;
      by rewrite ?app_nil_r.
  - cbn [apply_batches]. unfold getNextApplierBatch.
    destruct (batch_ok buffer); run;
      [|exists 0%nat; by rewrite take_0, app_nil_r].
    destruct (take (batch_size buffer) buffer) as [|b batch] eqn:Hbatch; run.
    { exists (batch_size buffer). by rewrite Hbatch, app_nil_r. }
    unfold applyOplogBatch.
    destruct (apply_ok (b :: batch)); run;
      [|exists 0%nat; by rewrite take_0, app_nil_r].
    set (s1 := add_event (EvApplyOplogBatch (b :: batch)) s).
    set (opt1 := getOpTime (List.last (b :: batch) (mkEntry 0 0 (-1)))).
    assert (length (drop (batch_size buffer) buffer) ≤ fuel)%nat as Hlen.
    { rewrite length_drop.
      assert (batch_size buffer ≠ 0)%nat by (intros E; by rewrite E, take_0 in Hbatch).
      destruct buffer; [by rewrite take_nil in Hbatch|]. simpl in Hfuel |- *. lia. }
    destruct (IH (drop (batch_size buffer) buffer) opt1 s1 Hlen) as (n & Happ & Hret).
    exists (batch_size buffer + n)%nat. split.
    + rewrite Happ. subst s1. cbn [add_event trace].
      rewrite applied_entries_app.
      change (applied_entries [EvApplyOplogBatch (b :: batch)]) with ((b :: batch) ++ []).
      rewrite app_nil_r, <- app_assoc. f_equal.
      by rewrite <- Hbatch, take_take_drop.
    + destruct (apply_batches fuel _ opt1 s1) as [[? ?] ?| |]; [|done..].
      by rewrite Hret, drop_drop.
Qed.


End ReplayProofs.

End ReplProofs.

(* ===================================================================== *)
(** * Part IV: properties of the page read path                           *)
(* ===================================================================== *)

Module BtReadProofs.
Import BtRead.

(** ** Weakest preconditions for the return-code monad *)

(** [wp m Q E s]: run from [s], [m] ends either with a value and a state
    in [Q] or with an error code and a state in [E]. *)
Definition wp {St A} (m : M St A) (Q : A → St → Prop) (E : Z → St → Prop)
  (s : St) : Prop :=
  match m s with
  | (Ok a, s') => Q a s'
  | (Err r, s') => E r s'
  end.

Lemma wp_bind {St A B} (m : M St A) (k : A → M St B) Q E s :
  wp m (λ a s', wp (k a) Q E s') E s → wp (m ≫= k) Q E s.
Proof.
  unfold wp, mbind, M_bind. by destruct (m s) as [[a|r] s'].
Qed.

Lemma wp_ret {St A} (a : A) (Q : A → St → Prop) E s :
  Q a s → wp (mret a) Q E s.
Proof. done. Qed.

Lemma wp_throw {St A} r (Q : A → St → Prop) (E : Z → St → Prop) s :
  E r s → wp (throw r) Q E s.
Proof. done. Qed.

Lemma wp_mono {St A} (m : M St A) (Q Q' : A → St → Prop) (E E' : Z → St → Prop) s :
  wp m Q E s →
  (∀ a s', Q a s' → Q' a s') →
  (∀ r s', E r s' → E' r s') →
  wp m Q' E' s.
Proof.
  unfold wp. destruct (m s) as [[a|r] s']; auto.
Qed.

Lemma wp_liftW {L A} (m : M World A) Q E (f : Frame L) :
  wp m (λ a w, Q a (mkFrame w (locals f))) (λ r w, E r (mkFrame w (locals f)))
     (world f) →
  wp (liftW m) Q E f.
Proof.
  unfold wp, liftW. by destruct (m (world f)) as [[a|r] w'].
Qed.

Lemma wp_getL {L A} (g : L → A) Q E (f : Frame L) :
  Q (g (locals f)) f → wp (getL g) Q E f.
Proof. done. Qed.

Lemma wp_modL {L} (g : L → L) Q E (f : Frame L) :
  Q tt (mkFrame (world f) (g (locals f))) → wp (modL g) Q E f.
Proof. done. Qed.

Lemma wp_gets {St A} (g : St → A) Q E (s : St) :
  Q (g s) s → wp (gets g) Q E s.
Proof. done. Qed.

Lemma wp_modify {St} (g : St → St) Q E (s : St) :
  Q tt (g s) → wp (modify g) Q E s.
Proof. done. Qed.

Definition pop_fault (w : World) : World := set_faults (tl (faults w)) w.

Lemma wp_fallible_ret Q E w :
  Q (hd 0 (faults w)) (pop_fault w) → wp fallible_ret Q E w.
Proof. done. Qed.

Lemma wp_fallible Q E w :
  (hd 0 (faults w) = 0 → Q tt (pop_fault w)) →
  (hd 0 (faults w) ≠ 0 → E (hd 0 (faults w)) (pop_fault w)) →
  wp fallible Q E w.
Proof.
  intros HQ HE. unfold fallible. apply wp_bind, wp_fallible_ret.
  destruct (Z.eqb_spec (hd 0 (faults w)) 0); [by apply wp_ret, HQ|].
  by apply wp_throw, HE.
Qed.

Lemma wp_heap_alloc Q E w :
  Q (next_handle w) (set_heap ({[next_handle w]} ∪ live w) (S (next_handle w)) w) →
  wp heap_alloc Q E w.
Proof. done. Qed.

(** ** Ownership of heap allocations *)

Definition upd_handles (c : list WT_UPDATE) : gset nat :=
  list_to_set (map upd_handle c).
Definition opt_upd_handles (u : option WT_UPDATE) : gset nat :=
  from_option (λ u, {[upd_handle u]}) ∅ u.
Definition page_owned (p : option WT_PAGE) : gset nat :=
  from_option (λ p, list_to_set (page_handles p)) ∅ p.

(** What the instantiation holds at a point of its run: the unlinked
    update, the chain under construction, and what the page owns. *)
Definition las_owned (f : Frame las_locals) : gset nat :=
  opt_upd_handles (upd (locals f)) ∪ upd_handles (first_upd (locals f)) ∪
  page_owned (ref_page (ref (world f))).

(** The live allocations are those of the start, [L0], and at most the
    owned ones, all of which were made since ([n0] on). *)
Definition heap_ok (L0 : gset nat) (n0 : nat) (O L : gset nat) (n : nat) : Prop :=
  L0 ⊆ L ∧ L ⊆ L0 ∪ O ∧
  (∀ h, h ∈ O → (n0 ≤ h < n)%nat) ∧
  (∀ h, h ∈ L0 → (h < n0)%nat) ∧
  (n0 ≤ n)%nat.

Lemma heap_ok_subseteq L0 n0 O O' L n :
  heap_ok L0 n0 O L n → O ⊆ O' → (∀ h, h ∈ O' → h ∈ O ∨ (n0 ≤ h < n)%nat) →
  heap_ok L0 n0 O' L n.
Proof.
  intros (H1 & H2 & H3 & H4 & H5) Hsub Hnew.
  split_and!; [done| |  |done|done].
  - intros h Hh. apply H2 in Hh. apply elem_of_union in Hh as [Hh|Hh];
      apply elem_of_union; auto.
  - intros h Hh. destruct (Hnew h Hh); auto.
Qed.

Lemma heap_ok_equiv L0 n0 O O' L n :
  heap_ok L0 n0 O L n → O ≡ O' → heap_ok L0 n0 O' L n.
Proof.
  intros H Heq. eapply heap_ok_subseteq; [done| |].
  - intros h Hh. by apply Heq.
  - intros h Hh. left. by apply Heq.
Qed.

Lemma heap_ok_alloc L0 n0 O L n :
  heap_ok L0 n0 O L n → heap_ok L0 n0 ({[n]} ∪ O) ({[n]} ∪ L) (S n).
Proof.
  intros (H1 & H2 & H3 & H4 & H5).
  split_and!; [| | |done|lia].
  - intros h Hh. apply elem_of_union. right. by apply H1.
  - intros h [Hh|Hh]%elem_of_union.
    + apply elem_of_union. right. apply elem_of_union. by left.
    + apply H2 in Hh. apply elem_of_union in Hh as [Hh|Hh].
      * apply elem_of_union. by left.
      * apply elem_of_union. right. apply elem_of_union. by right.
  - intros h [->%elem_of_singleton|Hh]%elem_of_union; [lia|].
    specialize (H3 h Hh). lia.
Qed.

Lemma heap_ok_free L0 n0 O O' L n F :
  heap_ok L0 n0 O L n → F ⊆ O → O' ⊆ O → O ⊆ F ∪ O' →
  heap_ok L0 n0 O' (L ∖ F) n.
Proof.
  intros (H1 & H2 & H3 & H4 & H5) HF HO' HO.
  split_and!; [| | |done|done].
  - intros h Hh. apply elem_of_difference. split; [by apply H1|].
    intros HhF. specialize (H3 h (HF h HhF)). specialize (H4 h Hh). lia.
  - intros h [Hh Hn]%elem_of_difference.
    apply H2 in Hh. apply elem_of_union in Hh as [Hh|Hh].
    + apply elem_of_union. by left.
    + apply HO in Hh. apply elem_of_union in Hh as [Hh|Hh]; [done|].
      apply elem_of_union. by right.
  - intros h Hh. apply H3. by apply HO'.
Qed.

(** One step of a weakest-precondition computation. *)
Ltac wp_step :=
  cbv beta iota; cbn [world locals];
  lazymatch goal with
  | |- wp (mbind _ _) _ _ _ => apply wp_bind
  | |- wp (mret _) _ _ _ => apply wp_ret
  | |- wp (throw _) _ _ _ => apply wp_throw
  | |- wp (liftW _) _ _ _ => apply wp_liftW
  | |- wp (getL _) _ _ _ => apply wp_getL
  | |- wp (modL _) _ _ _ => apply wp_modL
  | |- wp (gets _) _ _ _ => apply wp_gets
  | |- wp (modify _) _ _ _ => apply wp_modify
  | |- wp fallible _ _ _ => apply wp_fallible; intros ?
  | |- wp fallible_ret _ _ _ => apply wp_fallible_ret
  | |- wp heap_alloc _ _ _ => apply wp_heap_alloc
  | |- wp cursor_get_key _ _ _ => unfold cursor_get_key
  | |- wp cursor_get_value _ _ _ => unfold cursor_get_value
  | |- wp __wt_scr_alloc _ _ _ => unfold __wt_scr_alloc
  | |- wp (__wt_update_alloc _) _ _ _ => unfold __wt_update_alloc
  | |- wp (cursor_next _) _ _ _ => unfold cursor_next
  | |- wp (on_page _) _ _ _ => unfold on_page
  | |- wp get_page_type _ _ _ => unfold get_page_type
  | |- wp (__col_instantiate _ _) _ _ _ => unfold __col_instantiate
  | |- wp (__row_instantiate _ _) _ _ _ => unfold __row_instantiate
  | |- wp (heap_free _) _ _ _ => unfold heap_free
  | |- wp (__wt_free _) _ _ _ => unfold __wt_free
  | |- wp (WT_ERR_NOTFOUND_OK _) _ _ _ => unfold WT_ERR_NOTFOUND_OK
  | |- wp (if ?b then _ else _) _ _ _ => destruct b eqn:?
  | |- wp (match ?x with _ => _ end) _ _ _ => destruct x eqn:?
  end.

Section HeapInvariant.
Context {env : Env}.
Variables (L0 : gset nat) (n0 : nat).

Definition las_inv_at (u : option WT_UPDATE) (fu : list WT_UPDATE)
  (p : option WT_PAGE) (L : gset nat) (n : nat) : Prop :=
  is_Some p ∧
  heap_ok L0 n0 (opt_upd_handles u ∪ upd_handles fu ∪ page_owned p) L n.

Definition las_inv (f : Frame las_locals) : Prop :=
  las_inv_at (upd (locals f)) (first_upd (locals f)) (ref_page (ref (world f)))
             (live (world f)) (next_handle (world f)).

Lemma page_owned_attach k c (p : option WT_PAGE) :
  page_owned (page_attach k c <$> p) ≡ page_owned p ∪
    (if p is Some _ then upd_handles c else ∅).
Proof.
  destruct p as [p|]; cbn; [|set_solver].
  unfold page_handles, upd_handles. cbn [page_attach pg_handle pg_dsk pg_updates].
  rewrite map_app, concat_app, map_app. cbn [map snd concat].
  rewrite app_nil_r. set_solver.
Qed.

Lemma las_inv_attach_clear k u fu p L n :
  las_inv_at u fu p L n → las_inv_at u [] (page_attach k fu <$> p) L n.
Proof.
  intros [[p' ->] H]. split; [by eexists|].
  eapply heap_ok_equiv; [done|].
  rewrite page_owned_attach. unfold upd_handles. set_solver.
Qed.

Lemma las_inv_alloc fu p L n t v :
  las_inv_at None fu p L n →
  las_inv_at (Some (mkUpd n t v)) fu p ({[n]} ∪ L) (S n).
Proof.
  intros [Hp H]. split; [done|].
  apply heap_ok_alloc in H. eapply heap_ok_equiv; [done|].
  cbn. set_solver.
Qed.

Lemma las_inv_append u fu p L n :
  las_inv_at (Some u) fu p L n → las_inv_at None (fu ++ [u]) p L n.
Proof.
  intros [Hp H]. split; [done|].
  eapply heap_ok_equiv; [done|].
  unfold upd_handles. rewrite map_app, list_to_set_app. cbn. set_solver.
Qed.

Lemma las_inv_page_same (g : WT_PAGE → WT_PAGE) u fu p L n :
  (∀ q, page_handles (g q) = page_handles q) →
  las_inv_at u fu p L n → las_inv_at u fu (g <$> p) L n.
Proof.
  intros Hg [[p' ->] H]. split; [by eexists|].
  cbn [fmap option_fmap option_map page_owned from_option] in *. by rewrite Hg.
Qed.

Lemma las_alloc_update_heap e f :
  las_inv f → upd (locals f) = None →
  wp (las_alloc_update e)
     (λ u f', las_inv f' ∧ upd (locals f') = Some u)
     (λ _ f', las_inv f') f.
Proof.
  intros H Hupd. unfold las_alloc_update.
  repeat wp_step.
  all: unfold las_inv in *; cbn in *; try done.
  split; [|done]. rewrite Hupd in H. by apply las_inv_alloc.
Qed.

Lemma las_switch_key_heap e f :
  las_inv f →
  wp (las_switch_key e)
     (λ _ f', las_inv f' ∧ upd (locals f') = upd (locals f))
     (λ _ f', las_inv f') f.
Proof.
  intros H. unfold las_switch_key.
  repeat wp_step.
  all: unfold las_inv in *; cbn in *; try done.
  all: try (split; [|done]); by apply las_inv_attach_clear.
Qed.

Lemma las_append_heap u f :
  las_inv f → upd (locals f) = Some u →
  wp (las_append u) (λ _ f', las_inv f' ∧ upd (locals f') = None)
     (λ _ f', las_inv f') f.
Proof.
  intros H Hupd. unfold las_append.
  repeat wp_step.
  unfold las_inv in *; cbn in *. split; [|done].
  rewrite Hupd in H. by apply las_inv_append.
Qed.

Lemma las_scan_heap read_id addr cur f :
  las_inv f → upd (locals f) = None →
  wp (las_instantiate_scan cur read_id addr)
     (λ _ f', las_inv f' ∧ upd (locals f') = None)
     (λ _ f', las_inv f') f.
Proof.
  revert f. induction cur as [|e rest IH]; intros f H Hupd;
    cbn [las_instantiate_scan]; cbv zeta.
  - by apply wp_throw.
  - assert (∀ f1, las_inv f1 → upd (locals f1) = None →
              wp (ret ← liftW (cursor_next rest);
                  if ret =? 0 then las_instantiate_scan rest read_id addr
                  else mret ret)
                 (λ _ f', las_inv f' ∧ upd (locals f') = None)
                 (λ _ f', las_inv f') f1) as Hnext.
    { intros f1 H1 Hupd1. repeat wp_step; try by apply IH. all: done. }
    do 4 wp_step; [|done].
    wp_step; [by wp_step|].
    wp_step; [by apply Hnext|].
    wp_step.
    eapply wp_mono; [by apply las_alloc_update_heap| |done].
    intros u f1 [H1 Hu1]. cbv beta.
    wp_step.
    eapply wp_mono; [by apply las_switch_key_heap| |done].
    intros _ f2 [H2 Hu2]. cbv beta.
    wp_step.
    eapply wp_mono; [apply las_append_heap; [done|congruence]| |done].
    intros _ f3 [H3 Hu3]. by apply Hnext.
Qed.

Lemma las_instantiate_body_heap read_id addr f :
  las_inv f → upd (locals f) = None →
  wp (las_instantiate_body read_id addr) (λ _ f', las_inv f') (λ _ f', las_inv f') f.
Proof.
  intros H Hupd.
  unfold las_instantiate_body, __wt_las_cursor, las_position, las_flush_last,
    __wt_las_cursor_close.
  repeat wp_step.
  all: try (eapply wp_mono;
            [by apply las_scan_heap
            |intros ? ? [? ?]; repeat wp_step
            |by intros]).
  all: unfold las_inv in *; cbn in *; try done.
  all: repeat (apply las_inv_page_same; [done|]); try done.
  all: by apply las_inv_attach_clear.
Qed.

Lemma wp_free_update_list c Q E w :
  (∀ w', live w' = live w ∖ upd_handles c → next_handle w' = next_handle w →
         ref w' = ref w → Q tt w') →
  wp (__wt_free_update_list c) Q E w.
Proof.
  revert w Q. induction c as [|u c IH]; intros w Q HQ; cbn [__wt_free_update_list].
  - apply wp_ret, HQ; [|done..]. unfold upd_handles. cbn. set_solver.
  - repeat wp_step. apply IH. intros w' Hl Hn Hr. apply HQ.
    + rewrite Hl. unfold upd_handles. cbn. set_solver.
    + by rewrite Hn.
    + by rewrite Hr.
Qed.

Lemma las_inv_free_upd u fu p L n :
  las_inv_at (Some u) fu p L n → las_inv_at None fu p (L ∖ {[upd_handle u]}) n.
Proof.
  intros [Hp H]. split; [done|].
  eapply heap_ok_free; [done|..]; cbn; set_solver.
Qed.

Lemma las_inv_free_list fu p L L' n :
  las_inv_at None fu p L n → L' = L ∖ upd_handles fu →
  las_inv_at None [] p L' n.
Proof.
  intros [Hp H] ->. split; [done|].
  eapply heap_ok_free; [done|..]; unfold upd_handles; cbn; set_solver.
Qed.

(** What is left once the instantiation has returned: the page alone owns
    what was allocated. *)
Definition page_inv (w : World) : Prop :=
  las_inv_at None [] (ref_page (ref w)) (live w) (next_handle w).

Lemma las_instantiate_cleanup_heap ret f :
  las_inv f →
  wp (las_instantiate_cleanup ret) (λ _ f', page_inv (world f')) (λ _ _, False) f.
Proof.
  intros H. unfold las_instantiate_cleanup, __wt_las_cursor_close.
  repeat wp_step.
  all: try (apply wp_free_update_list; intros w' Hl Hn Hr; repeat wp_step).
  all: unfold page_inv, las_inv in *; cbn in *.
  all: repeat match goal with
         | Hx : upd _ = _ |- _ => rewrite Hx in H
         | Hx : bool_decide _ = true |- _ => apply bool_decide_eq_true_1 in Hx; rewrite Hx in H
         | Hx : ref _ = _ |- _ => rewrite Hx
         | Hx : next_handle _ = _ |- _ => rewrite Hx
         end.
  all: first
         [ done
         | by apply las_inv_free_upd
         | by eapply las_inv_free_list; [apply las_inv_free_upd|]
         | by eapply las_inv_free_list ].
Qed.

Lemma las_page_instantiate_heap read_id addr w :
  page_inv w →
  wp (__las_page_instantiate read_id addr) (λ _ w', page_inv w') (λ _ w', page_inv w') w.
Proof.
  intros H. unfold wp at 1, __las_page_instantiate.
  pose proof (las_instantiate_body_heap read_id addr (mkFrame w las_locals_init) H eq_refl)
    as Hbody.
  unfold wp in Hbody.
  destruct (las_instantiate_body read_id addr (mkFrame w las_locals_init)) as [r f].
  assert (las_inv f) as Hf by (by destruct r).
  pose proof (las_instantiate_cleanup_heap (ret_of r) f Hf) as Hclean.
  unfold wp in Hclean.
  destruct (las_instantiate_cleanup (ret_of r) f) as [[ret|?] f']; [|done].
  unfold of_ret. by destruct (ret =? 0).
Qed.

(** The same for the page read: the page of the reference and the item
    [tmp] own what the read has allocated. *)
Definition cr_inv_at (p : option WT_PAGE) (m : option nat) (L : gset nat) (n : nat)
  : Prop :=
  heap_ok L0 n0 (page_owned p ∪ from_option (λ h, {[h]}) ∅ m) L n.

Definition cr_inv (f : Frame WT_ITEM) : Prop :=
  cr_inv_at (ref_page (ref (world f))) (mem (locals f))
            (live (world f)) (next_handle (world f)).

Ltac heap_leaf H :=
  first
    [ done
    | eapply heap_ok_equiv;
      [ repeat apply heap_ok_alloc; apply H
      | unfold upd_handles, page_handles; cbn; set_solver ] ].

Lemma cache_read_body_heap previous_state w :
  ref_page (ref w) = None →
  cr_inv_at None None (live w) (next_handle w) →
  wp (cache_read_body previous_state) (λ _ _, True) (λ _ f', cr_inv f')
     (mkFrame w (mkItem None None)).
Proof.
  intros Hp H.
  unfold cache_read_body, __wt_ref_info, __wt_btree_new_leaf_page, __wt_bt_read,
    __wt_page_inmem, __wt_delete_page_instantiate, __wt_verbose, WT_PUBLISH.
  repeat wp_step.
  all: try done.
  all: unfold cr_inv, cr_inv_at in *; cbn in *; rewrite ?Hp.
  all: try (eapply wp_mono;
            [ apply las_page_instantiate_heap; split; [by eexists|]; cbn
            | intros _ w0 [_ Hw0]; repeat wp_step; try done; cbn
            | intros _ w0 [_ Hw0]; cbn ]).
  all: try heap_leaf H.
  all: heap_leaf Hw0.
Qed.

Lemma heap_ok_all_freed O O1 O2 L n :
  heap_ok L0 n0 O L n → O ≡ O1 ∪ O2 → L ∖ O1 ∖ O2 = L0.
Proof.
  intros H Heq.
  assert (heap_ok L0 n0 ∅ (L ∖ O1 ∖ O2) n) as (H1 & H2 & _).
  { eapply heap_ok_free with (O := O2 ∪ ∅); [|set_solver..].
    eapply heap_ok_free with (O := O); [done|set_solver..]. }
  apply set_eq. intros h. split; [|by apply H1].
  intros Hh. apply H2 in Hh. set_solver.
Qed.

Lemma wp_ref_out Q E w :
  Q tt (set_ref (set_page None (ref w))
          (set_heap (live w ∖ page_owned (ref_page (ref w))) (next_handle w) w)) →
  wp __wt_ref_out Q E w.
Proof.
  unfold wp, __wt_ref_out. destruct w as [fl lv nh tb bid [st ad [p|]]]; cbn; [done|].
  unfold set_ref, set_heap, set_page. cbn.
  by rewrite difference_empty_L.
Qed.

Lemma cache_read_err_heap previous_state f :
  cr_inv f →
  wp (cache_read_err previous_state)
     (λ _ f', state (ref (world f')) = previous_state ∧
              ref_addr (ref (world f')) = ref_addr (ref (world f)) ∧
              ref_page (ref (world f')) = None ∧
              live (world f') = L0)
     (λ _ _, False) f.
Proof.
  intros H. unfold cache_read_err, __wt_buf_free, WT_PUBLISH.
  repeat wp_step.
  all: try (apply wp_ref_out; repeat wp_step).
  all: unfold cr_inv, cr_inv_at in H; cbn in *.
  all: repeat match goal with
         | Hx : bool_decide _ = true |- _ => apply bool_decide_eq_true_1 in Hx
         | Hx : bool_decide _ = false |- _ => clear Hx
         | Hx : ref_page _ = _ |- _ => rewrite Hx in H
         | Hx : mem _ = _ |- _ => rewrite Hx in H
         end.
  all: cbn in H; split_and!; try done.
  - by eapply heap_ok_all_freed with (O1 := ∅) (O2 := {[_]}) in H;
      [rewrite difference_empty_L in H|set_solver].
  - by eapply heap_ok_all_freed with (O1 := ∅) (O2 := ∅) in H;
      [rewrite !difference_empty_L in H|set_solver].
  - by eapply heap_ok_all_freed in H.
  - by eapply heap_ok_all_freed with (O2 := ∅) in H;
      [rewrite difference_empty_L in H|set_solver].
Qed.

End HeapInvariant.

(** ** Sample environment *)

Definition sample_env : Env :=
  mkEnv (λ t, t <? 11)
        (λ tbl _, match tbl with [] => (WT_NOTFOUND, 0, 0%nat) | _ => (0, 1, 0%nat) end)
        (λ k, match k with [b] => Some (Z.of_N (Byte.to_N b)) | _ => None end)
        (λ v, 10 + from_option (λ b, Z.of_nat (length b)) 0 v)
        true
        (λ _, mkHeader WT_PAGE_ROW_LEAF WT_PAGE_LAS_UPDATE)
        (λ _, false)
        WT_PAGE_ROW_LEAF.

Definition sample_addr : bytes := [Byte.x01; Byte.x02].
Definition sample_K1 : bytes := [Byte.x0a].
Definition sample_K2 : bytes := [Byte.x0b].

(** Two keys spilled for the block [(7, sample_addr)]: three updates of K1
    (the one under transaction 10 is globally visible), one of K2; then a
    record of another tree. *)
Definition sample_table : list las_entry :=
  [ mkLas 7 sample_addr 10 1 sample_K1 20 1 [Byte.x01];
    mkLas 7 sample_addr 12 2 sample_K1 22 1 [Byte.x02];
    mkLas 7 sample_addr 14 3 sample_K1 24 WT_UPDATE_DELETED_VALUE [];
    mkLas 7 sample_addr 15 4 sample_K2 23 1 [Byte.x03];
    mkLas 8 sample_addr 13 5 sample_K2 23 1 [Byte.x03] ].

Definition sample_world (fl : list Z) : World :=
  mkWorld fl ∅ 0 sample_table 7 (mkRef WT_REF_DISK (Some sample_addr) None).

(** ** Rollback of a failed page read *)

(** C6: a page read that returns an error won the race (the state at
    entry was DISK or DELETED), leaves the reference in its state at
    entry, with no page on it, and the heap as it found it: the page, the
    disk image, the update allocated and not yet linked and the chain
    under construction have all been freed. *)
Theorem C6_cache_read_error_rolls_back (env : Env) (w w' : World) (ret : Z) :
  (∀ h, h ∈ live w → (h < next_handle w)%nat) →
  ref_page (ref w) = None →
  __wt_cache_read w = (Err ret, w') →
  (state (ref w) = WT_REF_DISK ∨ state (ref w) = WT_REF_DELETED) ∧
  state (ref w') = state (ref w) ∧
  ref_page (ref w') = None ∧
  live w' = live w.
Proof.
  intros Hfresh Hpage Hrun.
  assert (∀ prev w1,
            state (ref w) = prev →
            ref_page (ref w1) = None →
            live w1 = live w → next_handle w1 = next_handle w →
            match cache_read_body prev (mkFrame w1 (mkItem None None)) with
            | (Ok _, f) => (Ok tt, world f)
            | (Err ret, f) =>
                let '(_, f) := cache_read_err prev f in (Err ret, world f)
            end = (Err ret, w') →
            state (ref w') = state (ref w) ∧
            ref_page (ref w') = None ∧ live w' = live w) as Hmain.
  { intros prev w1 Hprev Hp1 Hl1 Hn1 Hres.
    pose proof (cache_read_body_heap (live w) (next_handle w) prev w1 Hp1) as Hbody.
    unfold wp in Hbody.
    destruct (cache_read_body prev (mkFrame w1 (mkItem None None))) as [[?|r] f];
      [done|].
    assert (cr_inv (live w) (next_handle w) f) as Hf.
    { apply Hbody. unfold cr_inv_at. rewrite Hl1, Hn1. cbn.
      split_and!; [done|set_solver|set_solver| |done].
      intros h Hh. by apply Hfresh. }
    pose proof (cache_read_err_heap (live w) (next_handle w) prev f Hf) as Herr.
    unfold wp in Herr.
    destruct (cache_read_err prev f) as [[[]|?] f']; [|done].
    destruct Herr as (Hs & _ & Hp & Hl).
    injection Hres as _ <-. by rewrite Hs, Hp, Hl, Hprev. }
  unfold __wt_cache_read, __wt_atomic_casv32 in Hrun.
  case_bool_decide as Hdisk.
  - split; [by left|]. eapply Hmain; [done|..|exact Hrun]; done.
  - case_bool_decide as Hdel; [|done].
    split; [by right|]. eapply Hmain; [done|..|exact Hrun]; done.
Qed.

(** A run that fails in the flush of the first chain, when a second
    update has been allocated and not yet linked. *)
Definition sample_faults : list Z := replicate 23 0 ++ [5].
Definition sample_world_after_failure : World :=
  mkWorld [] ∅ 5 sample_table 7 (mkRef WT_REF_DISK (Some sample_addr) None).

Lemma C6_witness :
  (state (ref (sample_world sample_faults)) = WT_REF_DISK ∨
   state (ref (sample_world sample_faults)) = WT_REF_DELETED) ∧
  state (ref sample_world_after_failure) = state (ref (sample_world sample_faults)) ∧
  ref_page (ref sample_world_after_failure) = None ∧
  live sample_world_after_failure = live (sample_world sample_faults).
Proof.
  apply (C6_cache_read_error_rolls_back sample_env
           (sample_world sample_faults) sample_world_after_failure 5).
  - intros h Hh. cbn in Hh. by apply not_elem_of_empty in Hh.
  - reflexivity.
  - vm_compute. reflexivity.
Defined.



(** ** The block prefix *)

Definition prefix_match (id : Z) (addr : bytes) (e : las_entry) : Prop :=
  las_id e = id ∧ las_addr e = addr.

Lemma prefix_mismatch_false e id addr :
  prefix_mismatch e id addr = false ↔ prefix_match id addr e.
Proof.
  unfold prefix_mismatch, prefix_match, memcmp_eq.
  rewrite !orb_false_iff, !negb_false_iff, Z.eqb_eq, Nat.eqb_eq,
    bool_decide_eq_true.
  split.
  - intros [[Hid Hlen] Hcmp]. split; [done|].
    rewrite <- Hlen in Hcmp at 1. by rewrite !firstn_all in Hcmp.
  - intros [Hid ->]. done.
Qed.

(** ** Grouping by user key, as the specification words it *)

(** "Group consecutive entries sharing the same user key into one chain":
    the maximal runs of equal keys, each with its values in order. *)
Fixpoint group_consecutive {K V} `{EqDecision K} (l : list (K * V))
  : list (K * list V) :=
  match l with
  | [] => []
  | (k, v) :: l' =>
      match group_consecutive l' with
      | (k', vs) :: gs =>
          if decide (k = k') then (k, v :: vs) :: gs
          else (k, [v]) :: (k', vs) :: gs
      | [] => [(k, [v])]
      end
  end.

(** What the loop of the source does with one keyed update: [(U, k, P)] is
    the list of chains flushed so far, the current key and the chain
    under construction. *)
Definition absorb {K V} `{EqDecision K}
  (cs : list (K * list V) * K * list V) (it : K * V) : list (K * list V) * K * list V :=
  let '(U, k, P) := cs in
  if decide (it.1 = k) then (U, k, P ++ [it.2])
  else ((if P is [] then U else U ++ [(k, P)]), it.1, [it.2]).

Definition flush_last {K V} (cs : list (K * list V) * K * list V)
  : list (K * list V) :=
  let '(U, k, P) := cs in if P is [] then U else U ++ [(k, P)].

Section Grouping.
Context {K V : Type} `{EqDecision K}.
Implicit Types (l : list (K * V)) (k : K) (P : list V).

Lemma group_consecutive_head_key l k v :
  ∃ vs gs, group_consecutive ((k, v) :: l) = (k, v :: vs) :: gs.
Proof.
  cbn [group_consecutive].
  destruct (group_consecutive l) as [|[k' vs] gs]; [by eexists _, _|].
  destruct (decide (k = k')); by eexists _, _.
Qed.

(** A non-empty run of one key in front of a list that starts with
    another key is a group of its own. *)
Lemma group_consecutive_run k P v l :
  match l with [] => True | (k', _) :: _ => k ≠ k' end →
  group_consecutive (map (pair k) (P ++ [v]) ++ l) =
    (k, P ++ [v]) :: group_consecutive l.
Proof.
  intros Hl. induction P as [|v0 P IH]; cbn [app map].
  - cbn [group_consecutive].
    destruct l as [|[k' v'] l]; [done|].
    destruct (group_consecutive_head_key l k' v') as (vs & gs & ->).
    by rewrite decide_False.
  - cbn [group_consecutive]. cbn [app map] in IH. rewrite IH.
    by rewrite decide_True.
Qed.

Lemma absorb_group l U k P :
  flush_last (fold_left absorb l (U, k, P)) =
    U ++ group_consecutive (map (pair k) P ++ l).
Proof.
  revert U k P. induction l as [|[k' v] l IH]; intros U k P.
  - cbn [fold_left flush_last]. rewrite app_nil_r.
    destruct P as [|v0 P _] using rev_ind; [by rewrite app_nil_r|].
    rewrite <- (app_nil_r (map _ _)), group_consecutive_run by done.
    by destruct (P ++ [v0]) eqn:E; [destruct P; discriminate|].
  - cbn [fold_left absorb fst snd].
    destruct (decide (k' = k)) as [->|Hne]; rewrite IH.
    + by rewrite map_app, <- app_assoc.
    + destruct P as [|v0 P _] using rev_ind.
      * by cbn [map app].
      * rewrite group_consecutive_run by (cbn; congruence).
        destruct (P ++ [v0]) eqn:E; [destruct P; discriminate|].
        by rewrite <- app_assoc.
Qed.

(** The chains of a grouping, put end to end, are the values grouped. *)
Lemma group_consecutive_concat l :
  concat (map snd (group_consecutive l)) = map snd l.
Proof.
  induction l as [|[k v] l IH]; [done|].
  cbn [group_consecutive map snd]. rewrite <- IH.
  destruct (group_consecutive l) as [|[k' vs] gs]; [done|].
  by destruct (decide (k = k')).
Qed.

End Grouping.

(** ** The block-prefix scan of [__wt_las_remove_block] *)

Section RemoveBlock.
Context {env : Env}.
Variables (id : Z) (addr : bytes).

(** Where a scan starts: the position [search_near] lands on, one further
    when it landed before the key. *)
Definition scan_start (tbl : list las_entry) : nat :=
  let '(ret, exact, pos) := search_near tbl (id, addr, 0, 0, []) in
  if (ret =? 0) && (exact <? 0) then S pos else pos.

Definition scan_ret (tbl : list las_entry) : Z :=
  (search_near tbl (id, addr, 0, 0, [])).1.1.

(** The scan took [removed] off the table, from position [pos] on, and
    never looked past [removed] and the record after it. *)
Definition removed_run (w : World) (cur : list las_entry) (pos : nat) (w' : World)
  : Prop :=
  ∃ removed after,
    cur = removed ++ after ∧
    Forall (prefix_match id addr) removed ∧
    las_table w' = take pos (las_table w) ++ after ∧
    (faults w = [] →
     faults w' = [] ∧
     (after = [] ∨ ∃ e r, after = e :: r ∧ prefix_mismatch e id addr = true)).

Lemma removed_run_nothing w cur pos w' :
  drop pos (las_table w) = cur →
  las_table w' = las_table w →
  (faults w = [] →
   faults w' = [] ∧
   (cur = [] ∨ ∃ e r, cur = e :: r ∧ prefix_mismatch e id addr = true)) →
  removed_run w cur pos w'.
Proof.
  intros Hcur Htbl Hlive. exists [], cur.
  split_and!; [done|done| |done].
  by rewrite Htbl, <- Hcur, take_drop.
Qed.

Lemma remove_block_scan_run cur pos w :
  drop pos (las_table w) = cur →
  wp (remove_block_scan cur pos id addr)
     (λ _ w', removed_run w cur pos w') (λ _ w', removed_run w cur pos w') w.
Proof.
  revert w. induction cur as [|e rest IH]; intros w Hcur;
    cbn [remove_block_scan].
  - apply wp_throw. apply removed_run_nothing; [done|done|]. intros ->. auto.
  - wp_step. wp_step. wp_step.
    2:{ apply removed_run_nothing; [done|done|].
        intros Hf. rewrite Hf in *. done. }
    wp_step.
    { wp_step. apply removed_run_nothing; [done|done|].
      intros Hf. cbn. rewrite Hf. split; [done|]. right. by eexists _, _. }
    unfold cursor_remove. wp_step. wp_step. wp_step.
    2:{ apply removed_run_nothing; [done|done|].
        intros Hf. cbn in *. rewrite Hf in *. done. }
    wp_step. wp_step. wp_step. wp_step. wp_step.
    assert (delete pos (las_table w) = take pos (las_table w) ++ rest) as Hdel.
    { rewrite delete_take_drop. f_equal.
      replace (S pos) with (pos + 1)%nat by lia. by rewrite <- drop_drop, Hcur. }
    assert (Forall (prefix_match id addr) [e]) as He.
    { apply Forall_singleton. by apply prefix_mismatch_false. }
    wp_step.
    + (* [next] succeeded *)
      wp_step. cbv beta.
      destruct rest as [|e' rest'].
      * change (WT_NOTFOUND =? 0) with false. cbv iota.
        apply wp_ret. exists [e], []. cbn [las_table set_las_table pop_fault set_faults].
        split_and!; [done|done|done|].
        intros Hf. cbn. rewrite Hf. split; [done|]. by left.
      * change (0 =? 0) with true. cbv iota.
        set (w2 := pop_fault (set_las_table (delete pos (las_table (pop_fault (pop_fault w))))
                                (pop_fault (pop_fault w)))).
        assert (las_table w2 = take pos (las_table w) ++ e' :: rest') as Hw2 by done.
        assert (length (take pos (las_table w)) = pos) as Hlen.
        { rewrite length_take. apply Nat.min_l.
          assert (pos < length (las_table w))%nat; [|lia].
          apply lookup_lt_is_Some. rewrite <- (Nat.add_0_r pos), <- lookup_drop, Hcur.
          by eexists. }
        assert (drop pos (las_table w2) = e' :: rest') as Hdrop.
        { rewrite Hw2. by rewrite drop_app_length'. }
        eapply wp_mono; [by apply IH| |].
        all: intros _ w' (removed & after & Hrest & Hall & Htbl & Hlive).
        all: exists (e :: removed), after.
        all: split_and!;
          [by rewrite Hrest|constructor; [by apply prefix_mismatch_false|done]| |].
        all: try (by rewrite Htbl, Hw2, take_app_length').
        all: intros Hf; apply Hlive; subst w2; cbn; by rewrite Hf.
    + (* [next] failed *)
      wp_step. cbv beta. rewrite Heqb0.
      apply wp_ret. exists [e], rest. cbn [las_table set_las_table pop_fault set_faults].
      split_and!; [done|done|done|].
      intros Hf. cbn in *. rewrite Hf in *. done.
Qed.

Lemma wp_snd {St A} (m : M St A) (P : St → Prop) s :
  wp m (λ _, P) (λ _, P) s → P (m s).2.
Proof. unfold wp. by destruct (m s) as [[?|?] ?]. Qed.

Lemma wp_las_position Q E w ret exact pos :
  search_near (las_table w) (id, addr, 0, 0, []) = (ret, exact, pos) →
  (if (ret =? 0) && (exact <? 0)
   then wp (cursor_next (drop (S pos) (las_table w))) (λ r w', Q (r, S pos) w') E w
   else Q (ret, pos) w) →
  wp (las_position id addr) Q E w.
Proof.
  intros Hsn H. unfold las_position. wp_step. wp_step. cbv beta.
  rewrite Hsn. cbv iota.
  destruct ((ret =? 0) && (exact <? 0)); [|by apply wp_ret].
  apply wp_bind. eapply wp_mono; [exact H| |done].
  intros r w' HQ. by apply wp_ret.
Qed.

(** The whole of [__wt_las_remove_block]: whatever the faults, the
    records it takes off the table are a run of matching records that
    starts where the scan starts; without faults and with the cursor
    positioned, the run ends at the end of the table or in front of the
    first record that does not match. *)
Definition removed_from_start (w w' : World) : Prop :=
  ∃ removed after,
    drop (scan_start (las_table w)) (las_table w) = removed ++ after ∧
    Forall (prefix_match id addr) removed ∧
    las_table w' = take (scan_start (las_table w)) (las_table w) ++ after ∧
    (faults w = [] → scan_ret (las_table w) = 0 →
     after = [] ∨ ∃ e r, after = e :: r ∧ prefix_mismatch e id addr = true).

Lemma remove_block_run w :
  removed_from_start w (__wt_las_remove_block id addr w).2.
Proof.
  unfold __wt_las_remove_block.
  match goal with
  | |- removed_from_start w (let '(r, w0) := ?m w in _).2 =>
      enough (removed_from_start w (m w).2) as Hen
        by (by destruct (m w) as [[?|?] ?]);
      apply (wp_snd m)
  end.
  unfold removed_from_start, scan_start, scan_ret.
  destruct (search_near (las_table w) (id, addr, 0, 0, [])) as [[ret exact] pos] eqn:Hsn.
  cbn [fst].
  set (start := if (ret =? 0) && (exact <? 0) then S pos else pos).
  set (P := λ w0 : World,
         ∃ removed after,
           drop start (las_table w) = removed ++ after ∧
           Forall (prefix_match id addr) removed ∧
           las_table w0 = take start (las_table w) ++ after ∧
           (faults w = [] → ret = 0 →
            after = [] ∨ ∃ e r, after = e :: r ∧ prefix_mismatch e id addr = true)).
  (* leaving without a scan *)
  assert (∀ w1 : World,
            las_table w1 = las_table w →
            (faults w = [] → ret = 0 → drop start (las_table w) = []) →
            P w1) as Hnone.
  { intros w1 Hw1 Hl. exists [], (drop start (las_table w)).
    split_and!; [done|done|by rewrite Hw1, take_drop|]. intros ??. left. auto. }
  (* leaving after a scan from [start] *)
  assert (∀ w1 : World,
            las_table w1 = las_table w → (faults w = [] → faults w1 = []) →
            wp (remove_block_scan (drop start (las_table w1)) start id addr)
               (λ a s', wp (WT_ERR_NOTFOUND_OK a) (λ _, P) (λ _, P) s')
               (λ _, P) w1) as Hscan.
  { intros w1 Hw1 Hf1.
    eapply wp_mono; [by apply remove_block_scan_run|..].
    all: intros r w' Hrun; cbv beta in Hrun;
      destruct Hrun as (removed & after & Hcur & Hall & Htbl & Hlive).
    all: rewrite Hw1 in *.
    all: repeat wp_step.
    all: exists removed, after.
    all: split_and!; [done|done|done|].
    all: intros Hf _; by destruct (Hlive (Hf1 Hf)). }
  wp_step. wp_step. wp_step.
  2:{ apply Hnone; [done|]. intros Hf. by rewrite Hf in *. }
  wp_step. wp_step. wp_step.
  2:{ apply Hnone; [done|]. intros Hf. cbn in *. by rewrite Hf in *. }
  apply (wp_las_position _ _ _ ret exact pos); [done|].
  cbn [las_table pop_fault set_faults].
  subst start. destruct ((ret =? 0) && (exact <? 0)) eqn:Hcond.
  - unfold cursor_next. repeat wp_step.
    all: try (apply Hscan; [done|intros Hf; cbn; by rewrite Hf]).
    all: apply Hnone; [done|]; intros Hf Hret; cbn in *; rewrite Hf in *; cbn in *.
    all: try done.
    all: try by destruct (drop (S pos) (las_table w)).
    all: apply andb_true_iff in Hcond as [Hc _]; congruence.
  - repeat wp_step.
    all: try (apply Hscan; [done|intros Hf; cbn; by rewrite Hf]).
    all: apply Hnone; [done|]; intros Hf Hret; subst ret; cbn in *; congruence.
Qed.

End RemoveBlock.

(** ** What a successful instantiation attaches to the page *)

Section Instantiate.
Context {env : Env}.
Variables (id : Z) (addr : bytes).

Definition not_visible (e : las_entry) : bool :=
  negb (__wt_txn_visible_all (las_txnid e)).

(** The update record made from a lookaside record, at handle [h]. *)
Definition upd_of (h : nat) (e : las_entry) : WT_UPDATE :=
  mkUpd h (upd_txnid e)
        (if upd_size e =? WT_UPDATE_DELETED_VALUE then None else Some (las_value e)).

(** The user key of a lookaside record on a page of type [t]. *)
Definition user_key (t : page_type) (e : las_entry) : option ukey :=
  match t with
  | WT_PAGE_COL_FIX | WT_PAGE_COL_VAR => Recno <$> __wt_vunpack_uint (las_key e)
  | WT_PAGE_ROW_LEAF => Some (RowKey (las_key e))
  | _ => None
  end.

(** The keyed updates made from a list of records, the handles counted
    up from [h]. *)
Fixpoint las_items (t : page_type) (h : nat) (es : list las_entry)
  : option (list (ukey * WT_UPDATE)) :=
  match es with
  | [] => Some []
  | e :: es' =>
      k ← user_key t e;
      rest ← las_items t (S h) es';
      Some ((k, upd_of h e) :: rest)
  end.

(** The key the loop holds as current, on a page of type [t]. *)
Definition cur_key (t : page_type) (l : las_locals) : ukey :=
  match t with
  | WT_PAGE_ROW_LEAF => RowKey (current_key l)
  | _ => Recno (current_recno l)
  end.

(** The chains on the page, the current key and the chain under
    construction. *)
Definition abs_state (t : page_type) (f : Frame las_locals)
  : list (ukey * list WT_UPDATE) * ukey * list WT_UPDATE :=
  (from_option pg_updates [] (ref_page (ref (world f))),
   cur_key t (locals f), first_upd (locals f)).

Definition page_typed (t : page_type) (f : Frame las_locals) : Prop :=
  ∃ p, ref_page (ref (world f)) = Some p ∧ pg_type p = t.

(** The effect of a scan that started on [cur] in the frame [f]. *)
Definition scan_post (t : page_type) (f : Frame las_locals) (cur : list las_entry)
  (f' : Frame las_locals) : Prop :=
  ∃ done after items,
    cur = done ++ after ∧
    Forall (prefix_match id addr) done ∧
    las_items t (next_handle (world f)) (List.filter not_visible done) = Some items ∧
    abs_state t f' = fold_left absorb items (abs_state t f) ∧
    next_handle (world f') = (next_handle (world f) + length items)%nat ∧
    page_typed t f' ∧
    upd (locals f') = None ∧
    (faults (world f) = [] →
     faults (world f') = [] ∧
     (after = [] ∨ ∃ e r, after = e :: r ∧ prefix_mismatch e id addr = true)).

(** What processing one matching record [e] does to the frame. *)
Definition entry_done (t : page_type) (f : Frame las_locals) (e : las_entry)
  (f1 : Frame las_locals) : Prop :=
  prefix_match id addr e ∧
  page_typed t f1 ∧
  upd (locals f1) = None ∧
  (faults (world f) = [] → faults (world f1) = []) ∧
  (if not_visible e
   then ∃ k, user_key t e = Some k ∧
             abs_state t f1 =
               absorb (abs_state t f) (k, upd_of (next_handle (world f)) e) ∧
             next_handle (world f1) = S (next_handle (world f))
   else abs_state t f1 = abs_state t f ∧
        next_handle (world f1) = next_handle (world f)).

Lemma scan_post_stop t f e f1 rest :
  entry_done t f e f1 →
  (faults (world f) = [] → rest = []) →
  scan_post t f (e :: rest) f1.
Proof.
  intros (Hm & Hp & Hu & Hf & He) Hrest.
  destruct (not_visible e) eqn:Hv.
  - destruct He as (k & Hk & Habs & Hn).
    exists [e], rest, [(k, upd_of (next_handle (world f)) e)].
    split_and!; [done|by constructor| |done| |done|done|].
    + cbn. rewrite Hv. cbn. by rewrite Hk.
    + cbn. lia.
    + intros Hf0. split; [by apply Hf|]. left. by apply Hrest.
  - destruct He as (Habs & Hn).
    exists [e], rest, [].
    split_and!; [done|by constructor| |done| |done|done|].
    + cbn. by rewrite Hv.
    + cbn. lia.
    + intros Hf0. split; [by apply Hf|]. left. by apply Hrest.
Qed.

Lemma scan_post_continue t f e f1 rest f' :
  entry_done t f e f1 →
  scan_post t f1 rest f' →
  scan_post t f (e :: rest) f'.
Proof.
  intros (Hm & Hp & Hu & Hf & He)
    (done & after & items & Hrest & Hall & Hitems & Habs' & Hn' & Hp' & Hu' & Hlive).
  destruct (not_visible e) eqn:Hv.
  - destruct He as (k & Hk & Habs & Hn).
    exists (e :: done), after, ((k, upd_of (next_handle (world f)) e) :: items).
    split_and!; [by rewrite Hrest|by constructor| | | |done|done|].
    + cbn. rewrite Hv. cbn. rewrite Hk. cbn. rewrite <- Hn, Hitems. done.
    + cbn [fold_left]. by rewrite <- Habs.
    + cbn. lia.
    + intros Hf0. by apply Hlive, Hf.
  - destruct He as (Habs & Hn).
    exists (e :: done), after, items.
    split_and!; [by rewrite Hrest|by constructor| | | |done|done|].
    + cbn. rewrite Hv. by rewrite <- Hn.
    + by rewrite <- Habs.
    + lia.
    + intros Hf0. by apply Hlive, Hf.
Qed.

Lemma row_key_eq (a b : bytes) :
  Nat.eqb (length a) (length b) && memcmp_eq a b (length b) = true ↔ a = b.
Proof.
  unfold memcmp_eq. rewrite andb_true_iff, Nat.eqb_eq, bool_decide_eq_true.
  split.
  - intros [Hlen Hcmp]. rewrite <- Hlen in Hcmp at 1. by rewrite !firstn_all in Hcmp.
  - by intros ->.
Qed.

Lemma entry_done_pop t f e f1 :
  entry_done t f e f1 →
  entry_done t f e (mkFrame (pop_fault (world f1)) (locals f1)).
Proof.
  intros (Hm & Hp1 & Hu1 & Hf1 & He1).
  split_and!; [done|done|done| |done].
  intros Hf. cbn. by rewrite (Hf1 Hf).
Qed.

Lemma las_scan_ok t cur f :
  page_typed t f → upd (locals f) = None →
  wp (las_instantiate_scan cur id addr)
     (λ _ f', scan_post t f cur f') (λ c _, c ≠ 0) f.
Proof.
  revert f. induction cur as [|e rest IH]; intros f Hp Hupd;
    cbn [las_instantiate_scan].
  - by apply wp_throw.
  - set (next := (ret ← liftW (cursor_next rest);
                  if ret =? 0 then las_instantiate_scan rest id addr
                  else mret ret) : MF Z).
    assert (∀ f1, entry_done t f e f1 →
              wp next (λ _ f', scan_post t f (e :: rest) f') (λ c _, c ≠ 0) f1)
      as Hnext.
    { intros f1 Hdone. subst next. unfold cursor_next.
      apply entry_done_pop in Hdone as Hdone'.
      repeat wp_step.
      - eapply wp_mono; [apply IH| |done].
        + by destruct Hdone' as (_ & ? & _).
        + by destruct Hdone' as (_ & _ & ? & _).
        + intros r f' Hpost. by eapply scan_post_continue.
      - destruct rest as [|e' rest']; [|done].
        by apply scan_post_stop.
      - congruence.
      - apply scan_post_stop; [done|].
        intros Hf. destruct Hdone as (_ & _ & _ & Hf1 & _).
        rewrite (Hf1 Hf) in *. done. }
    clearbody next.
    destruct Hp as (p & Hpage & Htype).
    wp_step. wp_step. wp_step. wp_step; [|done].
    wp_step.
    { wp_step. exists [], (e :: rest), [].
      split_and!; [done|done|done|done|cbn; lia|by exists p|done|].
      intros Hf. cbn. rewrite Hf. split; [done|]. right. by eexists _, _. }
    apply prefix_mismatch_false in Heqb.
    wp_step.
    { apply Hnext. split_and!; [done|by exists p|done| |].
      - intros Hf. cbn. by rewrite Hf.
      - unfold not_visible. rewrite Heqb0. done. }
    unfold las_alloc_update, las_switch_key, las_append.
    repeat wp_step.
    all: try done.
    all: apply Hnext; clear Hnext IH.
    all: cbn in *; rewrite Hpage in *; cbn in *.
    all: unfold entry_done, not_visible, page_typed, abs_state, user_key, cur_key, upd_of.
    all: rewrite Heqb0; cbn; rewrite ?Hpage; cbn.
    all: split; [done|]; split; [by eexists|]; split; [done|].
    all: split; [intros Hf; by rewrite Hf|].
    all: subst t; rewrite Heqp0.
    all: repeat match goal with
           | Hx : bool_decide _ = true |- _ => apply bool_decide_eq_true_1 in Hx
           | Hx : bool_decide _ = false |- _ => apply bool_decide_eq_false_1 in Hx
           | Hx : (_ =? _) = true |- _ => apply Z.eqb_eq in Hx
           | Hx : (_ =? _) = false |- _ => apply Z.eqb_neq in Hx
           | Hx : (_ && _) = true |- _ => apply row_key_eq in Hx
           | Hx : (_ && _) = false |- _ =>
               apply not_true_iff_false in Hx; rewrite row_key_eq in Hx
           end.
    all: rewrite ?Heqo; cbn; eexists; (split; [done|]); (split; [|done]).
    all: destruct (decide _) as [Heq|Hne]; simplify_eq; try congruence.
    all: try done.
    all: by destruct (first_upd (locals f)).
Qed.

(** What the whole instantiation has done when it returns 0. *)
Definition instantiated (w w' : World) (p : WT_PAGE) : Prop :=
  ∃ done after items p',
    drop (scan_start id addr (las_table w)) (las_table w) = done ++ after ∧
    Forall (prefix_match id addr) done ∧
    las_items (pg_type p) (next_handle w) (List.filter not_visible done) = Some items ∧
    ref_page (ref w') = Some p' ∧
    pg_type p' = pg_type p ∧
    pg_updates p' = pg_updates p ++ group_consecutive items ∧
    next_handle w' = (next_handle w + length items)%nat ∧
    (faults w = [] → scan_ret id addr (las_table w) = 0 →
     after = [] ∨ ∃ e r, after = e :: r ∧ prefix_mismatch e id addr = true).

Lemma las_instantiate_body_ok w p :
  ref_page (ref w) = Some p →
  wp (las_instantiate_body id addr)
     (λ _ f', instantiated w (world f') p ∧
              upd (locals f') = None ∧ first_upd (locals f') = [])
     (λ c _, c ≠ 0) (mkFrame w las_locals_init).
Proof.
  intros Hpage. unfold instantiated, scan_start, scan_ret.
  destruct (search_near (las_table w) (id, addr, 0, 0, [])) as [[ret exact] pos] eqn:Hsn.
  cbn [fst].
  set (start := if (ret =? 0) && (exact <? 0) then S pos else pos).
  set (Q := λ f' : Frame las_locals,
         (∃ done after items p',
            drop start (las_table w) = done ++ after ∧
            Forall (prefix_match id addr) done ∧
            las_items (pg_type p) (next_handle w) (List.filter not_visible done)
              = Some items ∧
            ref_page (ref (world f')) = Some p' ∧
            pg_type p' = pg_type p ∧
            pg_updates p' = pg_updates p ++ group_consecutive items ∧
            next_handle (world f') = (next_handle w + length items)%nat ∧
            (faults w = [] → ret = 0 →
             after = [] ∨ ∃ e r, after = e :: r ∧ prefix_mismatch e id addr = true)) ∧
         upd (locals f') = None ∧ first_upd (locals f') = []).
  pose (tail := (las_flush_last;;
                 c ← __wt_las_cursor_close;
                 (if c =? 0 then mret tt else throw c);;
                 n ← getL total_incr;
                 if n =? 0 then mret tt
                 else
                   liftW (on_page (page_inmem_incr n));;
                   liftW (on_page page_modify_clear)) : MF unit).
  change (las_instantiate_body id addr) with
    (liftW __wt_scr_alloc;;
     liftW __wt_scr_alloc;;
     liftW __wt_scr_alloc;;
     liftW __wt_scr_alloc;;
     __wt_las_cursor;;
     '(ret, pos) ← liftW (las_position id addr);
     ret ← (if ret =? 0
            then tbl ← liftW (gets las_table);
                 las_instantiate_scan (drop pos tbl) id addr
            else mret ret);
     WT_ERR_NOTFOUND_OK ret;;
     tail : MF unit).
  (* what follows the scan *)
  assert (∀ f0 f' done after items,
            ref (world f0) = ref w → next_handle (world f0) = next_handle w →
            first_upd (locals f0) = [] →
            drop start (las_table w) = done ++ after →
            Forall (prefix_match id addr) done →
            las_items (pg_type p) (next_handle (world f0))
              (List.filter not_visible done) = Some items →
            abs_state (pg_type p) f' = fold_left absorb items (abs_state (pg_type p) f0) →
            next_handle (world f') = (next_handle (world f0) + length items)%nat →
            page_typed (pg_type p) f' →
            upd (locals f') = None →
            (faults w = [] → ret = 0 →
             after = [] ∨ ∃ e r, after = e :: r ∧ prefix_mismatch e id addr = true) →
            wp tail
               (λ _, Q) (λ c _, c ≠ 0) f') as Htail.
  { intros f0 f' done after items Hr0 Hn0 Hfu0 Hda Hall Hitems Habs Hn' (p' & Hp' & Ht')
      Hu' Hlive.
    assert (flush_last (abs_state (pg_type p) f') = pg_updates p ++ group_consecutive items)
      as Hflush.
    { rewrite Habs. unfold abs_state at 1. rewrite Hr0, Hpage, Hfu0. cbn [from_option].
      by rewrite absorb_group. }
    unfold abs_state in Hflush. rewrite Hp' in Hflush. cbn [from_option flush_last] in Hflush.
    subst tail. unfold las_flush_last, __wt_las_cursor_close.
    repeat wp_step.
    all: try done.
    all: cbn in *; rewrite ?Hp' in *; cbn in *.
    all: repeat match goal with
           | Hx : bool_decide _ = true |- _ => apply bool_decide_eq_true_1 in Hx
           | Hx : bool_decide _ = false |- _ => apply bool_decide_eq_false_1 in Hx
           | Hx : (_ =? _) = true |- _ => apply Z.eqb_eq in Hx
           | Hx : (_ =? _) = false |- _ => apply Z.eqb_neq in Hx
           end.
    all: try congruence.
    all: try done.
    all: subst Q; cbn.
    all: (split; [|by split]).
    all: exists done, after, items; eexists.
    all: (split; [done|]); (split; [done|]); (split; [by rewrite <- Hn0|]).
    all: (split; [cbn; rewrite ?Hp'; reflexivity|]); cbn.
    all: (split; [done|]).
    all: (split; [|by rewrite <- Hn0]).
    all: rewrite <- Hflush.
    all: unfold cur_key; rewrite <- Ht'.
    all: destruct (first_upd (locals f')); try done.
    all: by rewrite Heqp0.
  }
  (* leaving the scan, or leaving without one *)
  assert (∀ f0 : Frame las_locals,
            ref (world f0) = ref w → next_handle (world f0) = next_handle w →
            first_upd (locals f0) = [] → upd (locals f0) = None →
            (faults w = [] → faults (world f0) = []) →
            wp (las_instantiate_scan (drop start (las_table w)) id addr)
               (λ a f', wp (WT_ERR_NOTFOUND_OK a;; tail)
                 (λ _, Q) (λ c _, c ≠ 0) f')
               (λ c _, c ≠ 0) f0) as Hscan.
  { intros f0 Hr0 Hn0 Hfu0 Hu0 Hf0.
    eapply wp_mono; [apply (las_scan_ok (pg_type p))| |done].
    - exists p. by rewrite Hr0.
    - done.
    - intros a f'
        (done & after & items & Hda & Hall & Hitems & Habs & Hn' & Hp' & Hu' & Hlive).
      apply wp_bind. unfold WT_ERR_NOTFOUND_OK.
      assert (wp tail
                 (λ _, Q) (λ c _, c ≠ 0) f') as Hgo.
      { eapply (Htail f0 f' done after items); try done.
        intros Hf _. by destruct (Hlive (Hf0 Hf)). }
      destruct (a =? WT_NOTFOUND); [by apply wp_ret|].
      destruct (a =? 0) eqn:Ha; [by apply wp_ret|].
      apply wp_throw. by apply Z.eqb_neq. }
  (* leaving without a scan *)
  assert (∀ f0 : Frame las_locals,
            ref (world f0) = ref w → next_handle (world f0) = next_handle w →
            first_upd (locals f0) = [] → upd (locals f0) = None →
            (faults w = [] → ret = 0 → drop start (las_table w) = []) →
            wp tail
               (λ _, Q) (λ c _, c ≠ 0) f0) as Hnone.
  { intros f0 Hr0 Hn0 Hfu0 Hu0 Hl.
    apply (Htail f0 f0 [] (drop start (las_table w)) []); try done.
    - exists p. by rewrite Hr0.
    - intros ??. left. auto. }
  clear Htail. clearbody tail.
  unfold __wt_las_cursor.
  repeat wp_step. all: try done.
  apply (wp_las_position id addr _ _ _ ret exact pos); [done|].
  cbn [las_table pop_fault set_faults world locals].
  subst start. destruct ((ret =? 0) && (exact <? 0)) eqn:Hcond.
  - repeat wp_step.
    all: cbn [las_table pop_fault set_faults].
    all: try (apply Hscan; [done|done|done|done|intros Hf; cbn; by rewrite Hf]).
    all: try (apply Hnone; [done|done|done|done|]; intros Hf Hret).
    all: cbn in *; try rewrite Hf in *; cbn in *.
    all: try done.
    all: try by destruct (drop (S pos) (las_table w)).
    all: by apply Z.eqb_neq.
  - repeat wp_step.
    all: cbn [las_table pop_fault set_faults].
    all: try (apply Hscan; [done|done|done|done|intros Hf; cbn; by rewrite Hf]).
    all: try (apply Hnone; [done|done|done|done|]; intros Hf Hret; subst ret).
    all: try done.
    by apply Z.eqb_neq.
Qed.

Lemma WT_TRET_nonzero ret r : ret ≠ 0 → WT_TRET ret r ≠ 0.
Proof.
  intros Hret. unfold WT_TRET.
  destruct (Z.eqb_spec r 0); cbn [negb andb]; [done|].
  by destruct (_ || _).
Qed.

(** The cleanup after a successful body changes neither the page nor the
    reference. *)
Lemma las_page_instantiate_ok w w' p :
  ref_page (ref w) = Some p →
  __las_page_instantiate id addr w = (Ok tt, w') →
  instantiated w w' p.
Proof.
  intros Hpage. unfold __las_page_instantiate.
  pose proof (las_instantiate_body_ok w p Hpage) as Hbody. unfold wp in Hbody.
  destruct (las_instantiate_body id addr (mkFrame w las_locals_init)) as [[[]|c] f].
  - destruct Hbody as (Hinst & Hu & Hfu). cbn [ret_of].
    assert (wp (las_instantiate_cleanup 0)
               (λ _ f', ref (world f') = ref (world f) ∧
                        next_handle (world f') = next_handle (world f))
               (λ _ _, True) f) as Hcl.
    { unfold las_instantiate_cleanup, __wt_las_cursor_close.
      repeat wp_step. all: cbn; try done.
      all: repeat match goal with
             | Hx : bool_decide _ = false |- _ => apply bool_decide_eq_false_1 in Hx
             end.
      all: cbn in *; congruence. }
    unfold wp in Hcl.
    destruct (las_instantiate_cleanup 0 f) as [[r'|c'] f']; [|done].
    unfold of_ret. destruct (r' =? 0); [|done]. intros [= <-].
    destruct Hcl as [Hr Hn].
    destruct Hinst as (done & after & items & p' & Hda & Hall & Hitems & Hp' & Hrest).
    exists done, after, items, p'. by rewrite Hr, Hn.
  - cbn [ret_of].
    assert (wp (las_instantiate_cleanup c) (λ r _, r ≠ 0) (λ _ _, True) f) as Hcl.
    { unfold las_instantiate_cleanup, __wt_las_cursor_close.
      repeat wp_step.
      all: try (apply wp_free_update_list; intros; apply wp_ret).
      all: try done.
      all: by repeat apply WT_TRET_nonzero. }
    unfold wp in Hcl.
    destruct (las_instantiate_cleanup c f) as [[r'|c'] f']; [|done].
    unfold of_ret. destruct (Z.eqb_spec r' 0); done.
Qed.

(** Every keyed update of [las_items] is made from the record at its
    place in the list, under that record's user key. *)
Lemma las_items_made (P : las_entry → Prop) t h es items :
  Forall P es →
  las_items t h es = Some items →
  Forall2 (λ e it, P e ∧ user_key t e = Some it.1 ∧ ∃ h', it.2 = upd_of h' e) es items.
Proof.
  intros HP. revert h items.
  induction HP as [|e es He _ IH]; intros h items; cbn [las_items].
  - intros [= <-]. constructor.
  - destruct (user_key t e) as [k|] eqn:Hk; [|done]. cbn.
    destruct (las_items t (S h) es) as [rest|] eqn:Hrest; [|done]. cbn.
    intros [= <-]. constructor; [|by eapply IH].
    split_and!; [done|done|by exists h].
Qed.

Lemma las_items_length t h es items :
  las_items t h es = Some items → length items = length es.
Proof.
  intros Hitems.
  apply (las_items_made (λ _, True)) in Hitems; [|by apply Forall_forall].
  symmetry. by eapply Forall2_length.
Qed.

Lemma filter_not_visible (l : list las_entry) :
  Forall (λ e, __wt_txn_visible_all (las_txnid e) = false) (List.filter not_visible l).
Proof.
  apply Forall_forall. intros e [_ He]%list_elem_of_In%filter_In.
  by apply negb_true_iff in He.
Qed.

(** C7: when the instantiation of the lookaside records of a block
    returns 0, the records of the chains it attached to the page are, one
    for one and in scan order, the updates made from the scanned records
    whose transaction id was not globally visible; and it allocated exactly
    one update per such record, so none for a record it skipped. *)
Theorem C7_visible_entries_are_skipped w w' p :
  ref_page (ref w) = Some p →
  __las_page_instantiate id addr w = (Ok tt, w') →
  ∃ done after p' new_chains,
    drop (scan_start id addr (las_table w)) (las_table w) = done ++ after ∧
    ref_page (ref w') = Some p' ∧
    pg_updates p' = pg_updates p ++ new_chains ∧
    Forall2 (λ e u, __wt_txn_visible_all (las_txnid e) = false ∧ ∃ h, u = upd_of h e)
            (List.filter not_visible done) (concat (map snd new_chains)) ∧
    next_handle w' = (next_handle w + length (List.filter not_visible done))%nat.
Proof.
  intros Hpage Hrun.
  destruct (las_page_instantiate_ok w w' p Hpage Hrun)
    as (done & after & items & p' & Hda & _ & Hitems & Hp' & _ & Hupd & Hn & _).
  exists done, after, p', (group_consecutive items).
  split_and!; [done|done|done| |].
  - rewrite group_consecutive_concat.
    apply (las_items_made _ _ _ _ _ (filter_not_visible done)) in Hitems.
    apply Forall2_fmap_r. eapply Forall2_impl; [exact Hitems|].
    intros e it (Hv & _ & Hu). done.
  - by rewrite <- (las_items_length _ _ _ _ Hitems).
Qed.

(** C8: both scans of the block [(id, addr)] start where [search_near]
    on [(id, addr, 0, 0, empty key)] leaves the cursor, one record further
    when it landed before the key.  [__wt_las_remove_block] removes, and a
    successful [__las_page_instantiate] processes, only a run of records
    from there on whose id and address are those of the block; when the
    cursor was positioned and no call failed, the run ends at the end of
    the table or in front of the first record of another block. *)
Theorem C8_scan_stays_in_block_prefix w :
  (∃ removed after,
     drop (scan_start id addr (las_table w)) (las_table w) = removed ++ after ∧
     Forall (prefix_match id addr) removed ∧
     las_table (__wt_las_remove_block id addr w).2 =
       take (scan_start id addr (las_table w)) (las_table w) ++ after ∧
     (faults w = [] → scan_ret id addr (las_table w) = 0 →
      after = [] ∨ ∃ e r, after = e :: r ∧ prefix_mismatch e id addr = true)) ∧
  (∀ p w',
     ref_page (ref w) = Some p →
     __las_page_instantiate id addr w = (Ok tt, w') →
     ∃ done after items p',
       drop (scan_start id addr (las_table w)) (las_table w) = done ++ after ∧
       Forall (prefix_match id addr) done ∧
       las_items (pg_type p) (next_handle w) (List.filter not_visible done)
         = Some items ∧
       ref_page (ref w') = Some p' ∧
       pg_updates p' = pg_updates p ++ group_consecutive items ∧
       (faults w = [] → scan_ret id addr (las_table w) = 0 →
        after = [] ∨ ∃ e r, after = e :: r ∧ prefix_mismatch e id addr = true)).
Proof.
  split.
  - exact (remove_block_run id addr w).
  - intros p w' Hpage Hrun.
    destruct (las_page_instantiate_ok w w' p Hpage Hrun)
      as (done & after & items & p' & Hda & Hall & Hitems & Hp' & _ & Hupd & _ & Hlive).
    by exists done, after, items, p'.
Qed.

(** C9: when the instantiation returns 0, the chains it attached are the
    updates made from the scanned, not globally visible records, under the
    record number decoded from the key on column-store pages and under the
    key bytes on row-store pages, grouped by runs of equal keys: the loop,
    which appends each update behind the chain under construction, writes
    the chain out when the key changes and once more after the scan,
    attaches what grouping consecutive equal keys gives, and every chain
    keeps its records in the order of the scan. *)
Theorem C9_chains_group_consecutive_keys w w' p :
  ref_page (ref w) = Some p →
  __las_page_instantiate id addr w = (Ok tt, w') →
  ∃ done after items p',
    drop (scan_start id addr (las_table w)) (las_table w) = done ++ after ∧
    Forall2 (λ e it, user_key (pg_type p) e = Some it.1 ∧ ∃ h, it.2 = upd_of h e)
            (List.filter not_visible done) items ∧
    ref_page (ref w') = Some p' ∧
    pg_updates p' =
      flush_last (fold_left absorb items
                    (pg_updates p, cur_key (pg_type p) las_locals_init, [])) ∧
    pg_updates p' = pg_updates p ++ group_consecutive items ∧
    concat (map snd (group_consecutive items)) = map snd items.
Proof.
  intros Hpage Hrun.
  destruct (las_page_instantiate_ok w w' p Hpage Hrun)
    as (done & after & items & p' & Hda & _ & Hitems & Hp' & _ & Hupd & _ & _).
  exists done, after, items, p'.
  split_and!; [done| |done| |done|].
  - apply (las_items_made (λ _, True)) in Hitems; [|by apply Forall_forall].
    eapply Forall2_impl; [exact Hitems|]. by intros e it (_ & ? & ?).
  - by rewrite absorb_group, Hupd.
  - apply group_consecutive_concat.
Qed.

End Instantiate.

(** A locked reference with an empty row-store page, before and after the
    lookaside records of [sample_table] are instantiated into it. *)
Definition sample_page : WT_PAGE := mkPage 0 WT_PAGE_ROW_LEAF None [] 100 false.
Definition sample_world_locked : World :=
  mkWorld [] {[0%nat]} 1 sample_table 7
          (mkRef WT_REF_LOCKED (Some sample_addr) (Some sample_page)).
Definition sample_chains : list (ukey * list WT_UPDATE) :=
  [ (RowKey sample_K1, [mkUpd 1 22 (Some [Byte.x02]); mkUpd 2 24 None]);
    (RowKey sample_K2, [mkUpd 3 23 (Some [Byte.x03])]) ].
Definition sample_page_instantiated : WT_PAGE :=
  mkPage 0 WT_PAGE_ROW_LEAF None sample_chains 132 false.
Definition sample_world_instantiated : World :=
  mkWorld [] {[0%nat; 1%nat; 2%nat; 3%nat]} 4 sample_table 7
          (mkRef WT_REF_LOCKED (Some sample_addr) (Some sample_page_instantiated)).

Lemma sample_instantiate_run :
  @__las_page_instantiate sample_env 7 sample_addr sample_world_locked
    = (Ok tt, sample_world_instantiated).
Proof. vm_compute. reflexivity. Qed.

Lemma C7_witness :
  ref_page (ref sample_world_locked) = Some sample_page ∧
  @__las_page_instantiate sample_env 7 sample_addr sample_world_locked
    = (Ok tt, sample_world_instantiated) ∧
  ∃ done after p' new_chains,
    drop (@scan_start sample_env 7 sample_addr (las_table sample_world_locked))
         (las_table sample_world_locked) = done ++ after ∧
    ref_page (ref sample_world_instantiated) = Some p' ∧
    pg_updates p' = pg_updates sample_page ++ new_chains ∧
    Forall2 (λ e u, @__wt_txn_visible_all sample_env (las_txnid e) = false ∧
                    ∃ h, u = upd_of h e)
            (List.filter (@not_visible sample_env) done) (concat (map snd new_chains)) ∧
    next_handle sample_world_instantiated =
      (next_handle sample_world_locked +
       length (List.filter (@not_visible sample_env) done))%nat.
Proof.
  split; [reflexivity|]. split; [vm_compute; reflexivity|].
  apply (@C7_visible_entries_are_skipped sample_env 7 sample_addr
           sample_world_locked sample_world_instantiated sample_page).
  - reflexivity.
  - vm_compute. reflexivity.
Defined.

Lemma C8_witness :
  ref_page (ref sample_world_locked) = Some sample_page ∧
  @__las_page_instantiate sample_env 7 sample_addr sample_world_locked
    = (Ok tt, sample_world_instantiated) ∧
  ∃ done after items p',
    drop (@scan_start sample_env 7 sample_addr (las_table sample_world_locked))
         (las_table sample_world_locked) = done ++ after ∧
    Forall (prefix_match 7 sample_addr) done ∧
    @las_items sample_env (pg_type sample_page) (next_handle sample_world_locked)
      (List.filter (@not_visible sample_env) done) = Some items ∧
    ref_page (ref sample_world_instantiated) = Some p' ∧
    pg_updates p' = pg_updates sample_page ++ group_consecutive items ∧
    (faults sample_world_locked = [] →
     @scan_ret sample_env 7 sample_addr (las_table sample_world_locked) = 0 →
     after = [] ∨ ∃ e r, after = e :: r ∧ prefix_mismatch e 7 sample_addr = true).
Proof.
  split; [reflexivity|]. split; [vm_compute; reflexivity|].
  apply (proj2 (@C8_scan_stays_in_block_prefix sample_env 7 sample_addr
                  sample_world_locked) sample_page sample_world_instantiated).
  - reflexivity.
  - vm_compute. reflexivity.
Defined.

Lemma C9_witness :
  ref_page (ref sample_world_locked) = Some sample_page ∧
  @__las_page_instantiate sample_env 7 sample_addr sample_world_locked
    = (Ok tt, sample_world_instantiated) ∧
  ∃ done after items p',
    drop (@scan_start sample_env 7 sample_addr (las_table sample_world_locked))
         (las_table sample_world_locked) = done ++ after ∧
    Forall2 (λ e it, @user_key sample_env (pg_type sample_page) e = Some it.1 ∧
                     ∃ h, it.2 = upd_of h e)
            (List.filter (@not_visible sample_env) done) items ∧
    ref_page (ref sample_world_instantiated) = Some p' ∧
    pg_updates p' =
      flush_last (fold_left absorb items
                    (pg_updates sample_page,
                     cur_key (pg_type sample_page) las_locals_init, [])) ∧
    pg_updates p' = pg_updates sample_page ++ group_consecutive items ∧
    concat (map snd (group_consecutive items)) = map snd items.
Proof.
  split; [reflexivity|]. split; [vm_compute; reflexivity|].
  apply (@C9_chains_group_consecutive_keys sample_env 7 sample_addr
           sample_world_locked sample_world_instantiated sample_page).
  - reflexivity.
  - vm_compute. reflexivity.
Defined.

End BtReadProofs.

(* ===================================================================== *)
(** * Part V: further properties of replication recovery                  *)
(* ===================================================================== *)

Module ReplMore.
Import Repl ReplProofs.

(** ** Postconditions over every way a run can end *)

(** [wpo m Q Z s]: from [s], [m] returns a value and a state in [Q], or
    stops (fatal site or exception) in a state in [Z]. *)
Definition wpo {A} (m : M A) (Q : A → State → Prop) (Z : State → Prop)
  (s : State) : Prop :=
  match m s with
  | Ret a s' => Q a s'
  | Fatal _ s' | Throw _ s' => Z s'
  end.

Lemma wpo_bind {A B} (m : M A) (k : A → M B) Q Z s :
  wpo m (λ a s', wpo (k a) Q Z s') Z s → wpo (m ≫= k) Q Z s.
Proof. unfold wpo. rewrite bind_unfold. by destruct (m s). Qed.

Lemma wpo_mono {A} (m : M A) (Q Q' : A → State → Prop) (Z Z' : State → Prop) s :
  wpo m Q Z s → (∀ a s', Q a s' → Q' a s') → (∀ s', Z s' → Z' s') → wpo m Q' Z' s.
Proof. unfold wpo. destruct (m s); auto. Qed.

Lemma wpo_ret {A} (a : A) Q Z s : Q a s → wpo (mret a) Q Z s.
Proof. done. Qed.

Lemma wpo_gets {A} (g : State → A) Q Z s : Q (g s) s → wpo (gets g) Q Z s.
Proof. done. Qed.

Lemma wpo_modify (g : State → State) Q Z s : Q tt (g s) → wpo (modify g) Q Z s.
Proof. done. Qed.

Lemma wpo_emit ev Q Z s : Q tt (add_event ev s) → wpo (emit ev) Q Z s.
Proof. done. Qed.

Lemma wpo_invariant b Q Z s :
  (b = true → Q tt s) → (b = false → Z s) → wpo (invariant b) Q Z s.
Proof. unfold wpo, invariant. destruct b; auto. Qed.

Lemma wpo_uassert e b Q Z s :
  (b = true → Q tt s) → (b = false → Z s) → wpo (uassert e b) Q Z s.
Proof. unfold wpo, uassert. destruct b; auto. Qed.

Lemma wpo_fassert {A} code (Q : A → State → Prop) Z s :
  Z s → wpo (fassertFailedNoTrace code) Q Z s.
Proof. done. Qed.

Lemma wpo_uasserted {A} e (Q : A → State → Prop) Z s :
  Z s → wpo (uasserted e) Q Z s.
Proof. done. Qed.

Lemma wpo_final {A} (m : M A) (P : State → Prop) s :
  wpo m (λ _, P) P s ↔ P (final_state (m s)).
Proof. unfold wpo. by destruct (m s). Qed.

Lemma wpo_Ret {A} (m : M A) Q Z s a s' :
  wpo m Q Z s → m s = Ret a s' → Q a s'.
Proof. unfold wpo. intros H Heq. by rewrite Heq in H. Qed.

(** One step through a program under [wpo]. *)
Ltac wpo_step :=
  cbv beta iota;
  lazymatch goal with
  | |- wpo (mbind _ _) _ _ _ => apply wpo_bind
  | |- wpo (mret _) _ _ _ => apply wpo_ret
  | |- wpo (gets _) _ _ _ => apply wpo_gets
  | |- wpo (modify _) _ _ _ => apply wpo_modify
  | |- wpo (emit _) _ _ _ => apply wpo_emit
  | |- wpo (invariant _) _ _ _ => apply wpo_invariant; intros ?
  | |- wpo (uassert _ _) _ _ _ => apply wpo_uassert; intros ?
  | |- wpo (fassertFailedNoTrace _) _ _ _ => apply wpo_fassert
  | |- wpo (uasserted _) _ _ _ => apply wpo_uasserted
  | |- wpo getInitialSyncFlag _ _ _ => unfold getInitialSyncFlag
  | |- wpo getAppliedThrough _ _ _ => unfold getAppliedThrough
  | |- wpo getOplogTruncateAfterPoint _ _ _ => unfold getOplogTruncateAfterPoint
  | |- wpo (setAppliedThrough _) _ _ _ => unfold setAppliedThrough
  | |- wpo (setOplogTruncateAfterPoint _) _ _ _ => unfold setOplogTruncateAfterPoint
  | |- wpo (setOldestTimestamp _) _ _ _ => unfold setOldestTimestamp
  | |- wpo (setInitialDataTimestamp _) _ _ _ => unfold setInitialDataTimestamp
  | |- wpo waitUntilDurable _ _ _ => unfold waitUntilDurable
  | |- wpo waitUntilUnjournaledWritesDurable _ _ _ =>
      unfold waitUntilUnjournaledWritesDurable
  | |- wpo reconstructPreparedTransactions _ _ _ =>
      unfold reconstructPreparedTransactions
  | |- wpo (cappedTruncateAfter _ _) _ _ _ => unfold cappedTruncateAfter
  | |- wpo (if ?b then _ else _) _ _ _ => destruct b eqn:?
  | |- wpo (match ?x with _ => _ end) _ _ _ => destruct x eqn:?
  end.

(** ** The truncator, run twice *)

(** The run of the truncator on a log split at the last record at or
    before [T]; the order of the timestamps plays no part. *)
Lemma truncateOplogTo_run T s older f newer :
  oplog s = Some (older ++ f :: newer) →
  NoDup (map e_id (older ++ f :: newer)) →
  Forall (λ e, e_id e ≠ RecordId_null) (older ++ f :: newer) →
  e_ts f ≤ T →
  Forall (λ e, T < e_ts e) newer →
  _truncateOplogTo T s =
    Ret tt (match newer with
            | [] => s
            | prev :: _ =>
                add_event (EvCappedTruncateAfter (e_id prev) true)
                          (set_oplog (Some (older ++ [f])) s)
            end).
Proof.
  intros Hlog Hnodup Hids Hf Hnewer.
  unfold _truncateOplogTo. run. rewrite Hlog.
  rewrite rev_app_distr. cbn [rev]. rewrite <- app_assoc. cbn [app].
  rewrite truncate_scan_found; [|by apply Forall_rev|done].
  cbn [Nat.add]. rewrite length_rev.
  destruct newer as [|prev newer]; [done|].
  cbn [length Nat.eqb].
  assert (List.last (map e_id (rev (prev :: newer))) RecordId_null = e_id prev) as ->.
  { cbn [rev]. rewrite map_app. cbn [map]. apply last_last. }
  apply Forall_app in Hids as [_ Hids]. apply Forall_cons in Hids as [_ Hids].
  apply Forall_cons in Hids as [Hprev _].
  unfold rid_isNull. destruct (Z.eqb_spec (e_id prev) 0); [done|].
  unfold cappedTruncateAfter. run.
  rewrite Hlog. cbn [option_map].
  replace (older ++ f :: prev :: newer) with ((older ++ [f]) ++ prev :: newer)
    in * by (by rewrite <- app_assoc).
  rewrite truncate_after_app; [done|].
  rewrite map_app in Hnodup. apply NoDup_app in Hnodup as (_ & Hdisj & _).
  intros Hin. apply (Hdisj _ Hin). cbn [map]. apply elem_of_cons. by left.
Qed.

(** A truncator that returns found a record at or before [T]. *)
Lemma truncateOplogTo_ret_split T s s1 log :
  oplog s = Some log →
  _truncateOplogTo T s = Ret tt s1 →
  ∃ older f newer,
    log = older ++ f :: newer ∧ e_ts f ≤ T ∧ Forall (λ e, T < e_ts e) newer.
Proof.
  intros Hlog Hrun.
  destruct (decide (Exists (λ e, e_ts e ≤ T) log)) as [Hex|Hno].
  - apply split_at_newest_le. by apply Exists_exists in Hex.
  - exfalso. assert (Forall (λ e, T < e_ts e) log) as Hall.
    { apply Forall_forall. intros x Hx.
      destruct (Z.lt_ge_cases T (e_ts x)); [done|].
      exfalso. apply Hno, Exists_exists. exists x. split; [done|lia]. }
    unfold _truncateOplogTo in Hrun. revert Hrun. run. rewrite Hlog.
    rewrite truncate_scan_none; [done|by apply Forall_rev].
Qed.

Lemma truncateOplogTo_ret_Some T s s1 :
  _truncateOplogTo T s = Ret tt s1 → is_Some (oplog s).
Proof.
  unfold _truncateOplogTo. run. by destruct (oplog s).
Qed.

(** X1: a truncation that has returned need not be repeated: on a log
    with distinct, non-null record ids, whatever the order of its
    timestamps, running the truncator again at the same [T] returns at
    once, the state untouched. *)
Theorem truncateOplogTo_idempotent T s s1 log :
  oplog s = Some log →
  NoDup (map e_id log) →
  Forall (λ e, e_id e ≠ RecordId_null) log →
  _truncateOplogTo T s = Ret tt s1 →
  _truncateOplogTo T s1 = Ret tt s1.
Proof.
  intros Hlog Hnodup Hids Hrun.
  destruct (truncateOplogTo_ret_split T s s1 log Hlog Hrun)
    as (older & f & newer & -> & Hf & Hnewer).
  rewrite (truncateOplogTo_run T s older f newer) in Hrun by done.
  injection Hrun as <-.
  assert (NoDup (map e_id (older ++ [f])) ∧
          Forall (λ e, e_id e ≠ RecordId_null) (older ++ [f])) as [Hnodup' Hids'].
  { replace (older ++ f :: newer) with ((older ++ [f]) ++ newer) in *
      by (by rewrite <- app_assoc).
    rewrite map_app in Hnodup. apply NoDup_app in Hnodup as (? & _ & _).
    by apply Forall_app in Hids as [? _]. }
  destruct newer as [|prev newer].
  - by apply (truncateOplogTo_run T s older f []).
  - by apply (truncateOplogTo_run T _ older f []).
Qed.

Lemma truncateOplogTo_idempotent_witness :
  _truncateOplogTo 65
    (mkState false OpTime_null OpTime_null 0
       (Some [entry 50; entry 60]) true None false false
       [EvCappedTruncateAfter 70 true]) =
  Ret tt
    (mkState false OpTime_null OpTime_null 0
       (Some [entry 50; entry 60]) true None false false
       [EvCappedTruncateAfter 70 true]).
Proof.
  apply (truncateOplogTo_idempotent 65
           (sample_state OpTime_null 0 [entry 50; entry 60; entry 70; entry 80] None)
           _ [entry 50; entry 60; entry 70; entry 80]).
  - reflexivity.
  - apply (bool_decide_unpack _). vm_compute. reflexivity.
  - apply (bool_decide_unpack _). vm_compute. reflexivity.
  - vm_compute. reflexivity.
Defined.

(** X2: after a truncation that returned, the top of the oplog is the
    record the scan stopped at: the last record, in store order, at or
    before [T]; everything behind it was after [T] and is gone. *)
Theorem truncateOplogTo_then_top T s s1 log :
  oplog s = Some log →
  NoDup (map e_id log) →
  Forall (λ e, e_id e ≠ RecordId_null) log →
  _truncateOplogTo T s = Ret tt s1 →
  ∃ older top newer,
    log = older ++ top :: newer ∧
    e_ts top ≤ T ∧
    Forall (λ e, T < e_ts e) newer ∧
    oplog s1 = Some (older ++ [top]) ∧
    _getTopOfOplog s1 = inr (getOpTime top).
Proof.
  intros Hlog Hnodup Hids Hrun.
  destruct (truncateOplogTo_ret_split T s s1 log Hlog Hrun)
    as (older & f & newer & -> & Hf & Hnewer).
  rewrite (truncateOplogTo_run T s older f newer) in Hrun by done.
  injection Hrun as <-.
  exists older, f, newer. split_and!; [done|done|done| |].
  - destruct newer; [|done]. by rewrite Hlog.
  - unfold _getTopOfOplog.
    assert (oplog (match newer with
                   | [] => s
                   | prev :: _ =>
                       add_event (EvCappedTruncateAfter (e_id prev) true)
                         (set_oplog (Some (older ++ [f])) s)
                   end) = Some (older ++ [f])) as ->.
    { destruct newer; [|done]. by rewrite Hlog. }
    by rewrite rev_app_distr.
Qed.

Lemma truncateOplogTo_then_top_witness :
  ∃ older top newer,
    [entry 50; entry 60; entry 70; entry 80] = older ++ top :: newer ∧
    e_ts top ≤ 65 ∧
    Forall (λ e, 65 < e_ts e) newer ∧
    oplog (mkState false OpTime_null OpTime_null 0
             (Some [entry 50; entry 60]) true None false false
             [EvCappedTruncateAfter 70 true]) = Some (older ++ [top]) ∧
    _getTopOfOplog (mkState false OpTime_null OpTime_null 0
                      (Some [entry 50; entry 60]) true None false false
                      [EvCappedTruncateAfter 70 true]) = inr (getOpTime top).
Proof.
  apply (truncateOplogTo_then_top 65
           (sample_state OpTime_null 0 [entry 50; entry 60; entry 70; entry 80] None)).
  - reflexivity.
  - apply (bool_decide_unpack _). vm_compute. reflexivity.
  - apply (bool_decide_unpack _). vm_compute. reflexivity.
  - vm_compute. reflexivity.
Defined.

(** ** The truncate-after point, run twice *)

Lemma wpo_any {A} (m : M A) s : wpo m (λ _ _, True) (λ _, True) s.
Proof. unfold wpo. by destruct (m s). Qed.

Lemma truncateIfNeeded_null stable s :
  oplogTruncateAfterPoint s = Timestamp_null →
  _truncateOplogIfNeededAndThenClearOplogTruncateAfterPoint stable s = Ret tt s.
Proof.
  intros Hnull.
  unfold _truncateOplogIfNeededAndThenClearOplogTruncateAfterPoint,
    getOplogTruncateAfterPoint. run. by rewrite Hnull.
Qed.

Lemma truncateIfNeeded_clears stable s :
  wpo (_truncateOplogIfNeededAndThenClearOplogTruncateAfterPoint stable)
      (λ _ s', oplogTruncateAfterPoint s' = Timestamp_null) (λ _, True) s.
Proof.
  unfold _truncateOplogIfNeededAndThenClearOplogTruncateAfterPoint, ts_isNull.
  wpo_step. wpo_step. wpo_step. wpo_step.
  { wpo_step. by apply Z.eqb_eq. }
  wpo_step.
  eapply wpo_mono; [apply wpo_any| |done].
  intros tp s1 _. cbv beta.
  wpo_step. eapply wpo_mono; [apply wpo_any| |done].
  intros [] s2 _. by repeat wpo_step.
Qed.

(** X3: when the function that truncates the oplog and clears the
    truncate-after point returns, the point is null; so a second call,
    with whatever stable timestamp, returns at once and changes nothing. *)
Theorem truncateIfNeeded_idempotent stable stable' s s' :
  _truncateOplogIfNeededAndThenClearOplogTruncateAfterPoint stable s = Ret tt s' →
  oplogTruncateAfterPoint s' = Timestamp_null ∧
  _truncateOplogIfNeededAndThenClearOplogTruncateAfterPoint stable' s' = Ret tt s'.
Proof.
  intros Hrun.
  pose proof (wpo_Ret _ _ _ _ _ _ (truncateIfNeeded_clears stable s) Hrun) as Hnull.
  split; [done|]. by apply truncateIfNeeded_null.
Qed.

Lemma truncateIfNeeded_idempotent_witness :
  oplogTruncateAfterPoint
    (mkState false (mkOpTime 60 1) OpTime_null 0
       (Some [entry 50; entry 60; entry 70; entry 80]) true (Some 60) false false
       [EvCappedTruncateAfter 90 true; EvSetOplogTruncateAfterPoint 0;
        EvWaitUntilDurable]) = Timestamp_null ∧
  _truncateOplogIfNeededAndThenClearOplogTruncateAfterPoint (Some 40)
    (mkState false (mkOpTime 60 1) OpTime_null 0
       (Some [entry 50; entry 60; entry 70; entry 80]) true (Some 60) false false
       [EvCappedTruncateAfter 90 true; EvSetOplogTruncateAfterPoint 0;
        EvWaitUntilDurable]) =
  Ret tt
    (mkState false (mkOpTime 60 1) OpTime_null 0
       (Some [entry 50; entry 60; entry 70; entry 80]) true (Some 60) false false
       [EvCappedTruncateAfter 90 true; EvSetOplogTruncateAfterPoint 0;
        EvWaitUntilDurable]).
Proof.
  apply (truncateIfNeeded_idempotent (Some 60) (Some 40)
           (sample_state (mkOpTime 60 1) 80
              [entry 50; entry 60; entry 70; entry 80; entry 90] (Some 60))).
  vm_compute. reflexivity.
Defined.

(** ** What recovery leaves alone *)

(** [keeps R m]: however [m] ends, the state it ends in is related by [R]
    to the state it started from. *)
Definition keeps (R : State → State → Prop) {A} (m : M A) : Prop :=
  ∀ s, R s (final_state (m s)).

Lemma truncate_after_prefix log r inclusive :
  truncate_after log r inclusive `prefix_of` log.
Proof.
  induction log as [|e log IH]; cbn [truncate_after]; [done|].
  destruct (e_id e =? r).
  - destruct inclusive; [apply prefix_nil|]. by apply prefix_cons, prefix_nil.
  - by apply prefix_cons.
Qed.

Section Frame.
Context {applier : OplogApplier}.
Variable R : State → State → Prop.
Hypothesis R_refl : ∀ s, R s s.
Hypothesis R_trans : ∀ s1 s2 s3, R s1 s2 → R s2 s3 → R s1 s3.
(** Calls to collaborators other than the applier. *)
Hypothesis R_emit : ∀ s ev, (∀ b, ev ≠ EvApplyOplogBatch b) → R s (add_event ev s).
Hypothesis R_apply : ∀ s b, R s (add_event (EvApplyOplogBatch b) s).
Hypothesis R_appliedThrough : ∀ s o, R s (set_appliedThrough o s).
Hypothesis R_point : ∀ s t, R s (set_oplogTruncateAfterPoint t s).
Hypothesis R_truncate : ∀ s r inclusive,
  R s (set_oplog (option_map (λ l, truncate_after l r inclusive) (oplog s)) s).
Hypothesis R_inRecovery : ∀ s b, R s (set_inReplicationRecovery b s).
Hypothesis R_readOnly : ∀ s b, R s (set_readOnly b s).

Lemma keeps_bind {A B} (m : M A) (k : A → M B) :
  keeps R m → (∀ a, keeps R (k a)) → keeps R (m ≫= k).
Proof.
  intros Hm Hk s. specialize (Hm s). rewrite bind_unfold.
  destruct (m s) as [a s'| |]; [|done..].
  eapply R_trans; [exact Hm|apply Hk].
Qed.

Lemma keeps_ret {A} (a : A) : keeps R (mret a).
Proof. intros s. apply R_refl. Qed.
Lemma keeps_gets {A} (g : State → A) : keeps R (gets g).
Proof. intros s. apply R_refl. Qed.
Lemma keeps_invariant b : keeps R (invariant b).
Proof. intros s. unfold invariant. destruct b; apply R_refl. Qed.
Lemma keeps_uassert e b : keeps R (uassert e b).
Proof. intros s. unfold uassert. destruct b; apply R_refl. Qed.
Lemma keeps_fassert {A} code : keeps R (fassertFailedNoTrace code : M A).
Proof. intros s. apply R_refl. Qed.
Lemma keeps_uasserted {A} e : keeps R (uasserted e : M A).
Proof. intros s. apply R_refl. Qed.
Lemma keeps_emit ev : (∀ b, ev ≠ EvApplyOplogBatch b) → keeps R (emit ev).
Proof. intros Hev s. by apply R_emit. Qed.

(** One step through a program under [keeps]. *)
Ltac keeps_step :=
  lazymatch goal with
  | |- keeps _ (mbind _ _) => apply keeps_bind; [|intros ?]
  | |- keeps _ (mret _) => apply keeps_ret
  | |- keeps _ (gets _) => apply keeps_gets
  | |- keeps _ (invariant _) => apply keeps_invariant
  | |- keeps _ (uassert _ _) => apply keeps_uassert
  | |- keeps _ (fassertFailedNoTrace _) => apply keeps_fassert
  | |- keeps _ (uasserted _) => apply keeps_uasserted
  | |- keeps _ (emit _) => apply keeps_emit; intros ?; discriminate
  | |- keeps _ (if ?b then _ else _) => destruct b
  | |- keeps _ (match ?x with _ => _ end) => destruct x
  end.

Lemma keeps_setAppliedThrough o : keeps R (setAppliedThrough o).
Proof.
  unfold setAppliedThrough. keeps_step; [|keeps_step].
  intros s. apply R_appliedThrough.
Qed.

Lemma keeps_setOplogTruncateAfterPoint t : keeps R (setOplogTruncateAfterPoint t).
Proof.
  unfold setOplogTruncateAfterPoint. keeps_step; [|keeps_step].
  intros s. apply R_point.
Qed.

Lemma keeps_cappedTruncateAfter r inclusive : keeps R (cappedTruncateAfter r inclusive).
Proof.
  unfold cappedTruncateAfter. keeps_step; [|keeps_step].
  intros s. apply R_truncate.
Qed.

Lemma keeps_truncate_scan T cursor count prev :
  keeps R (truncate_scan T cursor count prev).
Proof.
  revert count prev. induction cursor as [|e rest IH]; intros count prev;
    cbn [truncate_scan]; [keeps_step|].
  destruct (e_ts e <=? T); [|apply IH].
  destruct (negb _); [|keeps_step].
  keeps_step; [keeps_step|apply keeps_cappedTruncateAfter].
Qed.

Lemma keeps_truncateOplogTo T : keeps R (_truncateOplogTo T).
Proof.
  unfold _truncateOplogTo. repeat keeps_step. apply keeps_truncate_scan.
Qed.

Lemma keeps_truncateIfNeeded stable :
  keeps R (_truncateOplogIfNeededAndThenClearOplogTruncateAfterPoint stable).
Proof.
  unfold _truncateOplogIfNeededAndThenClearOplogTruncateAfterPoint,
    getOplogTruncateAfterPoint, waitUntilDurable.
  repeat keeps_step.
  all: first [apply keeps_truncateOplogTo | apply keeps_setOplogTruncateAfterPoint].
Qed.

Lemma keeps_startup start endPoint : keeps R (startup start endPoint).
Proof. unfold startup. repeat keeps_step. Qed.

Lemma keeps_apply_batches fuel buffer opt : keeps R (apply_batches fuel buffer opt).
Proof.
  revert buffer opt. induction fuel as [|fuel IH]; intros buffer opt;
    cbn [apply_batches]; unfold getNextApplierBatch, applyOplogBatch.
  - repeat keeps_step.
  - keeps_step; [repeat keeps_step|].
    destruct a as [batch buffer']. destruct batch; [keeps_step|].
    keeps_step; [|apply IH].
    keeps_step; [|keeps_step].
    keeps_step; [|keeps_step].
    intros s. apply R_apply.
Qed.

Lemma keeps_applyOplogOperations start endPoint :
  keeps R (_applyOplogOperations start endPoint).
Proof.
  unfold _applyOplogOperations.
  keeps_step; [apply keeps_startup|].
  keeps_step; [apply keeps_apply_batches|].
  destruct a0. repeat keeps_step. apply keeps_setAppliedThrough.
Qed.

Lemma keeps_applyToEndOfOplog start top : keeps R (_applyToEndOfOplog start top).
Proof.
  unfold _applyToEndOfOplog. repeat keeps_step. apply keeps_applyOplogOperations.
Qed.

Lemma keeps_recoverFromStableTimestamp stable at_ top :
  keeps R (_recoverFromStableTimestamp stable at_ top).
Proof.
  unfold _recoverFromStableTimestamp, getOplogTruncateAfterPoint.
  repeat keeps_step. apply keeps_applyToEndOfOplog.
Qed.

Lemma keeps_recoverFromUnstableCheckpoint at_ top :
  keeps R (_recoverFromUnstableCheckpoint at_ top).
Proof.
  unfold _recoverFromUnstableCheckpoint, setOldestTimestamp, setInitialDataTimestamp,
    waitUntilUnjournaledWritesDurable.
  repeat keeps_step.
  all: first [apply keeps_applyToEndOfOplog | apply keeps_setAppliedThrough].
Qed.

Lemma keeps_recoverFromOplogPrecursor : keeps R recoverFromOplogPrecursor.
Proof. unfold recoverFromOplogPrecursor. repeat keeps_step. Qed.

Lemma keeps_recoverFromOplogUpTo endPoint : keeps R (recoverFromOplogUpTo endPoint).
Proof.
  unfold recoverFromOplogUpTo, getInitialSyncFlag, getAppliedThrough,
    reconstructPreparedTransactions.
  keeps_step; [keeps_step|]. keeps_step; [keeps_step|].
  keeps_step; [apply keeps_recoverFromOplogPrecursor|].
  destruct a1; [|keeps_step].
  keeps_step; [apply keeps_truncateIfNeeded|].
  repeat keeps_step. apply keeps_applyOplogOperations.
Qed.

Lemma keeps_on_block_exit {A} (guard : M unit) (body : M A) :
  keeps R guard → keeps R body → keeps R (on_block_exit guard body).
Proof.
  intros Hg Hb s. specialize (Hb s). unfold on_block_exit.
  destruct (body s) as [a s'|f s'|e s']; cbn [final_state] in *; [|done|].
  all: specialize (Hg s'); destruct (guard s'); cbn [final_state] in *.
  all: by eapply R_trans.
Qed.

Lemma keeps_catch_all_terminate {A} (body : M A) :
  keeps R body → keeps R (catch_all_terminate body).
Proof.
  intros Hb s. specialize (Hb s). unfold catch_all_terminate.
  by destruct (body s).
Qed.

Lemma keeps_recoverFromOplog stable : keeps R (recoverFromOplog stable).
Proof.
  unfold recoverFromOplog, getInitialSyncFlag, getAppliedThrough.
  apply keeps_catch_all_terminate.
  keeps_step; [keeps_step|]. keeps_step; [keeps_step|].
  keeps_step; [intros s; apply R_inRecovery|].
  apply keeps_on_block_exit.
  { repeat keeps_step. intros s. apply R_inRecovery. }
  keeps_step; [keeps_step|].
  keeps_step; [repeat keeps_step|].
  keeps_step; [keeps_step|].
  keeps_step; [keeps_step|].
  keeps_step; [apply keeps_truncateIfNeeded|].
  repeat keeps_step.
  all: first [apply keeps_recoverFromStableTimestamp
             |apply keeps_recoverFromUnstableCheckpoint].
Qed.

Lemma keeps_assertNoRecoveryNeeded ne gt :
  keeps R (_assertNoRecoveryNeededOnUnstableCheckpoint ne gt).
Proof.
  unfold _assertNoRecoveryNeededOnUnstableCheckpoint, getInitialSyncFlag,
    getAppliedThrough, getOplogTruncateAfterPoint.
  repeat keeps_step.
Qed.

Lemma keeps_recoverFromOplogAsStandalone ne gt toggle :
  keeps R (recoverFromOplogAsStandalone ne gt toggle).
Proof.
  unfold recoverFromOplogAsStandalone, reconstructPreparedTransactions.
  keeps_step; [apply keeps_recoverFromOplogPrecursor|].
  keeps_step.
  { repeat keeps_step.
    all: first [apply keeps_recoverFromOplog | apply keeps_assertNoRecoveryNeeded]. }
  keeps_step; [keeps_step|]. intros s. apply R_readOnly.
Qed.

End Frame.

Lemma keeps_wpo R {A} (m : M A) s :
  keeps R m → wpo m (λ _, R s) (R s) s.
Proof. intros Hm. apply wpo_final, Hm. Qed.

(** What no recovery entry point changes: the initial-sync flag,
    [minValid], what the storage engine reports about its checkpoint, and
    read-only mode; the oplog is at most cut at its end, and the calls
    already made stay made. *)
Definition only_truncates (s s' : State) : Prop :=
  initialSyncFlag s' = initialSyncFlag s ∧
  minValid s' = minValid s ∧
  supportsRecoveryTimestamp s' = supportsRecoveryTimestamp s ∧
  recoveryTimestamp s' = recoveryTimestamp s ∧
  readOnly s' = readOnly s ∧
  match oplog s, oplog s' with
  | Some l, Some l' => l' `prefix_of` l
  | None, None => True
  | _, _ => False
  end ∧
  trace s `prefix_of` trace s'.

Lemma only_truncates_refl s : only_truncates s s.
Proof. unfold only_truncates. split_and!; try done. by destruct (oplog s). Qed.

Lemma only_truncates_trans s1 s2 s3 :
  only_truncates s1 s2 → only_truncates s2 s3 → only_truncates s1 s3.
Proof.
  intros (?&?&?&?&?&Hl&Ht) (?&?&?&?&?&Hl'&Ht').
  unfold only_truncates. split_and!; try congruence.
  - destruct (oplog s1), (oplog s2), (oplog s3); try done. by etrans.
  - by etrans.
Qed.

(** X4: however [recoverFromOplog] and [recoverFromOplogUpTo] end
    (return, exception or fatal site), the oplog they leave is a prefix of
    the oplog they found: recovery only ever cuts the end of the log, it
    never adds, reorders or drops a record in the middle.  The
    initial-sync flag, [minValid], the engine's recovery timestamp and
    read-only mode are as they were, and the calls made before stay in the
    trace. *)
Theorem recovery_only_truncates (applier : OplogApplier)
  (stableTimestamp : option Timestamp) (endPoint : Timestamp) (s : State) :
  only_truncates s (final_state (recoverFromOplog stableTimestamp s)) ∧
  only_truncates s (final_state (recoverFromOplogUpTo endPoint s)).
Proof.
  split.
  - apply (keeps_recoverFromOplog only_truncates);
      [apply only_truncates_refl|apply only_truncates_trans|..].
    all: intros; unfold only_truncates; cbn; split_and!; try done.
    all: try by destruct (oplog _).
    all: try by apply prefix_app_r.
    destruct (oplog _); [|done]. apply truncate_after_prefix.
  - apply (keeps_recoverFromOplogUpTo only_truncates);
      [apply only_truncates_refl|apply only_truncates_trans|..].
    all: intros; unfold only_truncates; cbn; split_and!; try done.
    all: try by destruct (oplog _).
    all: try by apply prefix_app_r.
    destruct (oplog _); [|done]. apply truncate_after_prefix.
Qed.

(** ** What a replay applies *)

(** What the replay functions leave alone: everything but
    [appliedThrough] and the trace. *)
Definition replay_frame (s s' : State) : Prop :=
  initialSyncFlag s' = initialSyncFlag s ∧
  minValid s' = minValid s ∧
  oplogTruncateAfterPoint s' = oplogTruncateAfterPoint s ∧
  oplog s' = oplog s ∧
  supportsRecoveryTimestamp s' = supportsRecoveryTimestamp s ∧
  recoveryTimestamp s' = recoveryTimestamp s ∧
  inReplicationRecovery s' = inReplicationRecovery s ∧
  readOnly s' = readOnly s.

Lemma replay_frame_refl s : replay_frame s s.
Proof. by unfold replay_frame. Qed.

Lemma replay_frame_trans s1 s2 s3 :
  replay_frame s1 s2 → replay_frame s2 s3 → replay_frame s1 s3.
Proof.
  intros (?&?&?&?&?&?&?&?) (?&?&?&?&?&?&?&?).
  unfold replay_frame. split_and!; congruence.
Qed.

(** The optime of the last entry of [l], [d] when there is none. *)
Definition last_optime (l : list OplogEntry) (d : OpTime) : OpTime :=
  match l with
  | [] => d
  | _ :: _ => getOpTime (List.last l (mkEntry 0 0 (-1)))
  end.

Lemma last_optime_snoc l x d : last_optime (l ++ [x]) d = getOpTime x.
Proof.
  unfold last_optime. destruct (l ++ [x]) eqn:Heq.
  - by destruct l.
  - by rewrite <- Heq, last_last.
Qed.

Lemma last_optime_app l1 l2 d :
  last_optime (l1 ++ l2) d = last_optime l2 (last_optime l1 d).
Proof.
  destruct l2 as [|x l2 _] using rev_ind; [by rewrite app_nil_r|].
  by rewrite app_assoc, !last_optime_snoc.
Qed.

Section ReplayMore.
Context {applier : OplogApplier}.

(** The loop, when it returns: it applied a prefix of the buffer and
    holds the optime of the last entry it applied. *)
Lemma wpo_apply_batches fuel buffer opt s :
  (length buffer ≤ fuel)%nat →
  wpo (apply_batches fuel buffer opt)
      (λ r s', ∃ n,
         r.2 = drop n buffer ∧
         applied_entries (trace s') = applied_entries (trace s) ++ take n buffer ∧
         r.1 = last_optime (take n buffer) opt ∧
         replay_frame s s' ∧ appliedThrough s' = appliedThrough s)
      (λ _, True) s.
Proof.
  revert buffer opt s.
  induction fuel as [|fuel IH]; intros buffer opt s Hfuel;
    cbn [apply_batches]; unfold getNextApplierBatch.
  - destruct buffer; [|simpl in Hfuel; lia].
    repeat wpo_step; try done.
    all: exists 0%nat; cbn; rewrite ?app_nil_r, ?drop_nil; split_and!; try done.
    all: apply replay_frame_refl.
  - wpo_step. wpo_step; [|by wpo_step]. wpo_step.
    destruct (take (batch_size buffer) buffer) as [|b batch] eqn:Hbatch.
    { wpo_step. exists (batch_size buffer). cbn [fst snd].
      by rewrite Hbatch, app_nil_r. }
    wpo_step. unfold applyOplogBatch.
    wpo_step; [|by wpo_step].
    wpo_step. wpo_step. wpo_step.
    assert (length (drop (batch_size buffer) buffer) ≤ fuel)%nat as Hlen.
    { rewrite length_drop.
      assert (batch_size buffer ≠ 0)%nat by (intros E; by rewrite E, take_0 in Hbatch).
      destruct buffer; [by rewrite take_nil in Hbatch|]. simpl in Hfuel |- *. lia. }
    eapply wpo_mono; [by apply IH| |done].
    intros [opt' buf'] s' (n & Hbuf & Happ & Hopt & Hframe & Hat).
    cbn [fst snd] in *.
    exists (batch_size buffer + n)%nat.
    assert (take (batch_size buffer + n) buffer =
            (b :: batch) ++ take n (drop (batch_size buffer) buffer)) as Htake
      by (by rewrite <- Hbatch, take_take_drop).
    split_and!.
    + by rewrite Hbuf, drop_drop.
    + rewrite Happ. cbn [add_event trace].
      rewrite applied_entries_app.
      change (applied_entries [EvApplyOplogBatch (b :: batch)]) with ((b :: batch) ++ []).
      by rewrite app_nil_r, <- app_assoc, Htake.
    + by rewrite Hopt, Htake, last_optime_app.
    + done.
    + done.
Qed.

(** The whole replay, when it returns. *)
Definition replayed (start endPoint : Timestamp) (s : State) (t : Timestamp)
  (s' : State) : Prop :=
  ∃ first rest,
    oplog_query start (Some endPoint) (oplog s) = first :: rest ∧
    e_ts first = start ∧
    applied_entries (trace s') = applied_entries (trace s) ++ rest ∧
    replay_frame s s' ∧
    t = getTimestamp (last_optime rest OpTime_null) ∧
    appliedThrough s' =
      (if ts_isNull t then appliedThrough s else last_optime rest OpTime_null).

Lemma wpo_applyOplogOperations start endPoint s :
  wpo (_applyOplogOperations start endPoint) (replayed start endPoint s)
      (λ _, True) s.
Proof.
  unfold _applyOplogOperations, startup.
  wpo_step. wpo_step. wpo_step.
  destruct (oplog_query start (Some endPoint) (oplog s)) as [|first rest] eqn:Hq;
    [by wpo_step|].
  cbn [getOpTime getTimestamp].
  destruct (Z.eqb_spec (e_ts first) start) as [Hfirst|_]; cbn [negb]; [|by wpo_step].
  wpo_step. wpo_step.
  eapply wpo_mono; [by apply (wpo_apply_batches (length rest) rest)| |done].
  intros [opt buf'] s' (n & Hbuf & Happ & Hopt & Hframe & Hat). cbn [fst snd] in *.
  wpo_step. wpo_step; [|done].
  match goal with Hx : bool_decide _ = true |- _ => apply bool_decide_eq_true_1 in Hx;
    rename Hx into Hempty end.
  assert (take n rest = rest) as Hall.
  { apply take_ge, drop_nil_inv. by rewrite <- Hbuf, Hempty. }
  rewrite Hall in *. subst opt.
  destruct (ot_isNull (last_optime rest OpTime_null)) eqn:Hnull.
  - wpo_step. exists first, rest. unfold ot_isNull, ts_isNull in Hnull.
    apply Z.eqb_eq in Hnull.
    split_and!; try done.
  - repeat wpo_step. exists first, rest. unfold ot_isNull in Hnull.
    cbn [set_appliedThrough add_event trace appliedThrough].
    split_and!; try done.
    + rewrite applied_entries_app. cbn [applied_entries omap concat].
      by rewrite app_nil_r.
    + by rewrite Hnull.
Qed.

(** X5: when [_applyOplogOperations] returns, the query over
    [[startPoint, endPoint]] began with an entry at [startPoint] exactly,
    and the batches applied all the entries after it, in order, each once.
    The value returned is the timestamp of the last entry applied, null
    when there was none; [appliedThrough] is the optime of that entry, and
    is left alone when the timestamp returned is null.  The oplog and the
    truncate-after point are untouched. *)
Theorem applyOplogOperations_ret (startPoint endPoint : Timestamp) (s : State)
  (t : Timestamp) (s' : State) :
  _applyOplogOperations startPoint endPoint s = Ret t s' →
  ∃ first rest,
    oplog_query startPoint (Some endPoint) (oplog s) = first :: rest ∧
    e_ts first = startPoint ∧
    applied_entries (trace s') = applied_entries (trace s) ++ rest ∧
    oplog s' = oplog s ∧
    oplogTruncateAfterPoint s' = oplogTruncateAfterPoint s ∧
    t = getTimestamp (last_optime rest OpTime_null) ∧
    appliedThrough s' =
      (if ts_isNull t then appliedThrough s else last_optime rest OpTime_null).
Proof.
  intros Hrun.
  destruct (wpo_Ret _ _ _ _ _ _ (wpo_applyOplogOperations startPoint endPoint s) Hrun)
    as (first & rest & Hq & Hfirst & Happ & Hframe & Ht & Hat).
  exists first, rest. destruct Hframe as (_ & _ & Hpoint & Hlog & _).
  by split_and!.
Qed.

(** What [_applyToEndOfOplog] has done when it returns. *)
Definition applied_to_top (start top : Timestamp) (s s' : State) : Prop :=
  (start = top ∧ s' = s) ∨
  (start < top ∧ replay_frame s s' ∧
   ∃ first rest,
     oplog_query start (Some top) (oplog s) = first :: rest ∧
     e_ts first = start ∧
     rest ≠ [] ∧
     applied_entries (trace s') = applied_entries (trace s) ++ rest ∧
     appliedThrough s' = last_optime rest OpTime_null ∧
     getTimestamp (appliedThrough s') = top).

Lemma wpo_applyToEndOfOplog start top s :
  wpo (_applyToEndOfOplog start top) (λ _, applied_to_top start top s) (λ _, True) s.
Proof.
  unfold _applyToEndOfOplog.
  wpo_step. wpo_step; [|done]. wpo_step. wpo_step; [|done].
  destruct (Z.eqb_spec start top) as [Heq|Hne]; [wpo_step; by left|].
  destruct (Z.gtb_spec start top) as [Hgt|Hle]; [by wpo_step|].
  wpo_step.
  eapply wpo_mono; [apply wpo_applyOplogOperations| |done].
  intros t s' (first & rest & Hq & Hfirst & Happ & Hframe & Ht & Hat).
  wpo_step. wpo_step; [|done]. wpo_step; [|done].
  match goal with Hx : negb (ts_isNull t) = true |- _ =>
    apply negb_true_iff in Hx; rewrite Hx in Hat end.
  match goal with Hx : (t =? top) = true |- _ => apply Z.eqb_eq in Hx; subst top end.
  right. split; [lia|]. split; [done|].
  exists first, rest. split_and!; try done.
  - intros ->. cbn in Ht. subst t. done.
  - by rewrite Hat.
Qed.

(** X6: when [_applyToEndOfOplog] returns, either the start point was the
    top of the oplog and nothing at all was done, or the start point was
    before it, the entries after the start point were applied up to an
    entry at the top exactly, and [appliedThrough] is the optime of that
    entry, so that its timestamp is the top of the oplog. *)
Theorem applyToEndOfOplog_ret (oplogApplicationStartPoint topOfOplog : Timestamp)
  (s s' : State) :
  _applyToEndOfOplog oplogApplicationStartPoint topOfOplog s = Ret tt s' →
  (oplogApplicationStartPoint = topOfOplog ∧ s' = s) ∨
  (oplogApplicationStartPoint < topOfOplog ∧
   oplog s' = oplog s ∧
   ∃ first rest,
     oplog_query oplogApplicationStartPoint (Some topOfOplog) (oplog s)
       = first :: rest ∧
     rest ≠ [] ∧
     applied_entries (trace s') = applied_entries (trace s) ++ rest ∧
     appliedThrough s' = last_optime rest OpTime_null ∧
     getTimestamp (appliedThrough s') = topOfOplog).
Proof.
  intros Hrun.
  destruct (wpo_Ret _ _ _ _ _ _
              (wpo_applyToEndOfOplog oplogApplicationStartPoint topOfOplog s) Hrun)
    as [?|(Hlt & Hframe & first & rest & Hq & _ & Hne & Happ & Hat & Hts)];
    [by left|right].
  split; [done|]. split; [by destruct Hframe as (_ & _ & _ & ? & _)|].
  by exists first, rest.
Qed.

(** Whatever way the replay ends, what it has applied lies in
    [[startPoint, endPoint]]. *)
Lemma applyOplogOperations_applied start endPoint s :
  ∃ new,
    applied_entries (trace (final_state (_applyOplogOperations start endPoint s))) =
      applied_entries (trace s) ++ new ∧
    Forall (λ e, start ≤ e_ts e ≤ endPoint) new.
Proof.
  assert (∀ n rest first,
            oplog_query start (Some endPoint) (oplog s) = first :: rest →
            Forall (λ e, start ≤ e_ts e ≤ endPoint) (take n rest)) as Hin.
  { intros n rest first Hq. apply Forall_forall. intros e He.
    assert (e ∈ oplog_query start (Some endPoint) (oplog s)) as Hq'.
    { rewrite Hq, <- (take_drop n rest). apply elem_of_cons. right.
      apply elem_of_app. by left. }
    unfold oplog_query in Hq'. apply list_elem_of_In, filter_In in Hq' as [_ Hq'].
    apply andb_true_iff in Hq' as [?%Z.leb_le ?%Z.leb_le]. lia. }
  unfold _applyOplogOperations, startup. run.
  destruct (oplog_query start (Some endPoint) (oplog s)) as [|first rest] eqn:Hq;
    [exists []; by rewrite app_nil_r|].
  cbn [getOpTime getTimestamp].
  destruct (e_ts first =? start); run; [|exists []; by rewrite app_nil_r].
  destruct (apply_batches_prefix (length rest) rest OpTime_null s (le_n _))
    as (n & Happ & _).
  exists (take n rest). split; [|by eapply Hin].
  destruct (apply_batches (length rest) rest OpTime_null s)
    as [[opt buffer'] s'| |]; run; [|done..].
  cbn [final_state] in Happ.
  case_bool_decide; run; [|done].
  destruct (ot_isNull opt); run; [done|].
  unfold setAppliedThrough. run. cbn [add_event trace set_appliedThrough].
  rewrite applied_entries_app. cbn [applied_entries omap concat].
  by rewrite app_nil_r.
Qed.

(** What the truncation step leaves alone. *)
Definition truncate_frame (s s' : State) : Prop :=
  applied_entries (trace s') = applied_entries (trace s) ∧
  appliedThrough s' = appliedThrough s ∧
  initialSyncFlag s' = initialSyncFlag s ∧
  supportsRecoveryTimestamp s' = supportsRecoveryTimestamp s ∧
  recoveryTimestamp s' = recoveryTimestamp s ∧
  inReplicationRecovery s' = inReplicationRecovery s.

Lemma truncate_frame_truncateIfNeeded stable :
  keeps truncate_frame (_truncateOplogIfNeededAndThenClearOplogTruncateAfterPoint stable).
Proof.
  apply keeps_truncateIfNeeded.
  - by intros s.
  - intros s1 s2 s3 (?&?&?&?&?&?) (?&?&?&?&?&?).
    unfold truncate_frame. split_and!; congruence.
  - intros s ev Hev. unfold truncate_frame.
    cbn [add_event trace appliedThrough initialSyncFlag supportsRecoveryTimestamp
         recoveryTimestamp inReplicationRecovery].
    split_and!; try done.
    rewrite applied_entries_app. destruct ev; cbn; rewrite ?app_nil_r; try done.
    by destruct (Hev batch).
  - by intros s t.
  - by intros s r inclusive.
Qed.

(** X7: whatever way [recoverFromOplogUpTo] ends, every entry it has
    applied has its timestamp between the timestamp of [appliedThrough] at
    entry and the end point: recovery up to a point never applies an
    entry beyond that point. *)
Theorem recoverFromOplogUpTo_bounded (endPoint : Timestamp) (s : State) :
  ∃ new,
    applied_entries (trace (final_state (recoverFromOplogUpTo endPoint s))) =
      applied_entries (trace s) ++ new ∧
    Forall (λ e, getTimestamp (appliedThrough s) ≤ e_ts e ≤ endPoint) new.
Proof.
  set (P := λ s' : State, ∃ new,
         applied_entries (trace s') = applied_entries (trace s) ++ new ∧
         Forall (λ e, getTimestamp (appliedThrough s) ≤ e_ts e ≤ endPoint) new).
  assert (∀ s', applied_entries (trace s') = applied_entries (trace s) → P s') as Hsame.
  { intros s' Hs'. exists []. by rewrite app_nil_r. }
  apply (wpo_final _ P). unfold recoverFromOplogUpTo.
  wpo_step. wpo_step. wpo_step. wpo_step. wpo_step; [|by apply Hsame].
  wpo_step.
  eapply wpo_mono;
    [apply (keeps_wpo eq), keeps_recoverFromOplogPrecursor; [done|congruence]
    | |by intros ? <-; apply Hsame].
  intros recoveryTS ? <-. cbv beta.
  destruct recoveryTS as [r|]; [|wpo_step; by apply Hsame].
  wpo_step.
  eapply wpo_mono;
    [apply (keeps_wpo truncate_frame), truncate_frame_truncateIfNeeded
    | |by intros ? (? & _); apply Hsame].
  intros [] s1 (Happ1 & Hat1 & _). cbv beta.
  wpo_step. wpo_step. wpo_step. rewrite Hat1.
  wpo_step; [wpo_step; by apply Hsame|].
  wpo_step. wpo_step; [|by apply Hsame].
  wpo_step; [wpo_step; by apply Hsame|].
  wpo_step; [wpo_step; by apply Hsame|].
  wpo_step.
  destruct (applyOplogOperations_applied (getTimestamp (appliedThrough s)) endPoint s1)
    as (new & Hnew & Hall).
  assert (∀ s2, applied_entries (trace s2) =
                applied_entries
                  (trace (final_state
                     (_applyOplogOperations (getTimestamp (appliedThrough s))
                        endPoint s1))) → P s2) as Hend.
  { intros s2 Hs2. exists new. by rewrite Hs2, Hnew, Happ1. }
  eapply wpo_mono;
    [apply (wpo_final _ (λ s2, s2 = final_state
                (_applyOplogOperations (getTimestamp (appliedThrough s)) endPoint s1)));
     reflexivity
    | |by intros ? ->; apply Hend].
  intros t s2 Hs2. cbv beta.
  wpo_step.
  eapply (wpo_mono _ (λ _ s3, s3 = s2) _ (λ s3, s3 = s2));
    [| |intros ? ->; apply Hend; by rewrite <- Hs2].
  { wpo_step; [by wpo_step|]. by wpo_step. }
  intros [] ? ->. repeat wpo_step. apply Hend. rewrite <- Hs2.
  cbn [add_event trace]. rewrite applied_entries_app. cbn. by rewrite app_nil_r.
Qed.

(** X8: with no truncation pending and a stable checkpoint,
    [recoverFromOplogUpTo] has nothing to do when [appliedThrough] is null
    or already at the end point: it returns with the state untouched, and
    without reconstructing prepared transactions.  With [appliedThrough]
    beyond the end point it throws [BadValue], and with a null end point
    the invariant fails; the state is untouched there too. *)
Theorem recoverFromOplogUpTo_nothing_to_apply (endPoint r : Timestamp) (s : State) :
  initialSyncFlag s = false →
  supportsRecoveryTimestamp s = true →
  recoveryTimestamp s = Some r →
  r ≠ Timestamp_null →
  oplogTruncateAfterPoint s = Timestamp_null →
  (getTimestamp (appliedThrough s) = Timestamp_null →
   recoverFromOplogUpTo endPoint s = Ret tt s) ∧
  (getTimestamp (appliedThrough s) ≠ Timestamp_null →
   (endPoint = Timestamp_null →
    recoverFromOplogUpTo endPoint s = Fatal InvariantFailure s) ∧
   (getTimestamp (appliedThrough s) = endPoint →
    recoverFromOplogUpTo endPoint s = Ret tt s) ∧
   (endPoint ≠ Timestamp_null → endPoint < getTimestamp (appliedThrough s) →
    recoverFromOplogUpTo endPoint s = Throw BadValue s)).
Proof.
  intros Hflag Hsup Hrec Hr Hpoint.
  assert (recoverFromOplogUpTo endPoint s =
            (at_ ← getAppliedThrough;
             let startPoint := getTimestamp at_ in
             if ts_isNull startPoint then mret tt
             else
               invariant (negb (ts_isNull endPoint));;
               if startPoint =? endPoint then mret tt
               else if startPoint >? endPoint then uasserted BadValue
               else
                 appliedUpTo ← _applyOplogOperations startPoint endPoint;
                 (if ts_isNull appliedUpTo then mret tt
                  else invariant (appliedUpTo <=? endPoint));;
                 reconstructPreparedTransactions) s) as Hhead.
  { unfold recoverFromOplogUpTo, getInitialSyncFlag, recoverFromOplogPrecursor.
    run. rewrite Hflag. run. rewrite Hsup. run. rewrite Hrec.
    unfold ts_isNull at 1. destruct (Z.eqb_spec r 0) as [|_]; [done|]. run.
    by rewrite truncateIfNeeded_null. }
  rewrite Hhead. clear Hhead.
  unfold getAppliedThrough, ts_isNull. run.
  split.
  - intros ->. by run.
  - intros Hat. destruct (Z.eqb_spec (getTimestamp (appliedThrough s)) 0) as [|_]; [done|].
    split_and!.
    + intros ->. by run.
    + intros <-. destruct (Z.eqb_spec (getTimestamp (appliedThrough s)) 0) as [|_];
        [done|]. run. by rewrite Z.eqb_refl.
    + intros Hend Hlt. destruct (Z.eqb_spec endPoint 0) as [|_]; [done|]. run.
      destruct (Z.eqb_spec (getTimestamp (appliedThrough s)) endPoint); [lia|].
      destruct (Z.gtb_spec (getTimestamp (appliedThrough s)) endPoint); [done|lia].
Qed.

(** ** What a recovery that returns has established *)

Lemma wpo_conj {A} (m : M A) Q1 Q2 Z1 Z2 s :
  wpo m Q1 Z1 s → wpo m Q2 Z2 s →
  wpo m (λ a s', Q1 a s' ∧ Q2 a s') (λ s', Z1 s' ∧ Z2 s') s.
Proof. unfold wpo. by destruct (m s). Qed.

Lemma wpo_catch_all_terminate {A} (body : M A) Q Z s :
  wpo body Q Z s → wpo (catch_all_terminate body) Q Z s.
Proof. unfold wpo, catch_all_terminate. by destruct (body s). Qed.

Lemma wpo_on_block_exit {A} (guard : M unit) (body : M A) Q s :
  wpo body (λ a s', wpo guard (λ _ s'', Q a s'') (λ _, True) s') (λ _, True) s →
  wpo (on_block_exit guard body) Q (λ _, True) s.
Proof.
  unfold wpo, on_block_exit.
  destruct (body s) as [a s'|f s'|e s']; [|done|by destruct (guard s')].
  by destruct (guard s').
Qed.

Lemma getTopOfOplog_oplog s s' :
  oplog s' = oplog s → _getTopOfOplog s' = _getTopOfOplog s.
Proof. unfold _getTopOfOplog. by intros ->. Qed.

Lemma wpo_recoverFromUnstableCheckpoint at_ top s :
  wpo (_recoverFromUnstableCheckpoint at_ top)
      (λ _ s', ot_isNull top = false ∧ appliedThrough s' = top ∧ replay_frame s s')
      (λ _, True) s.
Proof.
  unfold _recoverFromUnstableCheckpoint.
  wpo_step. wpo_step; [|done].
  match goal with Hx : negb (ot_isNull top) = true |- _ =>
    apply negb_true_iff in Hx; rename Hx into Htop end.
  wpo_step.
  eapply (wpo_mono _ (λ _ s1, replay_frame s s1) _ (λ _, True)); [| |done].
  { wpo_step; [by wpo_step|].
    wpo_step. wpo_step. wpo_step.
    eapply wpo_mono; [apply wpo_applyToEndOfOplog| |done].
    intros [] s1 [[_ ->]|(_ & Hframe & _)]; [done|].
    eapply replay_frame_trans; [|exact Hframe]. done. }
  intros [] s1 Hframe. repeat wpo_step.
  split_and!; [done|done|].
  eapply replay_frame_trans; [exact Hframe|]. done.
Qed.

Lemma wpo_recoverFromStableTimestamp stable at_ top s :
  wpo (_recoverFromStableTimestamp stable at_ top)
      (λ _ s', ot_isNull top = false ∧ ts_isNull stable = false ∧ replay_frame s s' ∧
               ((stable = getTimestamp top ∧ appliedThrough s' = appliedThrough s) ∨
                getTimestamp (appliedThrough s') = getTimestamp top))
      (λ _, True) s.
Proof.
  unfold _recoverFromStableTimestamp.
  wpo_step. wpo_step; [|done]. wpo_step. wpo_step; [|done].
  repeat match goal with Hx : negb _ = true |- _ => apply negb_true_iff in Hx end.
  wpo_step. wpo_step. wpo_step.
  eapply wpo_mono; [apply wpo_applyToEndOfOplog| |done].
  intros [] s1 [[Heq ->]|(_ & Hframe & first & rest & _ & _ & _ & _ & _ & Hts)].
  - split_and!; [done|done|apply replay_frame_refl|by left].
  - split_and!; [done|done|done|by right].
Qed.

(** The stable timestamp [recoverFromOplog] works with: the one passed
    in, or else the engine's recovery timestamp when it supports one. *)
Definition resolved_stableTimestamp (stable : option Timestamp) (s : State)
  : option Timestamp :=
  if bool_decide (stable = None) && supportsRecoveryTimestamp s
  then recoveryTimestamp s else stable.

Definition recovered (stable : option Timestamp) (s s' : State) : Prop :=
  if initialSyncFlag s then s' = s
  else
    inReplicationRecovery s' = false ∧
    oplogTruncateAfterPoint s' = Timestamp_null ∧
    initialSyncFlag s' = false ∧
    supportsRecoveryTimestamp s' = supportsRecoveryTimestamp s ∧
    recoveryTimestamp s' = recoveryTimestamp s ∧
    ∀ top, _getTopOfOplog s' = inr top →
      ot_isNull top = false ∧
      match resolved_stableTimestamp stable s with
      | None => appliedThrough s' = top
      | Some _ =>
          ot_isNull (appliedThrough s') = true ∨
          getTimestamp (appliedThrough s') = getTimestamp top
      end.

Lemma wpo_recoverFromOplog stable s :
  wpo (recoverFromOplog stable) (λ _ s', recovered stable s s') (λ _, True) s.
Proof.
  unfold recoverFromOplog, recovered, getInitialSyncFlag.
  apply wpo_catch_all_terminate.
  wpo_step. wpo_step. destruct (initialSyncFlag s) eqn:Hflag; [by wpo_step|].
  wpo_step. wpo_step. apply wpo_on_block_exit.
  set (s0 := set_inReplicationRecovery true s).
  (* the guard, run from a state the body has left *)
  assert (∀ s3 (P : State → Prop),
            inReplicationRecovery s3 = true →
            P (set_inReplicationRecovery false s3) →
            wpo (inRecovery ← gets inReplicationRecovery;
                 invariant inRecovery;;
                 modify (set_inReplicationRecovery false))
                (λ _, P) (λ _, True) s3) as Hguard.
  { intros s3 P Hrec HP. wpo_step. wpo_step. rewrite Hrec.
    wpo_step. wpo_step; [|done]. by wpo_step. }
  wpo_step. wpo_step.
  change (supportsRecoveryTimestamp s0) with (supportsRecoveryTimestamp s).
  wpo_step.
  eapply (wpo_mono _ (λ st s1, s1 = s0 ∧ st = resolved_stableTimestamp stable s)
            _ (λ _, True)); [| |done].
  { unfold resolved_stableTimestamp.
    destruct (bool_decide (stable = None) && supportsRecoveryTimestamp s);
      by wpo_step. }
  intros st ? [-> ->]. cbv beta.
  wpo_step. unfold getAppliedThrough. wpo_step.
  change (appliedThrough s0) with (appliedThrough s).
  wpo_step. wpo_step; [|done].
  match goal with Hx : _ = true |- _ => rename Hx into Hinv end.
  wpo_step.
  eapply wpo_mono;
    [apply wpo_conj;
      [apply truncateIfNeeded_clears
      |apply (keeps_wpo truncate_frame), truncate_frame_truncateIfNeeded]
    | |done].
  intros [] s2 (Hpoint & _ & Hat2 & Hflag2 & Hsup2 & Hrec2 & Hin2). cbv beta.
  cbn [s0 set_inReplicationRecovery appliedThrough initialSyncFlag
       supportsRecoveryTimestamp recoveryTimestamp inReplicationRecovery]
    in Hat2, Hflag2, Hsup2, Hrec2, Hin2.
  wpo_step. wpo_step.
  destruct (_getTopOfOplog s2) as [st|top] eqn:Htop.
  { wpo_step. apply Hguard; [done|]. cbn. split_and!; try done; try congruence.
    intros top Htop'. rewrite (getTopOfOplog_oplog s2) in Htop' by done. congruence. }
  destruct (resolved_stableTimestamp stable s) as [T|] eqn:Hres.
  - wpo_step. wpo_step; [|done].
    eapply wpo_mono; [apply wpo_recoverFromStableTimestamp| |done].
    intros [] s3 (Hnn & HT & Hframe & Hdone).
    destruct Hframe as (Hf3 & _ & Hp3 & Hl3 & Hs3 & Hr3 & Hi3 & _).
    apply Hguard; [congruence|]. cbn. split_and!; try congruence.
    intros top' Htop'. rewrite (getTopOfOplog_oplog s2) in Htop' by done.
    assert (top' = top) as -> by congruence. split; [done|].
    destruct Hdone as [[-> Hat3]|Hts]; [|by right].
    rewrite Hat3, Hat2. rewrite HT in Hinv. cbn [orb] in Hinv.
    apply orb_true_iff in Hinv as [Hnull|Heq]; [by left|right].
    by apply Z.eqb_eq in Heq.
  - eapply wpo_mono; [apply wpo_recoverFromUnstableCheckpoint| |done].
    intros [] s3 (Hnn & Hat3 & Hframe).
    destruct Hframe as (Hf3 & _ & Hp3 & Hl3 & Hs3 & Hr3 & Hi3 & _).
    apply Hguard; [congruence|]. cbn. split_and!; try congruence.
    intros top' Htop'. rewrite (getTopOfOplog_oplog s2) in Htop' by done.
    assert (top' = top) as -> by congruence. done.
Qed.

(** X9: when [recoverFromOplog] returns: with the initial-sync flag set
    it has touched nothing; otherwise the in-recovery flag is down again,
    the truncate-after point is null, and, the oplog not being empty,
    [appliedThrough] is null or has the timestamp of the top of the oplog
    that is left. *)
Theorem recoverFromOplog_ret (stableTimestamp : option Timestamp) (s s' : State) :
  recoverFromOplog stableTimestamp s = Ret tt s' →
  if initialSyncFlag s then s' = s
  else
    inReplicationRecovery s' = false ∧
    oplogTruncateAfterPoint s' = Timestamp_null ∧
    ∀ top, _getTopOfOplog s' = inr top →
      ot_isNull (appliedThrough s') = true ∨
      getTimestamp (appliedThrough s') = getTimestamp top.
Proof.
  intros Hrun.
  pose proof (wpo_Ret _ _ _ _ _ _ (wpo_recoverFromOplog stableTimestamp s) Hrun) as Hpost.
  unfold recovered in Hpost. destruct (initialSyncFlag s); [done|].
  destruct Hpost as (Hin & Hpoint & _ & _ & _ & Htop).
  split_and!; [done|done|].
  intros top Hget. destruct (Htop top Hget) as [_ Hat].
  destruct (resolved_stableTimestamp stableTimestamp s); [done|].
  right. by rewrite Hat.
Qed.

(** X10: startup recovery without a stable checkpoint can be run again.
    When it has returned, [appliedThrough] is the optime of the top of the
    oplog, and a second run returns as well: it replays nothing, and
    leaves the oplog and [appliedThrough] as the first run left them. *)
Theorem recoverFromOplog_unstable_twice (s s1 : State) :
  initialSyncFlag s = false →
  recoveryTimestamp s = None →
  recoverFromOplog None s = Ret tt s1 →
  (∀ top, _getTopOfOplog s1 = inr top → appliedThrough s1 = top) ∧
  ∃ s2,
    recoverFromOplog None s1 = Ret tt s2 ∧
    applied_entries (trace s2) = applied_entries (trace s1) ∧
    appliedThrough s2 = appliedThrough s1 ∧
    oplog s2 = oplog s1.
Proof.
  intros Hflag Hrec Hrun.
  pose proof (wpo_Ret _ _ _ _ _ _ (wpo_recoverFromOplog None s) Hrun) as Hpost.
  unfold recovered, resolved_stableTimestamp in Hpost.
  rewrite Hflag, Hrec in Hpost.
  replace (if bool_decide (None = None) && supportsRecoveryTimestamp s
           then None else None) with (@None Timestamp) in Hpost
    by (by destruct (_ && _)).
  destruct Hpost as (Hin1 & Hpoint1 & Hflag1 & Hsup1 & Hrec1 & Htop1).
  split; [intros top Htop; by destruct (Htop1 top Htop)|].
  unfold recoverFromOplog, catch_all_terminate, getInitialSyncFlag, getAppliedThrough.
  run. rewrite Hflag1. run. unfold on_block_exit. run.
  set (s0 := set_inReplicationRecovery true s1).
  match goal with
  | |- context [(if ?c then ?a else ?b) s0] =>
      replace ((if c then a else b) s0) with (Ret (@None Timestamp) s0)
        by (destruct c; [unfold gets; f_equal; symmetry; exact Hrec1|done])
  end.
  run. rewrite truncateIfNeeded_null by done. run.
  rewrite (getTopOfOplog_oplog s1 s0) by done.
  destruct (_getTopOfOplog s1) as [st|top] eqn:Htop; run.
  { change (inReplicationRecovery s0) with true. run.
    eexists. split; [reflexivity|]. done. }
  destruct (Htop1 top eq_refl) as [Hnn Hat].
  change (appliedThrough s0) with (appliedThrough s1). rewrite Hat.
  unfold _recoverFromUnstableCheckpoint, _applyToEndOfOplog, setOldestTimestamp,
    setInitialDataTimestamp, setAppliedThrough, waitUntilUnjournaledWritesDurable.
  rewrite Hnn. run.
  assert (ts_isNull (getTimestamp top) = false) as -> by exact Hnn.
  run. rewrite Z.eqb_refl. run.
  cbn [inReplicationRecovery add_event set_appliedThrough s0 set_inReplicationRecovery].
  run.
  eexists. split; [reflexivity|].
  cbn [trace add_event set_appliedThrough set_inReplicationRecovery appliedThrough
       oplog s0].
  split_and!; [|done|done].
  rewrite !applied_entries_app. cbn. by rewrite !app_nil_r.
Qed.

(** ** Standalone recovery *)

Section Standalone.
Variables optime_ne optime_gt : OpTime → OpTime → bool.

(** The conditions under which no recovery is needed. *)
Definition no_recovery_needed (s : State) : Prop :=
  supportsRecoveryTimestamp s = true ∧
  recoveryTimestamp s = None ∧
  initialSyncFlag s = false ∧
  oplogTruncateAfterPoint s = Timestamp_null ∧
  ∃ top, _getTopOfOplog s = inr top ∧
         (ot_isNull (appliedThrough s) = true ∨
          optime_ne (appliedThrough s) top = false) ∧
         optime_gt (minValid s) top = false.

Lemma assertNoRecoveryNeeded_run s :
  _assertNoRecoveryNeededOnUnstableCheckpoint optime_ne optime_gt s = Ret tt s ↔
  no_recovery_needed s.
Proof.
  unfold _assertNoRecoveryNeededOnUnstableCheckpoint, no_recovery_needed,
    getInitialSyncFlag, getOplogTruncateAfterPoint, getAppliedThrough, ts_isNull.
  run.
  destruct (supportsRecoveryTimestamp s); run;
    [|split; [done|by intros (?&_)]].
  destruct (recoveryTimestamp s);
    [rewrite bool_decide_eq_false_2 by done|rewrite bool_decide_eq_true_2 by done];
    run; [split; [done|by intros (_&?&_)]|].
  destruct (initialSyncFlag s); run;
    [split; [done|by intros (_&_&?&_)]|].
  destruct (Z.eqb_spec (oplogTruncateAfterPoint s) 0) as [Hp|Hp]; run;
    [|split; [done|by intros (_&_&_&?&_)]].
  destruct (_getTopOfOplog s) as [st|top]; run;
    [split; [done|by intros (_&_&_&_&?&?&_)]|].
  destruct (ot_isNull (appliedThrough s)) eqn:Hnull; cbn [negb andb]; run.
  - destruct (optime_gt (minValid s) top) eqn:Hgt; run.
    + split; [done|]. intros (_&_&_&_&top'&[= <-]&_&?). congruence.
    + split; [|done]. intros _. split_and!; try done. exists top. by split_and!; [|left|].
  - destruct (optime_ne (appliedThrough s) top) eqn:Hne; run.
    + split; [done|]. intros (_&_&_&_&top'&[= <-]&[?|?]&_); congruence.
    + destruct (optime_gt (minValid s) top) eqn:Hgt; run.
      * split; [done|]. intros (_&_&_&_&top'&[= <-]&_&?). congruence.
      * split; [|done]. intros _. split_and!; try done. exists top.
        by split_and!; [|right|].
Qed.

(** X11: [_assertNoRecoveryNeededOnUnstableCheckpoint] only looks:
    however it ends, the state is as it was.  It returns exactly when the
    engine supports recovery timestamps and has none, the initial-sync
    flag is clear, the truncate-after point is null, the oplog has a top,
    [appliedThrough] is null or not different from that top, and
    [minValid] is not beyond it; otherwise it stops at a fatal site. *)
Theorem assertNoRecoveryNeeded_spec (s : State) :
  final_state (_assertNoRecoveryNeededOnUnstableCheckpoint optime_ne optime_gt s) = s ∧
  (_assertNoRecoveryNeededOnUnstableCheckpoint optime_ne optime_gt s = Ret tt s ↔
   supportsRecoveryTimestamp s = true ∧
   recoveryTimestamp s = None ∧
   initialSyncFlag s = false ∧
   oplogTruncateAfterPoint s = Timestamp_null ∧
   ∃ top, _getTopOfOplog s = inr top ∧
          (ot_isNull (appliedThrough s) = true ∨
           optime_ne (appliedThrough s) top = false) ∧
          optime_gt (minValid s) top = false) ∧
  ∀ e s', _assertNoRecoveryNeededOnUnstableCheckpoint optime_ne optime_gt s
          ≠ Throw e s'.
Proof.
  assert (final_state (_assertNoRecoveryNeededOnUnstableCheckpoint
                         optime_ne optime_gt s) = s) as Hfinal.
  { symmetry. apply (keeps_assertNoRecoveryNeeded eq); [done|congruence]. }
  split_and!; [done|apply assertNoRecoveryNeeded_run|].
  intros e s' Hthrow.
  unfold _assertNoRecoveryNeededOnUnstableCheckpoint, getInitialSyncFlag,
    getOplogTruncateAfterPoint, getAppliedThrough in Hthrow.
  revert Hthrow. run.
  destruct (supportsRecoveryTimestamp s); run; [|done].
  destruct (recoveryTimestamp s);
    [rewrite bool_decide_eq_false_2 by done|rewrite bool_decide_eq_true_2 by done];
    run; [done|].
  destruct (initialSyncFlag s); run; [done|].
  destruct (negb _); run; [done|].
  destruct (_getTopOfOplog s); run; [done|].
  destruct (_ && _); run; [done|].
  by destruct (optime_gt _ _).
Qed.

(** What a standalone recovery has done when it returns. *)
Lemma wpo_recoverFromOplogAsStandalone toggle s :
  wpo (recoverFromOplogAsStandalone optime_ne optime_gt toggle)
      (λ _ s',
         readOnly s' = true ∧
         (recoveryTimestamp s = None →
          toggle = true ∧ no_recovery_needed s ∧
          s' = set_readOnly true (add_event EvReconstructPreparedTransactions s)))
      (λ _, True) s.
Proof.
  unfold recoverFromOplogAsStandalone.
  wpo_step.
  eapply (wpo_mono _ (λ r s1, s1 = s ∧ r = recoveryTimestamp s) _ (λ _, True));
    [| |done].
  { unfold recoverFromOplogPrecursor. repeat wpo_step; done. }
  intros r ? [-> ->]. cbv beta.
  destruct (recoveryTimestamp s) as [t|] eqn:Hrec.
  - wpo_step. eapply wpo_mono; [apply wpo_any| |done].
    intros [] s1 _. by repeat wpo_step.
  - wpo_step. destruct toggle; [|by wpo_step].
    pose proof (assertNoRecoveryNeeded_run s) as Hiff.
    pose proof (keeps_assertNoRecoveryNeeded eq (λ _, eq_refl)
                  (λ _ _ _ H1 H2, eq_trans H1 H2) optime_ne optime_gt s) as Hsame.
    unfold wpo at 1.
    destruct (_assertNoRecoveryNeededOnUnstableCheckpoint optime_ne optime_gt s)
      as [[] s1| |]; [|done..].
    cbn [final_state] in Hsame. subst s1.
    repeat wpo_step. split; [done|]. intros _. split_and!; [done| |done].
    by apply Hiff.
Qed.

(** X12: [recoverFromOplogAsStandalone] returns only with the node in
    read-only mode.  Without a stable checkpoint it returns only under
    [takeUnstableCheckpointOnShutdown] and only when no recovery is needed;
    it has then done nothing but reconstruct the prepared transactions and
    set read-only mode: nothing truncated, nothing replayed, no marker
    written. *)
Theorem recoverFromOplogAsStandalone_ret (toggle : bool) (s s' : State) :
  recoverFromOplogAsStandalone optime_ne optime_gt toggle s = Ret tt s' →
  readOnly s' = true ∧
  (recoveryTimestamp s = None →
   toggle = true ∧
   s' = set_readOnly true (add_event EvReconstructPreparedTransactions s)).
Proof.
  intros Hrun.
  destruct (wpo_Ret _ _ _ _ _ _ (wpo_recoverFromOplogAsStandalone toggle s) Hrun)
    as [Hro Hnone].
  split; [done|]. intros Hrec. by destruct (Hnone Hrec) as (? & _ & ?).
Qed.

(** X13: under [takeUnstableCheckpointOnShutdown], a standalone recovery
    from an unstable checkpoint that has succeeded succeeds again when it
    is repeated, and again does nothing but reconstruct the prepared
    transactions. *)
Theorem recoverFromOplogAsStandalone_idempotent (s s' : State) :
  recoveryTimestamp s = None →
  recoverFromOplogAsStandalone optime_ne optime_gt true s = Ret tt s' →
  recoverFromOplogAsStandalone optime_ne optime_gt true s' =
    Ret tt (set_readOnly true (add_event EvReconstructPreparedTransactions s')).
Proof.
  intros Hrec Hrun.
  destruct (wpo_Ret _ _ _ _ _ _ (wpo_recoverFromOplogAsStandalone true s) Hrun)
    as [_ Hnone].
  destruct (Hnone Hrec) as (_ & Hneed & ->).
  set (s1 := set_readOnly true (add_event EvReconstructPreparedTransactions s)).
  assert (no_recovery_needed s1) as Hneed1 by exact Hneed.
  destruct Hneed1 as (Hsup & Hrec1 & _).
  apply assertNoRecoveryNeeded_run in Hneed.
  unfold recoverFromOplogAsStandalone, recoverFromOplogPrecursor. run.
  rewrite Hsup. run. rewrite Hrec1. run.
  assert (_assertNoRecoveryNeededOnUnstableCheckpoint optime_ne optime_gt s1
          = Ret tt s1) as ->.
  { apply assertNoRecoveryNeeded_run. exact (proj1 (assertNoRecoveryNeeded_run s) Hneed). }
  unfold reconstructPreparedTransactions. by run.
Qed.

End Standalone.

End ReplayMore.

(** A node that crashed after applying through 50: the log goes on to 70
    (and holds a ragged entry at 90 in the second state). *)
Definition sample_crashed_unstable : State :=
  sample_state (mkOpTime 50 1) 0 [entry 50; entry 60; entry 70] None.
Definition sample_recovered_unstable : State :=
  mkState false (mkOpTime 70 1) OpTime_null 0
    (Some [entry 50; entry 60; entry 70]) true None false false
    [EvSetOldestTimestamp 50; EvApplyOplogBatch [entry 60; entry 70];
     EvSetAppliedThrough (mkOpTime 70 1); EvSetInitialDataTimestamp 70;
     EvSetAppliedThrough (mkOpTime 70 1); EvWaitUntilUnjournaledWritesDurable].
Definition sample_crashed_stable : State :=
  sample_state (mkOpTime 50 1) 80 [entry 50; entry 60; entry 70; entry 90] (Some 50).
Definition sample_recovered_stable : State :=
  mkState false (mkOpTime 70 1) OpTime_null 0
    (Some [entry 50; entry 60; entry 70]) true (Some 50) false false
    [EvCappedTruncateAfter 90 true; EvSetOplogTruncateAfterPoint 0;
     EvWaitUntilDurable; EvApplyOplogBatch [entry 60; entry 70];
     EvSetAppliedThrough (mkOpTime 70 1)].

Lemma recoverFromOplog_ret_witness :
  recoverFromOplog (applier := whole_buffer_applier) (Some 50) sample_crashed_stable
    = Ret tt sample_recovered_stable ∧
  inReplicationRecovery sample_recovered_stable = false ∧
  oplogTruncateAfterPoint sample_recovered_stable = Timestamp_null ∧
  ∀ top, _getTopOfOplog sample_recovered_stable = inr top →
    ot_isNull (appliedThrough sample_recovered_stable) = true ∨
    getTimestamp (appliedThrough sample_recovered_stable) = getTimestamp top.
Proof.
  split; [vm_compute; reflexivity|].
  apply (recoverFromOplog_ret (applier := whole_buffer_applier) (Some 50)
           sample_crashed_stable sample_recovered_stable).
  vm_compute. reflexivity.
Defined.

Lemma recoverFromOplog_unstable_twice_witness :
  (∀ top, _getTopOfOplog sample_recovered_unstable = inr top →
          appliedThrough sample_recovered_unstable = top) ∧
  ∃ s2,
    recoverFromOplog (applier := whole_buffer_applier) None sample_recovered_unstable
      = Ret tt s2 ∧
    applied_entries (trace s2) = applied_entries (trace sample_recovered_unstable) ∧
    appliedThrough s2 = appliedThrough sample_recovered_unstable ∧
    oplog s2 = oplog sample_recovered_unstable.
Proof.
  apply (recoverFromOplog_unstable_twice (applier := whole_buffer_applier)
           sample_crashed_unstable sample_recovered_unstable).
  - reflexivity.
  - reflexivity.
  - vm_compute. reflexivity.
Defined.

(** Optimes compared on their timestamps alone. *)
Definition timestamp_ne (a b : OpTime) : bool :=
  negb (getTimestamp a =? getTimestamp b).
Definition timestamp_gt (a b : OpTime) : bool :=
  getTimestamp a >? getTimestamp b.

(** A node shut down cleanly with an unstable checkpoint. *)
Definition sample_clean_unstable : State :=
  sample_state (mkOpTime 70 1) 0 [entry 50; entry 70] None.

Lemma recoverFromOplogAsStandalone_ret_witness :
  readOnly (set_readOnly true
              (add_event EvReconstructPreparedTransactions sample_clean_unstable))
    = true ∧
  (recoveryTimestamp sample_clean_unstable = None →
   true = true ∧
   set_readOnly true
     (add_event EvReconstructPreparedTransactions sample_clean_unstable) =
   set_readOnly true
     (add_event EvReconstructPreparedTransactions sample_clean_unstable)).
Proof.
  apply (recoverFromOplogAsStandalone_ret (applier := whole_buffer_applier)
           timestamp_ne timestamp_gt true sample_clean_unstable).
  vm_compute. reflexivity.
Defined.

Lemma recoverFromOplogAsStandalone_idempotent_witness :
  recoverFromOplogAsStandalone (applier := whole_buffer_applier)
    timestamp_ne timestamp_gt true
    (set_readOnly true
       (add_event EvReconstructPreparedTransactions sample_clean_unstable)) =
  Ret tt
    (set_readOnly true
       (add_event EvReconstructPreparedTransactions
          (set_readOnly true
             (add_event EvReconstructPreparedTransactions sample_clean_unstable)))).
Proof.
  apply (recoverFromOplogAsStandalone_idempotent (applier := whole_buffer_applier)
           timestamp_ne timestamp_gt sample_clean_unstable).
  - reflexivity.
  - vm_compute. reflexivity.
Defined.

Lemma recoverFromOplogUpTo_nothing_to_apply_witness :
  (getTimestamp (mkOpTime 80 1) = Timestamp_null →
   recoverFromOplogUpTo (applier := whole_buffer_applier) 70
     (sample_state (mkOpTime 80 1) 0 [entry 50; entry 80] (Some 50)) =
   Ret tt (sample_state (mkOpTime 80 1) 0 [entry 50; entry 80] (Some 50))) ∧
  (getTimestamp (mkOpTime 80 1) ≠ Timestamp_null →
   (70 = Timestamp_null →
    recoverFromOplogUpTo (applier := whole_buffer_applier) 70
      (sample_state (mkOpTime 80 1) 0 [entry 50; entry 80] (Some 50)) =
    Fatal InvariantFailure
      (sample_state (mkOpTime 80 1) 0 [entry 50; entry 80] (Some 50))) ∧
   (getTimestamp (mkOpTime 80 1) = 70 →
    recoverFromOplogUpTo (applier := whole_buffer_applier) 70
      (sample_state (mkOpTime 80 1) 0 [entry 50; entry 80] (Some 50)) =
    Ret tt (sample_state (mkOpTime 80 1) 0 [entry 50; entry 80] (Some 50))) ∧
   (70 ≠ Timestamp_null → 70 < getTimestamp (mkOpTime 80 1) →
    recoverFromOplogUpTo (applier := whole_buffer_applier) 70
      (sample_state (mkOpTime 80 1) 0 [entry 50; entry 80] (Some 50)) =
    Throw BadValue
      (sample_state (mkOpTime 80 1) 0 [entry 50; entry 80] (Some 50)))).
Proof.
  apply (recoverFromOplogUpTo_nothing_to_apply (applier := whole_buffer_applier)
           70 50 (sample_state (mkOpTime 80 1) 0 [entry 50; entry 80] (Some 50))).
  - reflexivity.
  - reflexivity.
  - reflexivity.
  - unfold Timestamp_null. lia.
  - reflexivity.
Defined.

Lemma applyOplogOperations_ret_witness :
  ∃ first rest,
    oplog_query 50 (Some 70)
      (oplog (sample_state (mkOpTime 50 1) 0 [entry 50; entry 60; entry 70] None))
      = first :: rest ∧
    e_ts first = 50 ∧
    applied_entries
      [EvApplyOplogBatch [entry 60; entry 70]; EvSetAppliedThrough (mkOpTime 70 1)] =
      applied_entries [] ++ rest ∧
    Some [entry 50; entry 60; entry 70] = Some [entry 50; entry 60; entry 70] ∧
    0 = 0 ∧
    70 = getTimestamp (last_optime rest OpTime_null) ∧
    mkOpTime 70 1 =
      (if ts_isNull 70 then mkOpTime 50 1 else last_optime rest OpTime_null).
Proof.
  apply (applyOplogOperations_ret (applier := whole_buffer_applier) 50 70
           (sample_state (mkOpTime 50 1) 0 [entry 50; entry 60; entry 70] None) 70
           (mkState false (mkOpTime 70 1) OpTime_null 0
              (Some [entry 50; entry 60; entry 70]) true None false false
              [EvApplyOplogBatch [entry 60; entry 70];
               EvSetAppliedThrough (mkOpTime 70 1)])).
  vm_compute. reflexivity.
Defined.

Lemma applyToEndOfOplog_ret_witness :
  (50 = 70 ∧
   mkState false (mkOpTime 70 1) OpTime_null 0
     (Some [entry 50; entry 60; entry 70]) true None false false
     [EvApplyOplogBatch [entry 60; entry 70]; EvSetAppliedThrough (mkOpTime 70 1)]
   = sample_state (mkOpTime 50 1) 0 [entry 50; entry 60; entry 70] None) ∨
  (50 < 70 ∧
   Some [entry 50; entry 60; entry 70] = Some [entry 50; entry 60; entry 70] ∧
   ∃ first rest,
     oplog_query 50 (Some 70) (Some [entry 50; entry 60; entry 70]) = first :: rest ∧
     rest ≠ [] ∧
     applied_entries
       [EvApplyOplogBatch [entry 60; entry 70]; EvSetAppliedThrough (mkOpTime 70 1)] =
       applied_entries [] ++ rest ∧
     mkOpTime 70 1 = last_optime rest OpTime_null ∧
     getTimestamp (mkOpTime 70 1) = 70).
Proof.
  apply (applyToEndOfOplog_ret (applier := whole_buffer_applier) 50 70
           (sample_state (mkOpTime 50 1) 0 [entry 50; entry 60; entry 70] None)
           (mkState false (mkOpTime 70 1) OpTime_null 0
              (Some [entry 50; entry 60; entry 70]) true None false false
              [EvApplyOplogBatch [entry 60; entry 70];
               EvSetAppliedThrough (mkOpTime 70 1)])).
  vm_compute. reflexivity.
Defined.

End ReplMore.

(* ===================================================================== *)
(** * Part VI: further properties of the page read path                   *)
(* ===================================================================== *)

Module BtReadMore.
Import BtRead BtReadProofs.

(** ** What the instantiation leaves alone, and what it accounts for *)

(** The lookaside table, the tree and the identity of the reference. *)
Definition las_frame (w w' : World) : Prop :=
  las_table w' = las_table w ∧
  btree_id w' = btree_id w ∧
  state (ref w') = state (ref w) ∧
  ref_addr (ref w') = ref_addr (ref w).

Lemma las_frame_refl w : las_frame w w.
Proof. by unfold las_frame. Qed.

Lemma las_frame_trans w1 w2 w3 : las_frame w1 w2 → las_frame w2 w3 → las_frame w1 w3.
Proof.
  intros (?&?&?&?) (?&?&?&?). unfold las_frame. split_and!; congruence.
Qed.

Lemma wp_bind_inv {St A B} (m : M St A) (k : A → M St B) Q E s :
  wp (m ≫= k) Q E s → wp m (λ a s', wp (k a) Q E s') E s.
Proof. unfold wp, mbind, M_bind. by destruct (m s) as [[a|r] s']. Qed.

Lemma free_update_list_heap c w :
  ∃ L, __wt_free_update_list c w = (Ok tt, set_heap L (next_handle w) w).
Proof.
  revert w. induction c as [|u c IH]; intros w; cbn [__wt_free_update_list].
  - exists (live w). by destruct w.
  - unfold __wt_free, heap_free, mbind, M_bind, modify.
    destruct (IH (set_heap (live w ∖ {[upd_handle u]}) (next_handle w) w)) as [L ->].
    by exists L.
Qed.

(** Projections out of an updated world. *)
Ltac acc_simpl :=
  cbn [ref pop_fault set_faults set_ref set_page set_heap ref_page world locals
       las_table btree_id state ref_addr set_state] in *.

Section Accounting.
Context {env : Env}.
Variables (w0 : World) (p0 : WT_PAGE).

(** The memory a chain accounts for. *)
Definition usize (u : WT_UPDATE) : Z := WT_UPDATE_MEMSIZE (upd_data u).
Definition msum (c : list WT_UPDATE) : Z := foldr (λ u a, usize u + a) 0 c.

Lemma msum_app c1 c2 : msum (c1 ++ c2) = msum c1 + msum c2.
Proof. unfold msum. induction c1 as [|u c1 IH]; cbn [app foldr]; lia. Qed.

(** The running total is the size of every update made so far: those on
    the chains attached since the start, those on the chain under
    construction, and the one not yet linked.  The footprint of the page
    is not touched before the end, and the page not at all before a chain
    is attached. *)
Definition acc_at (p : option WT_PAGE) (l : las_locals) : Prop :=
  ∃ q new,
    p = Some q ∧
    pg_updates q = pg_updates p0 ++ new ∧
    memory_footprint q = memory_footprint p0 ∧
    (new = [] → q = p0) ∧
    total_incr l =
      msum (concat (map snd new)) + msum (first_upd l) + from_option usize 0 (upd l).

Definition acc_inv (f : Frame las_locals) : Prop :=
  las_frame w0 (world f) ∧ acc_at (ref_page (ref (world f))) (locals f).

Definition framed (f : Frame las_locals) : Prop := las_frame w0 (world f).

Lemma acc_at_locals p l l' :
  acc_at p l →
  total_incr l' = total_incr l → first_upd l' = first_upd l → upd l' = upd l →
  acc_at p l'.
Proof.
  intros (q & new & Hq & Hupd & Hfoot & Hsame & Htotal) Ht Hf Hu.
  exists q, new. split_and!; try done. by rewrite Ht, Hf, Hu.
Qed.

Lemma acc_at_attach k q l :
  acc_at (Some q) l →
  acc_at (Some (page_attach k (first_upd l) q)) (set_first_upd [] l).
Proof.
  intros (q' & new & [= <-] & Hupd & Hfoot & Hsame & Htotal).
  exists (page_attach k (first_upd l) q), (new ++ [(k, first_upd l)]).
  split_and!; [done| |done| |].
  - cbn. by rewrite Hupd, app_assoc.
  - intros Hnil. by destruct new.
  - cbn [set_first_upd total_incr first_upd upd].
    rewrite Htotal, map_app, concat_app, msum_app.
    cbn [map concat snd]. rewrite app_nil_r.
    change (msum []) with 0. lia.
Qed.

Lemma las_alloc_update_acc e f :
  acc_inv f → upd (locals f) = None →
  wp (las_alloc_update e)
     (λ u f', acc_inv f' ∧ upd (locals f') = Some u)
     (λ _ f', framed f') f.
Proof.
  intros [Hfr Hacc] Hupd. unfold las_alloc_update.
  repeat wp_step.
  all: unfold acc_inv, framed in *; cbn in *; try done.
  split; [|done]. split; [done|].
  destruct Hacc as (q & new & Hq & Hu & Hfoot & Hsame & Htotal).
  exists q, new. split_and!; try done.
  cbn [total_incr set_upd set_total_incr first_upd upd from_option].
  rewrite Htotal, Hupd. unfold usize. cbn [from_option upd_data]. lia.
Qed.

Lemma las_frame_page w g :
  las_frame w0 w → las_frame w0 (set_ref (set_page g (ref w)) w).
Proof. intros (?&?&?&?). by unfold las_frame. Qed.

Lemma las_frame_faults w fl : las_frame w0 w → las_frame w0 (set_faults fl w).
Proof. intros (?&?&?&?). by unfold las_frame. Qed.

Lemma las_frame_heap w L n : las_frame w0 w → las_frame w0 (set_heap L n w).
Proof. intros (?&?&?&?). by unfold las_frame. Qed.

Lemma las_switch_key_acc e f :
  acc_inv f →
  wp (las_switch_key e)
     (λ _ f', acc_inv f' ∧ upd (locals f') = upd (locals f))
     (λ _ f', framed f') f.
Proof.
  intros [Hfr Hacc]. unfold las_switch_key.
  destruct Hacc as (q & new & Hq & Hacc).
  assert (acc_at (Some q) (locals f)) as Hacc' by (by exists q, new).
  repeat wp_step.
  all: unfold acc_inv, framed in *; acc_simpl; rewrite ?Hq.
  all: cbn [fmap option_fmap option_map].
  all: repeat first [apply las_frame_page | apply las_frame_faults]; try done.
  all: split; [split|done].
  all: repeat first [apply las_frame_page | apply las_frame_faults]; try done.
  all: try (eapply acc_at_locals; [apply acc_at_attach; exact Hacc'|done..]).
  all: by eapply acc_at_locals; [exact Hacc'|..].
Qed.

Lemma las_append_acc u f :
  acc_inv f → upd (locals f) = Some u →
  wp (las_append u) (λ _ f', acc_inv f' ∧ upd (locals f') = None)
     (λ _ f', framed f') f.
Proof.
  intros [Hfr Hacc] Hupd. unfold las_append.
  repeat wp_step. split; [|done]. split; [done|].
  destruct Hacc as (q & new & Hq & Hu & Hfoot & Hsame & Htotal).
  exists q, new. split_and!; try done.
  cbn [locals total_incr set_upd set_first_upd first_upd upd from_option].
  rewrite Htotal, Hupd, msum_app. cbn [from_option].
  change (msum [u]) with (usize u + 0). lia.
Qed.

Lemma las_scan_acc read_id addr cur f :
  acc_inv f → upd (locals f) = None →
  wp (las_instantiate_scan cur read_id addr)
     (λ _ f', acc_inv f' ∧ upd (locals f') = None)
     (λ _ f', framed f') f.
Proof.
  revert f. induction cur as [|e rest IH]; intros f H Hupd;
    cbn [las_instantiate_scan]; cbv zeta.
  - apply wp_throw. by destruct H.
  - assert (∀ f1, acc_inv f1 →
              acc_inv (mkFrame (pop_fault (world f1)) (locals f1))) as Hpop.
    { intros f1 [Hfr1 H1]. split; [by apply las_frame_faults|done]. }
    assert (∀ f1, acc_inv f1 → upd (locals f1) = None →
              wp (ret ← liftW (cursor_next rest);
                  if ret =? 0 then las_instantiate_scan rest read_id addr
                  else mret ret)
                 (λ _ f', acc_inv f' ∧ upd (locals f') = None)
                 (λ _ f', framed f') f1) as Hnext.
    { intros f1 H1 Hupd1. repeat wp_step.
      all: try (apply IH; [|done]).
      all: first [by apply Hpop | split; [by apply Hpop|done]]. }
    destruct H as [Hfr H].
    do 4 wp_step; [|by apply las_frame_faults].
    wp_step; [wp_step; by split; [apply Hpop|]|].
    wp_step; [apply Hnext; [by apply Hpop|done]|].
    wp_step.
    eapply wp_mono; [apply las_alloc_update_acc; [by apply Hpop|done]| |done].
    intros u f1 [H1 Hu1]. cbv beta.
    wp_step.
    eapply wp_mono; [by apply las_switch_key_acc| |done].
    intros _ f2 [H2 Hu2]. cbv beta.
    wp_step.
    eapply wp_mono; [apply las_append_acc; [done|congruence]| |done].
    intros _ f3 [H3 Hu3]. by apply Hnext.
Qed.

(** The page once the instantiation is through. *)
Definition acc_page (q : WT_PAGE) : Prop :=
  ∃ new,
    pg_updates q = pg_updates p0 ++ new ∧
    memory_footprint q = memory_footprint p0 + msum (concat (map snd new)) ∧
    (msum (concat (map snd new)) ≠ 0 → pg_dirty q = false) ∧
    (new = [] → q = p0).

Definition acc_done (f : Frame las_locals) : Prop :=
  framed f ∧
  (∃ q, ref_page (ref (world f)) = Some q ∧ acc_page q) ∧
  upd (locals f) = None ∧ first_upd (locals f) = [].

Lemma acc_finish q l :
  acc_at (Some q) l → upd l = None → first_upd l = [] →
  acc_page (if total_incr l =? 0 then q
            else page_modify_clear (page_inmem_incr (total_incr l) q)).
Proof.
  intros (q' & new & [= <-] & Hupd & Hfoot & Hsame & Htotal) Hu Hfu.
  rewrite Hu, Hfu in Htotal. cbn [from_option] in Htotal.
  change (msum []) with 0 in Htotal.
  exists new. destruct (Z.eqb_spec (total_incr l) 0) as [H0|H0].
  - split_and!; [done|lia|lia|done].
  - cbn. split_and!; [done|lia|done|].
    intros ->. cbn in Htotal. change (msum []) with 0 in Htotal. lia.
Qed.

Lemma las_flush_last_acc f :
  acc_inv f → upd (locals f) = None →
  wp las_flush_last
     (λ _ f', acc_inv f' ∧ upd (locals f') = None ∧ first_upd (locals f') = [])
     (λ _ f', framed f') f.
Proof.
  intros [Hfr Hacc] Hupd. unfold las_flush_last.
  destruct Hacc as (q & new & Hq & Hacc).
  assert (acc_at (Some q) (locals f)) as Hacc' by (by exists q, new).
  repeat wp_step.
  all: unfold acc_inv, framed in *; acc_simpl; rewrite ?Hq.
  all: cbn [fmap option_fmap option_map].
  all: repeat first [apply las_frame_page | apply las_frame_faults]; try done.
  all: try match goal with
         | Hx : bool_decide _ = true |- _ => apply bool_decide_eq_true_1 in Hx
         end.
  all: split_and!; try done.
  all: repeat first [apply las_frame_page | apply las_frame_faults]; try done.
  all: by apply acc_at_attach.
Qed.

Lemma las_cursor_close_acc f :
  acc_inv f →
  wp __wt_las_cursor_close
     (λ _ f', acc_inv f' ∧ upd (locals f') = upd (locals f) ∧
              first_upd (locals f') = first_upd (locals f))
     (λ _ f', framed f') f.
Proof.
  intros [Hfr Hacc]. unfold __wt_las_cursor_close.
  repeat wp_step.
  all: unfold acc_inv; acc_simpl; split_and!; try done.
Qed.

Lemma las_instantiate_body_acc read_id addr f :
  acc_inv f → upd (locals f) = None →
  wp (las_instantiate_body read_id addr) (λ _ f', acc_done f') (λ _ f', framed f') f.
Proof.
  intros H Hupd.
  assert (∀ f1, acc_inv f1 →
            acc_inv (mkFrame (pop_fault (world f1)) (locals f1))) as Hpop.
  { intros f1 [Hfr1 H1]. split; [by apply las_frame_faults|done]. }
  assert (∀ f1, acc_inv f1 → upd (locals f1) = None →
            wp (las_flush_last;;
                c ← __wt_las_cursor_close;
                (if c =? 0 then mret tt else throw c);;
                n ← getL total_incr;
                if n =? 0 then mret tt
                else
                  liftW (on_page (page_inmem_incr n));;
                  liftW (on_page page_modify_clear))
               (λ _ f', acc_done f') (λ _ f', framed f') f1) as Htail.
  { intros f1 H1 Hu1. wp_step.
    eapply wp_mono; [by apply las_flush_last_acc| |done].
    intros _ f2 (H2 & Hu2 & Hfu2). cbv beta. wp_step.
    eapply wp_mono; [by apply las_cursor_close_acc| |done].
    intros c f3 ([Hfr3 H3] & Hu3 & Hfu3). cbv beta.
    rewrite Hu2 in Hu3. rewrite Hfu2 in Hfu3.
    destruct H3 as (q & new & Hq & H3).
    assert (acc_at (Some q) (locals f3)) as H3' by (by exists q, new).
    pose proof (acc_finish q (locals f3) H3' Hu3 Hfu3) as Hfin.
    repeat wp_step.
    all: unfold acc_done, framed; acc_simpl; rewrite ?Hq.
    all: cbn [fmap option_fmap option_map].
    all: repeat first [apply las_frame_page | apply las_frame_faults]; try done.
    all: split_and!; try done.
    all: repeat first [apply las_frame_page | apply las_frame_faults]; try done.
    all: eexists; split; [reflexivity|].
    all: exact Hfin. }
  unfold las_instantiate_body, __wt_las_cursor, las_position.
  destruct H as [Hfr H].
  repeat wp_step.
  all: try (eapply wp_mono;
            [apply las_scan_acc
            |intros ? ? [? ?]; repeat wp_step
            |by intros]).
  all: try (apply wp_bind_inv, Htail).
  all: unfold acc_inv, framed in *; acc_simpl.
  all: repeat first [apply las_frame_faults]; try done.
  all: by destruct H5.
Qed.

(** The cleanup, run after a body that succeeded or failed. *)
Lemma las_instantiate_cleanup_frame ret f :
  framed f →
  wp (las_instantiate_cleanup ret) (λ _ f', framed f') (λ _ f', framed f') f.
Proof.
  intros Hfr. unfold las_instantiate_cleanup, __wt_las_cursor_close, __wt_free, heap_free.
  repeat wp_step.
  all: try match goal with
         | |- wp (__wt_free_update_list ?c) _ _ ?w =>
             unfold wp at 1; destruct (free_update_list_heap c w) as [L ->]
         end.
  all: repeat wp_step.
  all: unfold framed in *; acc_simpl.
  all: repeat first [apply las_frame_heap | apply las_frame_faults]; done.
Qed.

Lemma las_instantiate_cleanup_done f :
  acc_done f →
  wp (las_instantiate_cleanup 0) (λ _ f', acc_done f') (λ _ _, True) f.
Proof.
  intros (Hfr & Hpage & Hu & Hfu).
  unfold las_instantiate_cleanup, __wt_las_cursor_close.
  repeat wp_step.
  all: try match goal with
         | Hx : bool_decide _ = false |- _ => apply bool_decide_eq_false_1 in Hx
         end.
  all: acc_simpl; cbn [upd first_upd set_cursor] in *; try congruence.
  all: unfold acc_done, framed in *; acc_simpl.
  all: split_and!; try done.
  all: repeat first [apply las_frame_heap | apply las_frame_faults]; done.
Qed.

(** The frame alone, on every path and whatever the reference holds. *)
Ltac frame_leaf :=
  unfold framed in *; cbn [world] in *; unfold pop_fault;
  repeat first [apply las_frame_page | apply las_frame_heap | apply las_frame_faults];
  done.

(** A step that keeps the frame on both exits.  Composing such steps
    keeps the paths apart, where threading the state through the whole
    body would multiply them. *)
Definition frames {A} (m : MF A) : Prop :=
  ∀ f, framed f → wp m (λ _ f', framed f') (λ _ f', framed f') f.

Lemma frames_bind {A B} (m : MF A) (k : A → MF B) :
  frames m → (∀ a, frames (k a)) → frames (m ≫= k).
Proof.
  intros Hm Hk f Hf. apply wp_bind.
  eapply wp_mono; [by apply Hm| |done].
  intros a f' Hf'. by apply Hk.
Qed.

Lemma frames_scan read_id addr cur : frames (las_instantiate_scan cur read_id addr).
Proof.
  induction cur as [|e rest IH]; cbn [las_instantiate_scan]; cbv zeta.
  - intros f Hf. by apply wp_throw.
  - unfold las_alloc_update, las_switch_key, las_append.
    repeat (cbv beta iota zeta;
            lazymatch goal with
            | |- frames (mbind _ _) => apply frames_bind; [|intros ?]
            | |- frames (if ?b then _ else _) => destruct b
            | |- frames (match ?x with _ => _ end) => destruct x
            | |- frames (las_instantiate_scan _ _ _) => exact IH
            | |- frames _ => intros ? ?; repeat wp_step; frame_leaf
            end).
Qed.

Lemma las_scan_frame read_id addr cur f :
  framed f →
  wp (las_instantiate_scan cur read_id addr) (λ _ f', framed f') (λ _ f', framed f') f.
Proof. apply frames_scan. Qed.

Ltac frames_step :=
  cbv beta iota zeta;
  lazymatch goal with
  | |- frames (mbind _ _) => apply frames_bind; [|intros ?]
  | |- frames (if ?b then _ else _) => destruct b
  | |- frames (match ?x with _ => _ end) => destruct x
  | |- frames (las_instantiate_scan _ _ _) => apply frames_scan
  | |- frames _ => intros ? ?; unfold las_position; repeat wp_step; frame_leaf
  end.

Lemma las_instantiate_body_frame read_id addr f :
  framed f →
  wp (las_instantiate_body read_id addr) (λ _ f', framed f') (λ _ f', framed f') f.
Proof.
  revert f. change (frames (las_instantiate_body read_id addr)).
  unfold las_instantiate_body, __wt_las_cursor, las_flush_last,
    __wt_las_cursor_close.
  repeat frames_step.
Qed.

End Accounting.

(** X14: [__las_page_instantiate] only reads the lookaside table.
    However it ends, the table is as it was (the records stay in place for
    a later instantiation), and so are the tree id, the state of the
    reference and its address. *)
Theorem las_page_instantiate_leaves_table (env : Env) (read_id : Z) (addr : bytes)
  (w : World) :
  las_table (__las_page_instantiate read_id addr w).2 = las_table w ∧
  btree_id (__las_page_instantiate read_id addr w).2 = btree_id w ∧
  state (ref (__las_page_instantiate read_id addr w).2) = state (ref w) ∧
  ref_addr (ref (__las_page_instantiate read_id addr w).2) = ref_addr (ref w).
Proof.
  enough (las_frame w (__las_page_instantiate read_id addr w).2) as (?&?&?&?)
    by done.
  unfold __las_page_instantiate.
  pose proof (las_instantiate_body_frame w read_id addr (mkFrame w las_locals_init)
                (las_frame_refl w)) as Hbody.
  unfold wp in Hbody.
  destruct (las_instantiate_body read_id addr (mkFrame w las_locals_init)) as [r f].
  assert (framed w f) as Hf by (by destruct r).
  pose proof (las_instantiate_cleanup_frame w (ret_of r) f Hf) as Hclean.
  unfold wp in Hclean.
  by destruct (las_instantiate_cleanup (ret_of r) f) as [[ret|?] f'].
Qed.

(** A run that returned 0 went through the body without an error and
    then through the cleanup. *)
Lemma las_page_instantiate_ok_inv (env : Env) read_id addr w w' p :
  ref_page (ref w) = Some p →
  __las_page_instantiate read_id addr w = (Ok tt, w') →
  ∃ f f',
    las_instantiate_body read_id addr (mkFrame w las_locals_init) = (Ok tt, f) ∧
    las_instantiate_cleanup 0 f = (Ok 0, f') ∧
    w' = world f'.
Proof.
  intros Hpage. unfold __las_page_instantiate.
  pose proof (las_instantiate_body_ok read_id addr w p Hpage) as Hbody.
  unfold wp in Hbody.
  destruct (las_instantiate_body read_id addr (mkFrame w las_locals_init))
    as [[[]|c] f].
  - cbn [ret_of]. destruct (las_instantiate_cleanup 0 f) as [[r'|c'] f'] eqn:Hcl;
      [|done].
    unfold of_ret. destruct (Z.eqb_spec r' 0) as [->|]; [|done].
    intros [= <-]. by exists f, f'.
  - cbn [ret_of].
    assert (wp (las_instantiate_cleanup c) (λ r _, r ≠ 0) (λ _ _, True) f) as Hcl.
    { unfold las_instantiate_cleanup, __wt_las_cursor_close.
      repeat wp_step.
      all: try (apply wp_free_update_list; intros; apply wp_ret).
      all: try done.
      all: by repeat apply WT_TRET_nonzero. }
    unfold wp in Hcl.
    destruct (las_instantiate_cleanup c f) as [[r'|c'] f']; [|done].
    unfold of_ret. destruct (Z.eqb_spec r' 0); done.
Qed.

(** X15: a successful instantiation accounts for what it has built.  The
    footprint of the page has grown by the sizes of the updates on the
    chains attached, no more and no less; when that is not zero the page
    is clean again, although attaching the chains had dirtied it; and when
    no chain was attached the page is exactly as it was. *)
Theorem las_page_instantiate_accounts (env : Env) (read_id : Z) (addr : bytes)
  (w w' : World) (p : WT_PAGE) :
  ref_page (ref w) = Some p →
  __las_page_instantiate read_id addr w = (Ok tt, w') →
  ∃ p' new,
    ref_page (ref w') = Some p' ∧
    pg_updates p' = pg_updates p ++ new ∧
    memory_footprint p' = memory_footprint p + msum (concat (map snd new)) ∧
    (msum (concat (map snd new)) ≠ 0 → pg_dirty p' = false) ∧
    (new = [] → p' = p).
Proof.
  intros Hpage Hrun.
  destruct (las_page_instantiate_ok_inv env read_id addr w w' p Hpage Hrun)
    as (f & f' & Hbody & Hclean & ->).
  assert (acc_inv w p (mkFrame w las_locals_init)) as Hinit.
  { split; [apply las_frame_refl|]. exists p, []. cbn. by rewrite app_nil_r. }
  pose proof (las_instantiate_body_acc w p read_id addr _ Hinit eq_refl) as Hacc.
  unfold wp in Hacc. rewrite Hbody in Hacc.
  pose proof (las_instantiate_cleanup_done w p f Hacc) as Hdone.
  unfold wp in Hdone. rewrite Hclean in Hdone.
  destruct Hdone as (_ & (q & Hq & new & Hu & Hfoot & Hdirty & Hsame) & _).
  by exists q, new.
Qed.

Lemma las_page_instantiate_accounts_witness :
  ∃ p' new,
    ref_page (ref sample_world_instantiated) = Some p' ∧
    pg_updates p' = pg_updates sample_page ++ new ∧
    memory_footprint p' =
      memory_footprint sample_page + @msum sample_env (concat (map snd new)) ∧
    (@msum sample_env (concat (map snd new)) ≠ 0 → pg_dirty p' = false) ∧
    (new = [] → p' = sample_page).
Proof.
  apply (las_page_instantiate_accounts sample_env 7 sample_addr
           sample_world_locked sample_world_instantiated sample_page).
  - reflexivity.
  - vm_compute. reflexivity.
Defined.

(** ** [__wt_las_remove_block]: what it leaves alone, what it returns *)

Section RemoveBlockMore.
Context {env : Env}.
Variables (id : Z) (addr : bytes).




(** A scan that starts on a record, no call failing, ends with 0 or
    with [WT_NOTFOUND]. *)
Lemma remove_block_scan_ok cur pos w :
  cur ≠ [] → faults w = [] →
  wp (remove_block_scan cur pos id addr)
     (λ r _, r = 0 ∨ r = WT_NOTFOUND) (λ _ _, False) w.
Proof.
  revert w. induction cur as [|e rest IH]; intros w Hcur Hf; [done|].
  cbn [remove_block_scan]. unfold cursor_remove.
  repeat wp_step.
  all: cbn in *; rewrite ?Hf in *; cbn in *; try done.
  all: try (by left); try (by right).
  - apply IH; [|by cbn; rewrite Hf]. by destruct rest.
  - destruct rest; [by right|by left].
Qed.

(** X17: with no call failing, and a cursor that [search_near] leaves on
    a record whenever it returns 0, [__wt_las_remove_block] returns 0
    whether it removed records or found none: neither a [WT_NOTFOUND]
    from [search_near] nor running off the end of the table is an error.
    Any other code from [search_near] is returned as it is. *)
Theorem remove_block_returns (w : World) :
  faults w = [] →
  (∀ exact pos,
     search_near (las_table w) (id, addr, 0, 0, []) = (0, exact, pos) →
     (pos < length (las_table w))%nat) →
  (__wt_las_remove_block id addr w).1 =
    if (scan_ret id addr (las_table w) =? 0) ||
       (scan_ret id addr (las_table w) =? WT_NOTFOUND)
    then Ok tt else Err (scan_ret id addr (las_table w)).
Proof.
  intros Hf Hpos. unfold scan_ret.
  destruct (search_near (las_table w) (id, addr, 0, 0, [])) as [[ret exact] pos] eqn:Hsn.
  cbn [fst].
  destruct ((ret =? 0) || (ret =? WT_NOTFOUND)) eqn:Hgood.
  - (* the code of [search_near] is 0 or [WT_NOTFOUND] *)
    unfold __wt_las_remove_block.
    match goal with
    | |- (let '(r, w0) := ?m w in _).1 = _ =>
        enough (wp m (λ _ _, True) (λ _ _, False) w) as Hen
    end.
    { unfold wp in Hen.
      match type of Hen with
      | match ?x with _ => _ end => by destruct x as [[[]|c] w1]
      end. }
    wp_step. wp_step. wp_step; [|by rewrite Hf in *].
    wp_step. wp_step; [|by cbn in *; rewrite Hf in *].
    wp_step.
    apply (wp_las_position id addr _ _ _ ret exact pos); [by cbn|].
    cbn [las_table pop_fault set_faults].
    assert (faults (pop_fault (pop_fault w)) = []) as Hf2 by (by cbn; rewrite Hf).
    destruct (Z.eqb_spec ret 0) as [->|Hret]; cbn [andb].
    + specialize (Hpos exact pos eq_refl).
      destruct (exact <? 0).
      * unfold cursor_next. repeat wp_step.
        all: cbn in *; rewrite ?Hf in *; cbn in *; try done.
        all: try by destruct (drop (S pos) (las_table w)).
        eapply wp_mono; [apply remove_block_scan_ok| |done].
        -- by destruct (drop (S pos) (las_table w)).
        -- by cbn; rewrite Hf.
        -- intros r w' [->| ->]; by repeat wp_step.
      * repeat wp_step.
        eapply wp_mono; [apply remove_block_scan_ok| |done].
        -- intros Hnil. apply (f_equal length) in Hnil.
           rewrite length_drop in Hnil. cbn in Hnil. lia.
        -- done.
        -- intros r w' [->| ->]; by repeat wp_step.
    + cbn [orb] in Hgood. apply Z.eqb_eq in Hgood as ->.
      by repeat wp_step.
  - (* any other code *)
    apply orb_false_iff in Hgood as [Hne0%Z.eqb_neq Hnf].
    unfold __wt_las_remove_block.
    match goal with
    | |- (let '(r, w0) := ?m w in _).1 = _ =>
        enough (wp m (λ _ _, False) (λ c _, c = ret) w) as Hen
    end.
    { unfold wp in Hen.
      match type of Hen with
      | match ?x with _ => _ end => destruct x as [[[]|c] w1]; [done|]
      end.
      subst c. cbn [fst ret_of]. unfold of_ret. by destruct (Z.eqb_spec ret 0). }
    wp_step. wp_step. wp_step; [|by rewrite Hf in *].
    wp_step. wp_step; [|by cbn in *; rewrite Hf in *].
    wp_step.
    apply (wp_las_position id addr _ _ _ ret exact pos); [by cbn|].
    destruct (Z.eqb_spec ret 0) as [|_]; [done|]. cbn [andb].
    wp_step. wp_step. unfold WT_ERR_NOTFOUND_OK. rewrite Hnf.
    destruct (Z.eqb_spec ret 0) as [|_]; [done|]. by wp_step.
Qed.


End RemoveBlockMore.

Lemma remove_block_returns_witness :
  (@__wt_las_remove_block sample_env 7 sample_addr (sample_world [])).1 =
    if (@scan_ret sample_env 7 sample_addr (las_table (sample_world [])) =? 0) ||
       (@scan_ret sample_env 7 sample_addr (las_table (sample_world [])) =? WT_NOTFOUND)
    then Ok tt
    else Err (@scan_ret sample_env 7 sample_addr (las_table (sample_world []))).
Proof.
  apply (@remove_block_returns sample_env 7 sample_addr (sample_world [])).
  - reflexivity.
  - intros exact pos [= <- <-]. simpl. lia.
Defined.

(** ** [__wt_cache_read]: the race and the page it builds *)

Section CacheReadMore.
Context {env : Env}.

(** X18: a reference that is neither on disk nor deleted is not read:
    [__wt_cache_read] returns 0 at once, without a call that could fail,
    and the world is as it was. *)
Theorem cache_read_lost_race (w : World) :
  state (ref w) ≠ WT_REF_DISK →
  state (ref w) ≠ WT_REF_DELETED →
  __wt_cache_read w = (Ok tt, w).
Proof.
  intros Hdisk Hdel. unfold __wt_cache_read, __wt_atomic_casv32.
  by rewrite !bool_decide_eq_false_2.
Qed.







End CacheReadMore.

Lemma cache_read_lost_race_witness :
  @__wt_cache_read sample_env sample_world_locked = (Ok tt, sample_world_locked).
Proof. apply (@cache_read_lost_race sample_env); simpl; discriminate. Defined.



End BtReadMore.
